(** * Hub: chunk names, the chunk-name encoder, tensors, caches and datasets

    A shallow embedding of the storage engine of the Hub tensor-dataset
    library and the properties its specification states about it.

    Conventions.
    - A Python call that may raise is a function into [result]: [Ok v] for a
      normal return, [Raise e] for the exception that leaves the call.
    - Objects mutated in place are threaded explicitly: a method takes the
      object and returns the object as it is when the call is left.
    - [np.uint64] values are [N] below [2^64]; Python integers are [Z]. *)

From Stdlib Require Import ZArith NArith Ascii String List Lia.
From Stdlib Require Import DecimalString.
From Stdlib.Strings Require Import Byte.
From stdpp Require Import base tactics option list gmap strings sorting.

Local Open Scope Z_scope.

(** ** Exceptions and results *)

(** The values that the exceptions of the library carry as arguments. *)
Inductive pyval : Type :=
  | PStr (s : string)
  | PInt (z : Z)
  | PShape (l : list nat).

Inductive exn : Type :=
  | ValueError (msg : string)
  | IndexError (msg : string)
  | KeyError (key : string)
  | OverflowError
  | NotImplementedError (msg : string)
  | Exception (msg : string)
  | TensorAlreadyExistsError (key : string)
  | TensorDoesNotExistError (key : string)
  | TensorMetaMismatchError (field : string) (expected actual : pyval).

Inductive result (A : Type) : Type :=
  | Ok (a : A)
  | Raise (e : exn).
Arguments Ok {A} a.
Arguments Raise {A} e.

#[global] Instance result_ret : MRet result := fun A a => Ok a.
#[global] Instance result_fmap : FMap result := fun A B f r =>
  match r with
  | Ok a => Ok (f a)
  | Raise e => Raise e
  end.
#[global] Instance result_bind : MBind result := fun A B k r =>
  match r with
  | Ok a => k a
  | Raise e => Raise e
  end.

Definition is_ok {A} (r : result A) : Prop := exists a, r = Ok a.

(** ** hub/core/meta/encode/chunk_name.py *)

Module ChunkName.

Definition CHUNK_ID_BITS : N := 64%N.

(** The range of [CHUNK_NAME_ENCODING_DTYPE = np.uint64]. *)
Definition uint64_max : N := (2 ^ CHUNK_ID_BITS - 1)%N.
Definition is_uint64 (n : N) : Prop := (n <= uint64_max)%N.

(** *** Python's [hex] and [int(_, 16)] *)

Definition hex_digit (d : N) : ascii :=
  match d with
  | 0%N => "0" | 1%N => "1" | 2%N => "2" | 3%N => "3"
  | 4%N => "4" | 5%N => "5" | 6%N => "6" | 7%N => "7"
  | 8%N => "8" | 9%N => "9" | 10%N => "a" | 11%N => "b"
  | 12%N => "c" | 13%N => "d" | 14%N => "e" | _ => "f"
  end%char.

(** Digits of [n] in base 16, most significant first; [fuel] bounds the
    number of digits produced. *)
Fixpoint hex_digits_fuel (fuel : nat) (n : N) : string :=
  match fuel with
  | O => EmptyString
  | S fuel' =>
      if (n <? 16)%N then String (hex_digit n) EmptyString
      else (hex_digits_fuel fuel' (n / 16) ++
            String (hex_digit (n mod 16)) EmptyString)%string
  end.

Definition hex_digits (n : N) : string :=
  hex_digits_fuel (S (N.to_nat (N.log2 n))) n.

(** [hex(n)] for a non-negative integer: the prefix [0x], then the digits. *)
Definition hex (n : N) : string := ("0x" ++ hex_digits n)%string.

(** [s[k:]] on a string. *)
Fixpoint str_drop (k : nat) (s : string) : string :=
  match k, s with
  | O, _ => s
  | S k', String _ s' => str_drop k' s'
  | S _, EmptyString => EmptyString
  end.

(** The value of a hexadecimal digit; [int] accepts both cases. *)
Definition hex_value (c : ascii) : option N :=
  let n := N_of_ascii c in
  if ((48 <=? n) && (n <=? 57))%N then Some (n - 48)%N
  else if ((97 <=? n) && (n <=? 102))%N then Some (n - 87)%N
  else if ((65 <=? n) && (n <=? 70))%N then Some (n - 55)%N
  else None.

Fixpoint parse_hex (s : string) (acc : N) : option N :=
  match s with
  | EmptyString => Some acc
  | String c s' =>
      match hex_value c with
      | Some d => parse_hex s' (16 * acc + d)%N
      | None => None
      end
  end.

(** [int(s, 16)] on a string made of an optional [0x] or [0X] prefix and
    hexadecimal digits. Anything else (no digit at all, a sign, white space,
    an underscore) is [None] here; Python raises [ValueError] on the first
    and accepts the others, which no chunk name contains. *)
Definition int16 (s : string) : option N :=
  let body :=
    match s with
    | String "0" (String "x" r) => r
    | String "0" (String "X" r) => r
    | _ => s
    end in
  match body with
  | EmptyString => None
  | _ => parse_hex body 0
  end.

Definition _chunk_name_from_id (id : N) : string := str_drop 2 (hex id).

Definition _chunk_id_from_name (name : string) : option N :=
  int16 ("0x" ++ name)%string.

(** The characters of a lowercase hexadecimal numeral. *)
Definition is_lower_hex (c : ascii) : bool :=
  let n := N_of_ascii c in
  (((48 <=? n) && (n <=? 57)) || ((97 <=? n) && (n <=? 102)))%N.

Fixpoint str_all (p : ascii -> bool) (s : string) : bool :=
  match s with
  | EmptyString => true
  | String c s' => p c && str_all p s'
  end.

(** *** NumPy's arithmetic on a [np.uint64] and a Python [int]

    [_encoded] holds [np.uint64] values, and the encoder combines them with
    Python integers: [last + 1], [last += n], [sample_index - last],
    [last == sample_index], [np.searchsorted(column, sample_index)]. The
    NumPy this code was written for (the releases before 2.0) gives the
    Python integer the type [np.int64] when its value fits, else
    [np.uint64], else [object], and computes in the common type of the two
    operands. The common type of [np.uint64] and [np.int64] is [np.float64]:
    with every sample count and index that fits [np.int64] these operations
    are carried out on the nearest floating-point numbers. (From NumPy 2.0
    on they stay in [np.uint64]. Both ways are exact as long as the numbers
    involved do not exceed [2^53].) *)

(** [z / d] rounded to the nearest integer, a tie to the even one. *)
Definition div_rne (z d : Z) : Z :=
  let q := z / d in
  match 2 * (z mod d) ?= d with
  | Lt => q
  | Gt => q + 1
  | Eq => if Z.even q then q else q + 1
  end.

(** The [np.float64] nearest to an integer [0 <= z]: [z] itself below
    [2^53], else the nearest multiple of the unit in the last place of its
    53-bit significand. (All integers here are below [2^65]; the overflow of
    the exponent does not arise.) *)
Definition float64_abs (z : Z) : Z :=
  if z <? 2 ^ 53 then z
  else let ulp := 2 ^ (Z.log2 z - 52) in ulp * div_rne z ulp.

(** The value of [np.float64(z)], which is an integer again. *)
Definition float64 (z : Z) : Z :=
  if z <? 0 then - float64_abs (- z) else float64_abs z.

Definition float64_N (x : N) : N := Z.to_N (float64 (Z.of_N x)).

Inductive int_dtype : Type := np_int64 | np_uint64 | np_object.

(** The type that NumPy gives to a Python integer operand. *)
Definition dtype_of_int (v : Z) : int_dtype :=
  if v <? - 2 ^ 63 then np_object
  else if v <? 2 ^ 63 then np_int64
  else if v <? 2 ^ 64 then np_uint64
  else np_object.

(** [int(x + v)] for a [np.uint64] [x] and a Python integer [v]. *)
Definition uint64_add_int (x : N) (v : Z) : Z :=
  match dtype_of_int v with
  | np_int64 => float64 (float64 (Z.of_N x) + float64 v)
  | np_uint64 => (Z.of_N x + v) mod 2 ^ 64
  | np_object => Z.of_N x + v
  end.

(** [int(v - x)] *)
Definition int_sub_uint64 (v : Z) (x : N) : Z :=
  match dtype_of_int v with
  | np_int64 => float64 (float64 v - float64 (Z.of_N x))
  | np_uint64 => (v - Z.of_N x) mod 2 ^ 64
  | np_object => v - Z.of_N x
  end.

(** [x == v] *)
Definition uint64_eq_int (x : N) (v : Z) : bool :=
  match dtype_of_int v with
  | np_int64 => float64 (Z.of_N x) =? float64 v
  | _ => Z.of_N x =? v
  end.

(** [x < v], the comparison of the search of [np.searchsorted] *)
Definition uint64_lt_int (x : N) (v : Z) : bool :=
  match dtype_of_int v with
  | np_int64 => float64 (Z.of_N x) <? float64 v
  | _ => Z.of_N x <? v
  end.

(** *** The encoder *)

(** [CHUNK_NAME_ENCODING_DTYPE(z)] and the conversion of a Python integer
    stored into a [np.uint64] array: a value outside the range raises
    [OverflowError]. *)
Definition to_uint64 (z : Z) : result N :=
  if (0 <=? z) && (z <=? Z.of_N uint64_max) then Ok (Z.to_N z)
  else Raise OverflowError.

(** A [np.uint64] operation wraps around. The same is taken for the
    conversion of a [np.float64] of [2^64] or more to [np.uint64], which C
    leaves to the platform; no property below depends on such a value. *)
Definition wrap_uint64 (z : Z) : N := Z.to_N (z mod 2 ^ Z.of_N CHUNK_ID_BITS).

(** [a[i] += v] on an element [x] of a [np.uint64] array: the sum [x + v] is
    computed as above and converted to [np.uint64] when it is stored. *)
Definition uint64_iadd_int (x : N) (v : Z) : result N :=
  match dtype_of_int v with
  | np_object => to_uint64 (Z.of_N x + v)
  | _ => Ok (wrap_uint64 (uint64_add_int x v))
  end.

(** [_generate_chunk_id()]: [uuid] is the integer [uuid4().int] that the
    call draws; the id is [uuid >> CHUNK_ID_BITS], converted to [np.uint64]. *)
Definition _generate_chunk_id (uuid : N) : result N :=
  to_uint64 (Z.of_N (N.shiftr uuid CHUNK_ID_BITS)).

(** A row of [_encoded]: column [CHUNK_ID_INDEX = 0] then column
    [LAST_INDEX_INDEX = 1]. *)
Abbreviation row := (N * N)%type.
Definition chunk_id_of (r : row) : N := fst r.
Definition last_index_of (r : row) : N := snd r.

(** Both attributes are [None] until the first chunk is appended. *)
Record ChunkNameEncoder : Type := {
  _encoded : option (list row);
  _connectivity : option (list bool)
}.

(** [ChunkNameEncoder()] *)
Definition init : ChunkNameEncoder :=
  {| _encoded := None; _connectivity := None |}.

(** [a[-1]] on a list: the last element, [IndexError] on an empty one. *)
Definition py_last {A} (l : list A) : result A :=
  match last l with
  | Some x => Ok x
  | None => Raise (IndexError "index -1 is out of bounds")
  end.

(** [a[i]] for [0 <= i]. *)
Definition py_nth {A} (l : list A) (i : nat) : result A :=
  match l !! i with
  | Some x => Ok x
  | None => Raise (IndexError "index is out of bounds")
  end.

(** [a[-1] = x] *)
Definition set_last {A} (l : list A) (x : A) : list A :=
  <[pred (length l) := x]> l.

Definition attr {A} (o : option A) : result A :=
  match o with
  | Some a => Ok a
  | None => Raise (Exception "'NoneType' object is not subscriptable")
  end.

Definition num_chunks (self : ChunkNameEncoder) : Z :=
  match _encoded self with
  | None => 0
  | Some rows => Z.of_nat (length rows)
  end.

(** [int(self._encoded[-1, LAST_INDEX_INDEX] + 1)] *)
Definition num_samples (self : ChunkNameEncoder) : result Z :=
  match _encoded self with
  | None => Ok 0
  | Some rows => r ← py_last rows; Ok (uint64_add_int (last_index_of r) 1)
  end.

Definition get_name_for_chunk (self : ChunkNameEncoder) (idx : nat)
  : result string :=
  rows ← attr (_encoded self);
  r ← py_nth rows idx;
  Ok (_chunk_name_from_id (chunk_id_of r)).

Definition get_local_sample_index (self : ChunkNameEncoder)
    (global_sample_index : Z) (chunk_index : nat) : result Z :=
  if global_sample_index <? 0 then Raise (Exception "")
  else match chunk_index with
       | O => Ok global_sample_index
       | S prev =>
           rows ← attr (_encoded self);
           last_entry ← py_nth rows prev;
           Ok (int_sub_uint64 global_sample_index (last_index_of last_entry))
       end.

(** The binary search of [np.searchsorted] with the default [side='left'],
    on an array and a needle of one type: it halves [lo, hi) until it is
    empty. *)
Fixpoint searchsorted_loop (fuel : nat) (a : list N) (v : Z) (lo hi : nat)
  : nat :=
  match fuel with
  | O => lo
  | S fuel' =>
      if (lo <? hi)%nat then
        let mid := (lo + (hi - lo) / 2)%nat in
        match a !! mid with
        | Some x =>
            if Z.of_N x <? v then searchsorted_loop fuel' a v (S mid) hi
            else searchsorted_loop fuel' a v lo mid
        | None => lo
        end
      else lo
  end.

Definition binary_search (a : list N) (v : Z) : nat :=
  searchsorted_loop (S (length a)) a v 0 (length a).

(** [np.searchsorted(a, v)] for a [np.uint64] array [a] and a Python
    integer [v]: the array and the needle are converted to their common
    type, then searched. *)
Definition searchsorted (a : list N) (v : Z) : nat :=
  match dtype_of_int v with
  | np_int64 => binary_search (map float64_N a) (float64 v)
  | _ => binary_search a v
  end.

(** The [while] loop of [get_chunk_names]. Every iteration reads row [idx],
    so the loop ends at the latest with the [IndexError] of the read past the
    last row; the fuel is the number of rows plus one. *)
Fixpoint chunk_names_loop (fuel : nat) (rows : list row) (conn : list bool)
    (sample_index : Z) (idx : nat) (names : list string) (indices : list nat)
  : result (list string * list nat) :=
  match fuel with
  | O => Raise (IndexError "index is out of bounds")
  | S fuel' =>
      r ← py_nth rows idx;
      if uint64_eq_int (last_index_of r) sample_index then
        c ← py_nth conn idx;
        if (c : bool) then
          let idx := S idx in
          r' ← py_nth rows idx;
          let name := _chunk_name_from_id (chunk_id_of r') in
          chunk_names_loop fuel' rows conn sample_index idx
            (names ++ [name]) (indices ++ [idx])
        else Ok (names, indices)
      else Ok (names, indices)
  end.

(** [get_chunk_names(sample_index, return_indices=True)]; with
    [return_indices=False] the caller gets the first component only. *)
Definition get_chunk_names (self : ChunkNameEncoder) (sample_index : Z)
  : result (list string * list nat) :=
  n ← num_samples self;
  if n =? 0 then
    Raise (IndexError
      "Index {sample_index} is out of bounds for an empty chunk names encoding.")
  else
    let sample_index :=
      if sample_index <? 0 then n + sample_index else sample_index in
    rows ← attr (_encoded self);
    conn ← attr (_connectivity self);
    let idx := searchsorted (map last_index_of rows) sample_index in
    r ← py_nth rows idx;
    chunk_names_loop (S (length rows)) rows conn sample_index idx
      [_chunk_name_from_id (chunk_id_of r)] [idx].

(** [extend_chunk(num_samples, connected_to_next)]: the encoder as the call
    leaves it, and the name returned. *)
Definition extend_chunk (self : ChunkNameEncoder) (num_new : Z)
    (connected_to_next : bool) : result (ChunkNameEncoder * string) :=
  if num_new <=? 0 then
    Raise (ValueError
      "When extending, `num_samples` should be > 0. Got {num_samples}.")
  else
    n ← num_samples self;
    if n =? 0 then
      Raise (Exception
        "Cannot extend the previous chunk because it doesn't exist.")
    else
      conn ← attr (_connectivity self);
      c ← py_last conn;
      if (c : bool) then
        Raise (Exception
          "Cannot extend a chunk that is already marked as `connected_to_next`.")
      else
        rows ← attr (_encoded self);
        last_entry ← py_last rows;
        li ← uint64_iadd_int (last_index_of last_entry) num_new;
        let last_entry' := (chunk_id_of last_entry, li) in
        Ok ({| _encoded := Some (set_last rows last_entry');
               _connectivity := Some (set_last conn connected_to_next) |},
            _chunk_name_from_id (chunk_id_of last_entry')).

(** [append_chunk(num_samples, connected_to_next)]; [id] is the value that
    [_generate_chunk_id()] returns in this call, [uuid4().int >> 64]. The
    new last index, [self.num_samples - 1 + num_samples], is computed on
    Python integers and stored into a new [np.uint64] array. *)
Definition append_chunk (id : N) (self : ChunkNameEncoder) (num_new : Z)
    (connected_to_next : bool) : result (ChunkNameEncoder * string) :=
  if num_new <? 0 then
    Raise (ValueError
      "When appending, `num_samples` should be >= 0. Got {num_samples}.")
  else
    n ← num_samples self;
    self' ←
      (if n =? 0 then
         if num_new =? 0 then Raise (Exception "First num samples cannot be 0.")
         else
           li ← to_uint64 (num_new - 1);
           Ok {| _encoded := Some [(id, li)];
                 _connectivity := Some [connected_to_next] |}
       else
         unconnected ←
           (if num_new =? 0 then
              conn ← attr (_connectivity self); c ← py_last conn; Ok (negb c)
            else Ok false);
         if (unconnected : bool) then
           Raise (Exception
             "num_samples cannot be 0 unless the previous chunk was connected to next.")
         else
           let last_index := n - 1 in
           li ← to_uint64 (last_index + num_new);
           rows ← attr (_encoded self);
           conn ← attr (_connectivity self);
           Ok {| _encoded := Some (rows ++ [(id, li)]);
                 _connectivity := Some (conn ++ [connected_to_next]) |});
    rows ← attr (_encoded self');
    last_entry ← py_last rows;
    Ok (self', _chunk_name_from_id (chunk_id_of last_entry)).

Definition _validate_num_samples (num_new : Z) : result unit :=
  if num_new <=? 0 then
    Raise (ValueError "`num_count` should be > 0. Got {num_samples}.")
  else Ok tt.

(** A history of calls on one encoder. *)
Inductive op : Type :=
  | AppendChunk (id : N) (num_new : Z) (connected_to_next : bool)
  | ExtendChunk (num_new : Z) (connected_to_next : bool).

Definition run_op (self : ChunkNameEncoder) (o : op)
  : result ChunkNameEncoder :=
  match o with
  | AppendChunk id n c => fst <$> append_chunk id self n c
  | ExtendChunk n c => fst <$> extend_chunk self n c
  end.

(** All calls succeed, one after the other. *)
Fixpoint run_ops (self : ChunkNameEncoder) (ops : list op)
  : result ChunkNameEncoder :=
  match ops with
  | [] => Ok self
  | o :: ops' => self' ← run_op self o; run_ops self' ops'
  end.

(** The number of samples a history adds. *)
Definition op_samples (o : op) : Z :=
  match o with
  | AppendChunk _ n _ => n
  | ExtendChunk n _ => n
  end.

(** *** The invariants of the data model *)

(** [encoded[i].last_sample_index] is non-decreasing in [i]. *)
Definition nondecreasing (rows : list row) : Prop :=
  StronglySorted N.le (map last_index_of rows).

(** A well-formed encoder, which is what the class builds as long as it
    holds at most [2^53] samples: the two arrays are set together, have one
    entry per chunk, and the last indices never go down. *)
Definition encoder_inv (self : ChunkNameEncoder) : Prop :=
  match _encoded self, _connectivity self with
  | None, None => True
  | Some rows, Some conn =>
      rows <> [] /\ length conn = length rows /\ nondecreasing rows
  | _, _ => False
  end.

(** [encoded[-1].last_sample_index], when there is a chunk. *)
Definition last_sample_index (self : ChunkNameEncoder) : option N :=
  match _encoded self with
  | None => None
  | Some rows => last_index_of <$> last rows
  end.

Definition total_samples (ops : list op) : Z :=
  foldr Z.add 0 (map op_samples ops).

(** The encoder holds [k] samples: its last index is [k - 1], and there is
    no chunk when [k = 0]. *)
Definition holds (self : ChunkNameEncoder) (k : Z) : Prop :=
  match last_sample_index self with
  | None => k = 0
  | Some l => k = Z.of_N l + 1
  end.

(** The number of [append_chunk] calls of a history. *)
Definition is_append (o : op) : bool :=
  match o with
  | AppendChunk _ _ _ => true
  | ExtendChunk _ _ => false
  end.

Definition count_appends (ops : list op) : Z :=
  Z.of_nat (length (List.filter is_append ops)).

(** [connectivity[i] = 1] implies that chunk [i+1] exists. *)
Definition connected_has_next (rows : list row) (conn : list bool) : Prop :=
  forall i, conn !! i = Some true -> (S i < length rows)%nat.

(** The condition of the [while] loop of [get_chunk_names] at row [k]. *)
Definition continues (rows : list row) (conn : list bool) (sample_index : Z)
    (k : nat) : bool :=
  match rows !! k, conn !! k with
  | Some r, Some c => (Z.of_N (last_index_of r) =? sample_index) && c
  | _, _ => false
  end.

(** Everything before index [i] of [a] is below [v], everything from [i] on
    is not: [i] is the smallest index whose element is at least [v]. *)
Definition splits (a : list N) (v : Z) (i : nat) : Prop :=
  (forall k x, (k < i)%nat -> a !! k = Some x -> Z.of_N x < v) /\
  (forall k x, (i <= k)%nat -> a !! k = Some x -> v <= Z.of_N x).

(** The names of the chunks [i], ..., [j]. *)
Definition names_between (rows : list row) (i j : nat) : list string :=
  map (fun r => _chunk_name_from_id (chunk_id_of r))
      (take (S j - i) (drop i rows)).

End ChunkName.

(** ** Storage providers and the cache layer *)

Module Cache.

(** The interface of hub.core.storage.provider: a mutable mapping from keys
    to values with a [flush]. A method takes the provider and returns it as
    the call leaves it. [view] is what the provider answers for each key,
    [backing] is what its bottommost store holds, which is what another
    provider opened over the same store finds there. *)
Class StorageProvider (V S : Type) : Type := {
  sp_get : string -> S -> result V * S;
  sp_set : string -> V -> S -> S;
  sp_del : string -> S -> result unit * S;
  sp_flush : S -> S;
  view : S -> gmap string V;
  backing : S -> gmap string V
}.

(** Modelled from the spec: the in-memory provider, a dict (section 6). Its
    class, hub.core.storage.memory, is not in src. *)
#[global] Instance MemoryProvider {V} : StorageProvider V (gmap string V) := {
  sp_get key m :=
    (match m !! key with Some v => Ok v | None => Raise (KeyError key) end, m);
  sp_set key v m := <[key := v]> m;
  sp_del key m :=
    match m !! key with
    | Some _ => (Ok tt, delete key m)
    | None => (Raise (KeyError key), m)
    end;
  sp_flush m := m;
  view m := m;
  backing m := m
}.

(** Modelled from the spec: the state of a CacheLayer (section 3), whose
    class is not in src. [lru_sizes] is an insertion-ordered dict, oldest
    key first. *)
Record CacheLayer (V N : Type) : Type := {
  cache_storage : gmap string V;
  next_storage : N;
  max_cache_size : Z;
  lru_sizes : list (string * Z);
  dirty_keys : gset string
}.
Arguments cache_storage {V N} _.
Arguments next_storage {V N} _.
Arguments max_cache_size {V N} _.
Arguments lru_sizes {V N} _.
Arguments dirty_keys {V N} _.

(** [len(value)] *)
Class Sized (V : Type) : Type := size : V -> Z.

Section cache_layer.
Context {V N : Type} `{!Sized V} `{!StorageProvider V N}.

Local Abbreviation layer := (CacheLayer V N).

(** [cache_used]: the sum of [lru_sizes.values()]. *)
Definition cache_used (self : layer) : Z :=
  foldr Z.add 0 (map snd (lru_sizes self)).

(** [key in lru_sizes] *)
Definition cached (self : layer) (key : string) : bool :=
  bool_decide (key ∈ map fst (lru_sizes self)).

(** [lru_sizes] without [key]. *)
Definition lru_remove (key : string) (lru : list (string * Z))
  : list (string * Z) :=
  filter (fun kz => fst kz <> key) lru.

(** [lru_sizes.move_to_end(key)] *)
Definition move_to_end (key : string) (lru : list (string * Z))
  : list (string * Z) :=
  lru_remove key lru ++ filter (fun kz => fst kz = key) lru.

(** A new layer over [next_storage], nothing cached. *)
Definition new_layer (next : N) (max : Z) : layer :=
  {| cache_storage := ∅; next_storage := next; max_cache_size := max;
     lru_sizes := []; dirty_keys := ∅ |}.

(** One eviction: the oldest key leaves the cache; when it is dirty its
    cached value is first persisted to [next_storage]. *)
Definition evict_oldest (self : layer) : layer :=
  match lru_sizes self with
  | [] => self
  | (k, _) :: lru' =>
      let next' :=
        if decide (k ∈ dirty_keys self) then
          match cache_storage self !! k with
          | Some v => sp_set k v (next_storage self)
          | None => next_storage self
          end
        else next_storage self in
      {| cache_storage := delete k (cache_storage self);
         next_storage := next';
         max_cache_size := max_cache_size self;
         lru_sizes := lru';
         dirty_keys := dirty_keys self ∖ {[k]} |}
  end.

(** [_ensure_capacity(need)]: evict while [cache_used + need >
    max_cache_size] and something is cached. Each round removes a key, so
    [fuel], the number of cached keys, bounds the rounds. *)
Fixpoint ensure_capacity_loop (fuel : nat) (need : Z) (self : layer) : layer :=
  match fuel with
  | O => self
  | S fuel' =>
      if (max_cache_size self <? cache_used self + need)
         && negb (bool_decide (lru_sizes self = []))
      then ensure_capacity_loop fuel' need (evict_oldest self)
      else self
  end.

Definition _ensure_capacity (need : Z) (self : layer) : layer :=
  ensure_capacity_loop (length (lru_sizes self)) need self.

(** Insert into [cache_storage] and at the MRU end of [lru_sizes]. *)
Definition insert_mru (key : string) (value : V) (dirty : bool) (self : layer)
  : layer :=
  {| cache_storage := <[key := value]> (cache_storage self);
     next_storage := next_storage self;
     max_cache_size := max_cache_size self;
     lru_sizes := lru_sizes self ++ [(key, size value)];
     dirty_keys := if dirty then dirty_keys self ∪ {[key]}
                   else dirty_keys self |}.

Definition with_lru (lru : list (string * Z)) (self : layer) : layer :=
  {| cache_storage := cache_storage self;
     next_storage := next_storage self;
     max_cache_size := max_cache_size self;
     lru_sizes := lru;
     dirty_keys := dirty_keys self |}.

Definition with_next (next : N) (self : layer) : layer :=
  {| cache_storage := cache_storage self;
     next_storage := next;
     max_cache_size := max_cache_size self;
     lru_sizes := lru_sizes self;
     dirty_keys := dirty_keys self |}.

(** Read path, section 4.2. *)
Definition cache_get (key : string) (self : layer) : result V * layer :=
  if cached self key then
    let self := with_lru (move_to_end key (lru_sizes self)) self in
    match cache_storage self !! key with
    | Some v => (Ok v, self)
    | None => (Raise (KeyError key), self)
    end
  else
    match sp_get key (next_storage self) with
    | (Ok value, next') =>
        let self := with_next next' self in
        let self := _ensure_capacity (size value) self in
        (Ok value, insert_mru key value false self)
    | (Raise e, next') => (Raise e, with_next next' self)
    end.

(** Write path, section 4.2. *)
Definition cache_set (key : string) (value : V) (self : layer) : layer :=
  let self :=
    if cached self key then with_lru (lru_remove key (lru_sizes self)) self
    else self in
  let self := _ensure_capacity (size value) self in
  insert_mru key value true self.

(** Delete, section 4.2: a key that was cached may be missing below. *)
Definition cache_del (key : string) (self : layer) : result unit * layer :=
  let was_cached := cached self key in
  let self1 :=
    if was_cached then
      {| cache_storage := delete key (cache_storage self);
         next_storage := next_storage self;
         max_cache_size := max_cache_size self;
         lru_sizes := lru_remove key (lru_sizes self);
         dirty_keys := dirty_keys self ∖ {[key]} |}
    else self in
  match sp_del key (next_storage self1) with
  | (Ok _, next') => (Ok tt, with_next next' self1)
  | (Raise e, next') =>
      (if was_cached then Ok tt else Raise e, with_next next' self1)
  end.

(** The writes of a flush: every dirty key, with its cached value. *)
Definition write_back (keys : list string) (self : layer) : N :=
  foldl (fun next k =>
           match cache_storage self !! k with
           | Some v => sp_set k v next
           | None => next
           end)
        (next_storage self) keys.

(** Flush, section 4.2; the flush goes on to the layers below. *)
Definition cache_flush (self : layer) : layer :=
  {| cache_storage := cache_storage self;
     next_storage := sp_flush (write_back (elements (dirty_keys self)) self);
     max_cache_size := max_cache_size self;
     lru_sizes := lru_sizes self;
     dirty_keys := ∅ |}.

(** [clear_cache]: flush, then drop every cached entry. *)
Definition clear_cache (self : layer) : layer :=
  let self := cache_flush self in
  {| cache_storage := ∅;
     next_storage := next_storage self;
     max_cache_size := max_cache_size self;
     lru_sizes := [];
     dirty_keys := ∅ |}.

(** The cached entries: those of [cache_storage] whose key is in
    [lru_sizes]. *)
Definition cached_part (self : layer) : gmap string V :=
  filter (fun kv => fst kv ∈ map fst (lru_sizes self)) (cache_storage self).

(** A CacheLayer is itself a storage provider. *)
#[global] Instance CacheProvider : StorageProvider V layer := {
  sp_get := cache_get;
  sp_set := cache_set;
  sp_del := cache_del;
  sp_flush := cache_flush;
  view self := cached_part self ∪ view (next_storage self);
  backing self := backing (next_storage self)
}.

End cache_layer.

(** What the read of [key] returns on a provider whose content is [m]. *)
Definition lookup_result {V} (m : gmap string V) (key : string) : result V :=
  match m !! key with
  | Some v => Ok v
  | None => Raise (KeyError key)
  end.

(** A provider behaves as the dict [view]: on the states that satisfy its
    invariant [ok], a read returns the value of the view and leaves the view
    alone, a write updates the view, and a flush brings the backing store to
    the view. *)
Class Lawful (V S : Type) `{!StorageProvider V S} : Type := {
  ok : S -> Prop;
  get_law : forall key s, ok s ->
    ok (snd (sp_get key s)) /\ view (snd (sp_get key s)) = view s /\
    fst (sp_get key s) = lookup_result (view s) key;
  set_law : forall key v s, ok s ->
    ok (sp_set key v s) /\ view (sp_set key v s) = <[key := v]> (view s);
  flush_law : forall s, ok s ->
    ok (sp_flush s) /\ view (sp_flush s) = view s /\
    backing (sp_flush s) = view s
}.

(** The invariant of a cache layer between two calls, section 3: the keys
    of [lru_sizes] are distinct and cached, the dirty keys are among them,
    and a clean cached value is the value of the layer below. *)
Definition lru_keys {V N} (self : CacheLayer V N) : list string :=
  map fst (lru_sizes self).

Definition layer_ok {V N} `{!StorageProvider V N} (ok_next : N -> Prop)
    (self : CacheLayer V N) : Prop :=
  ok_next (next_storage self) /\
  NoDup (lru_keys self) /\
  (forall k, k ∈ lru_keys self -> is_Some (cache_storage self !! k)) /\
  (forall k, k ∈ dirty_keys self -> k ∈ lru_keys self) /\
  (forall k, k ∈ lru_keys self -> k ∉ dirty_keys self ->
             view (next_storage self) !! k = cache_storage self !! k).

(** The invariant inside a call on [stale]: that key may have left
    [lru_sizes] while its dirty flag is still set. *)
Definition layer_okw {V N} `{!StorageProvider V N} (ok_next : N -> Prop)
    (stale : string) (self : CacheLayer V N) : Prop :=
  ok_next (next_storage self) /\
  NoDup (lru_keys self) /\
  (forall k, k ∈ lru_keys self -> is_Some (cache_storage self !! k)) /\
  (forall k, k ∈ dirty_keys self -> k ∈ lru_keys self \/ k = stale) /\
  (forall k, k ∈ lru_keys self -> k ∉ dirty_keys self ->
             view (next_storage self) !! k = cache_storage self !! k).

(** What the eviction rounds of a call keep: the invariant inside the call,
    the view, and the values that the layer below holds for the keys that
    are not cached. *)
Definition keeps {V N} `{!Sized V} `{!StorageProvider V N} `{!Lawful V N}
    (stale : string) (c c' : CacheLayer V N) : Prop :=
  layer_okw ok stale c' /\ view c' = view c /\
  (forall k, k ∈ lru_keys c' -> k ∈ lru_keys c) /\
  (forall k, k ∉ lru_keys c ->
             view (next_storage c') !! k = view (next_storage c) !! k) /\
  max_cache_size c' = max_cache_size c.

(** The recorded sizes are lengths, so none is negative. *)
Definition sizes_nonneg {V N} (c : CacheLayer V N) : Prop :=
  Forall (fun kz => 0 <= snd kz) (lru_sizes c).

(** A history of calls on a provider. *)
Inductive call (V : Type) : Type :=
  | Get (key : string)
  | Set_ (key : string) (value : V)
  | Flush.
Arguments Get {V} key.
Arguments Set_ {V} key value.
Arguments Flush {V}.

Definition run_call {V S} `{!StorageProvider V S} (s : S) (c : call V) : S :=
  match c with
  | Get key => snd (sp_get key s)
  | Set_ key value => sp_set key value s
  | Flush => sp_flush s
  end.

Definition run_calls {V S} `{!StorageProvider V S} (cs : list (call V)) (s : S)
  : S :=
  foldl run_call s cs.

(** The same history on a dict. *)
Definition dict_call {V} (m : gmap string V) (c : call V) : gmap string V :=
  match c with
  | Set_ key value => <[key := value]> m
  | _ => m
  end.

(** The room a call asks of the caches of a chain, on a provider whose
    content is [m]: a write, the bytes written; a read, the bytes read once
    for each of the two cache layers that may take them in. *)
Definition call_cost {V} `{!Sized V} (m : gmap string V) (c : call V) : Z :=
  match c with
  | Get key =>
      match m !! key with
      | Some v => 2 * size v
      | None => 0
      end
  | Set_ _ value => size value
  | Flush => 0
  end.

Fixpoint calls_cost {V} `{!Sized V} (m : gmap string V) (cs : list (call V))
  : Z :=
  match cs with
  | [] => 0
  | c :: cs' => call_cost m c + calls_cost (dict_call m c) cs'
  end.

(** No value that the history writes or reads has more than [u] bytes. *)
Definition call_within {V} `{!Sized V} (u : Z) (m : gmap string V)
    (c : call V) : Prop :=
  match c with
  | Get key =>
      match m !! key with
      | Some v => size v <= u
      | None => True
      end
  | Set_ _ value => size value <= u
  | Flush => True
  end.

Fixpoint calls_within {V} `{!Sized V} (u : Z) (m : gmap string V)
    (cs : list (call V)) : Prop :=
  match cs with
  | [] => True
  | c :: cs' => call_within u m c /\ calls_within u (dict_call m c) cs'
  end.

(** The history has no [flush]. *)
Definition is_flush {V} (c : call V) : bool :=
  match c with
  | Flush => true
  | _ => false
  end.

(** The entries of [lru_sizes] are distinct, and each records the size of
    the value cached for its key, which is at most [u]. *)
Definition entries_ok {V N} `{!Sized V} (u : Z) (c : CacheLayer V N) : Prop :=
  NoDup (lru_keys c) /\
  forall k z, (k, z) ∈ lru_sizes c ->
    exists v, cache_storage c !! k = Some v /\ z = size v /\ size v <= u.

(** What a chain of two caches over the dict [base] keeps while its caches
    have room: nothing has reached [base]; the two caches together hold at
    most the [C] bytes that the calls so far asked room for; and as soon as
    the lower cache holds a key that is not yet in [base], the upper cache
    was full to within [u] bytes. *)
Definition chain_inv {V} `{!Sized V} (u C : Z) (base : gmap string V)
    (c : CacheLayer V (CacheLayer V (gmap string V))) : Prop :=
  let l := next_storage c in
  entries_ok u c /\ sizes_nonneg l /\ next_storage l = base /\
  cache_used l + cache_used c <= C /\
  (dirty_keys l = ∅ \/ cache_used l + max_cache_size c <= C + u).

(** A provider is what [_get_cache_chain] returns: the provider it was given
    or a chain of cache layers over it. *)
#[global] Instance sum_provider {V A B} `{!StorageProvider V A}
    `{!StorageProvider V B} : StorageProvider V (A + B) := {
  sp_get key s :=
    match s with
    | inl a => let '(r, a') := sp_get key a in (r, inl a')
    | inr b => let '(r, b') := sp_get key b in (r, inr b')
    end;
  sp_set key v s :=
    match s with
    | inl a => inl (sp_set key v a)
    | inr b => inr (sp_set key v b)
    end;
  sp_del key s :=
    match s with
    | inl a => let '(r, a') := sp_del key a in (r, inl a')
    | inr b => let '(r, b') := sp_del key b in (r, inr b')
    end;
  sp_flush s :=
    match s with
    | inl a => inl (sp_flush a)
    | inr b => inr (sp_flush b)
    end;
  view s := match s with inl a => view a | inr b => view b end;
  backing s := match s with inl a => backing a | inr b => backing b end
}.

(** Modelled from the spec: [generate_chain] of hub.util.cache_chain (not in
    src), after sections 2 and 4.2: an LRU memory cache atop an LRU local
    cache atop the base provider. *)
Definition generate_chain {V} `{!Sized V} (base_storage : gmap string V)
    (memory_cache_size_bytes local_cache_size_bytes : Z)
  : CacheLayer V (CacheLayer V (gmap string V)) :=
  new_layer (new_layer base_storage local_cache_size_bytes)
            memory_cache_size_bytes.

(** [len(value)] on bytes. *)
Definition bytes_len (b : list byte) : Z := Z.of_nat (length b).
#[global] Instance bytes_sized : Sized (list byte) := bytes_len.

End Cache.

(** ** Arrays, as the NumPy runtime presents them *)

Module Numpy.

(** A C-contiguous [np.ndarray]: the name of its dtype, its shape and its
    buffer, row by row. [a.tobytes()] is [data a]; the array that
    [np.frombuffer(b, dtype).reshape(shape)] builds has [b] as its [data]. *)
Record ndarray : Type := {
  dtype : string;
  shape : list nat;
  data : list byte
}.

(** [np.dtype(name).itemsize] for the fixed-size numeric dtypes. *)
Definition itemsize (name : string) : option nat :=
  if decide (name ∈ ["bool"; "int8"; "uint8"]%string) then Some 1%nat
  else if decide (name ∈ ["int16"; "uint16"; "float16"]%string) then Some 2%nat
  else if decide (name ∈ ["int32"; "uint32"; "float32"]%string) then Some 4%nat
  else if decide (name ∈ ["int64"; "uint64"; "float64"; "complex64"]%string)
  then Some 8%nat
  else if decide (name = "complex128"%string) then Some 16%nat
  else None.

(** [np.prod(shape)] *)
Definition prod (sh : list nat) : nat := foldr Nat.mul 1%nat sh.

(** The buffer has one item per element. *)
Definition wf_array (a : ndarray) : Prop :=
  exists sz, itemsize (dtype a) = Some sz /\
             length (data a) = (sz * prod (shape a))%nat.

(** [a[i]] for an array with a first axis: the [i]-th block of the buffer. *)
Definition array_at (a : ndarray) (i : nat) : ndarray :=
  let sz := match shape a with
            | n :: _ => (length (data a) / n)%nat
            | [] => 0%nat
            end in
  {| dtype := dtype a; shape := tail (shape a);
     data := take sz (drop (i * sz) (data a)) |}.

(** [np.expand_dims(a, 0)] *)
Definition expand_dims0 (a : ndarray) : ndarray :=
  {| dtype := dtype a; shape := 1%nat :: shape a; data := data a |}.

(** [np.frombuffer(b, dtype).reshape(shape)]: [ValueError] unless the buffer
    holds exactly the items of the shape, [TypeError] on an unknown dtype. *)
Definition frombuffer_reshape (b : list byte) (dt : string) (sh : list nat)
  : result ndarray :=
  match itemsize dt with
  | None => Raise (Exception "data type not understood")
  | Some sz =>
      if decide (length b = (sz * prod sh)%nat)
      then Ok {| dtype := dt; shape := sh; data := b |}
      else Raise (ValueError "cannot reshape array")
  end.

(** [np.stack(arrays)]: a new first axis over arrays of one dtype and
    shape; [ValueError] on an empty list or on differing shapes. *)
Definition stack (arrays : list ndarray) : result ndarray :=
  match arrays with
  | [] => Raise (ValueError "need at least one array to stack")
  | a :: _ =>
      if forallb (fun b => bool_decide (shape b = shape a /\ dtype b = dtype a))
                 arrays
      then Ok {| dtype := dtype a; shape := length arrays :: shape a;
                 data := concat (map data arrays) |}
      else Raise (ValueError "all input arrays must have the same shape")
  end.

(** [np.array(samples)] on a list of arrays: the stacked array when they
    agree in shape, the empty [float64] vector on the empty list. On
    differing shapes NumPy raises [ValueError] (or, in old versions, builds
    an array of objects). *)
Definition array_of_list (samples : list ndarray) : result ndarray :=
  match samples with
  | [] => Ok {| dtype := "float64"; shape := [0%nat]; data := [] |}
  | _ => stack samples
  end.

End Numpy.

(** ** hub/core/tensor.py *)

Module TensorCore.
Import Numpy.

(** The tensor meta, a dict with these keys. *)
Record tensor_meta : Type := {
  tm_dtype : string;
  tm_length : Z;
  tm_min_shape : list nat;
  tm_max_shape : list nat;
  tm_chunk_size : nat
}.

Definition set_length (m : tensor_meta) (n : Z) : tensor_meta :=
  {| tm_dtype := tm_dtype m; tm_length := n; tm_min_shape := tm_min_shape m;
     tm_max_shape := tm_max_shape m; tm_chunk_size := tm_chunk_size m |}.

(** An entry of the index map, one per sample. *)
Record index_entry : Type := {
  start_chunk : Z;
  end_chunk : Z;
  start_byte : nat;
  end_byte : nat;
  ie_shape : list nat
}.

(** What a storage provider holds under a key, deserialized. *)
Inductive obj : Type :=
  | OBytes (b : list byte)
  | OTensorMeta (m : tensor_meta)
  | OIndexMap (entries : list index_entry)
  | ODatasetMeta (tensors : list string).

(** A storage provider as the engine sees it: a mutable mapping. *)
Abbreviation storage := (gmap string obj).

(** Code that reads and writes the storage and may raise; the storage that
    comes back is the one at the point where the call is left. *)
Definition M (A : Type) : Type := storage -> result A * storage.

Definition ret {A} (a : A) : M A := fun st => (Ok a, st).
Definition raise {A} (e : exn) : M A := fun st => (Raise e, st).
Definition lift {A} (r : result A) : M A := fun st => (r, st).
Definition bindM {A B} (m : M A) (k : A -> M B) : M B := fun st =>
  match m st with
  | (Ok a, st') => k a st'
  | (Raise e, st') => (Raise e, st')
  end.
Definition reads {A} (f : storage -> A) : M A := fun st => (Ok (f st), st).
Definition writes (f : storage -> storage) : M unit := fun st => (Ok tt, f st).

Notation "'let*' x ':=' m 'in' k" := (bindM m (fun x => k))
  (at level 10, x pattern, m at level 100, k at level 200).
Notation "m ';;;' k" := (bindM m (fun _ => k))
  (at level 100, k at level 200, right associativity).

(** [for x in xs: body x] *)
Fixpoint for_each {A} (xs : list A) (body : A -> M unit) : M unit :=
  match xs with
  | [] => ret tt
  | x :: xs' => body x ;;; for_each xs' body
  end.

(** *** Keys *)

(** Modelled from the spec: the key helpers of hub.util.keys, which are not
    in src, after the storage layout of section 6:
    [<tensor>/tensor_meta.json], [<tensor>/index_map] and
    [<tensor>/chunks/<chunk_id_hex>]. *)
Definition get_tensor_meta_key (key : string) : string :=
  (key ++ "/tensor_meta.json")%string.
Definition get_index_map_key (key : string) : string :=
  (key ++ "/index_map")%string.
Definition get_chunk_key (key chunk_name : string) : string :=
  (key ++ "/chunks/" ++ chunk_name)%string.

(** Modelled from the spec: the identifier of the chunk with ordinal [i].
    The source draws it from [uuid4]; the model numbers the chunks in the
    order of their creation, one of the sequences of distinct identifiers,
    and renders it with [_chunk_name_from_id]. *)
Definition chunk_key (key : string) (i : nat) : string :=
  get_chunk_key key (ChunkName._chunk_name_from_id (N.of_nat i)).

(** *** Tensor meta *)

(** Modelled from the spec: [read_tensor_meta] and [write_tensor_meta] of
    hub.core.meta.tensor_meta (not in src) load and store the meta under
    the tensor meta key. *)
Definition read_tensor_meta (key : string) : M tensor_meta := fun st =>
  match st !! get_tensor_meta_key key with
  | Some (OTensorMeta m) => (Ok m, st)
  | Some _ => (Raise (ValueError "not a tensor meta"), st)
  | None => (Raise (KeyError (get_tensor_meta_key key)), st)
  end.

Definition write_tensor_meta (key : string) (m : tensor_meta) : M unit :=
  writes (fun st => <[get_tensor_meta_key key := OTensorMeta m]> st).

Definition tensor_exists (key : string) (st : storage) : bool :=
  bool_decide (is_Some (st !! get_tensor_meta_key key)).

(** [create_tensor(key, storage, meta)]; [validate_tensor_meta] is not in
    src and is taken as an argument. *)
Definition create_tensor (validate_tensor_meta : tensor_meta -> result unit)
    (key : string) (meta : tensor_meta) : M unit :=
  let* exists_ := reads (tensor_exists key) in
  if (exists_ : bool) then raise (TensorAlreadyExistsError key)
  else
    let meta := set_length meta 0 in
    lift (validate_tensor_meta meta) ;;;
    write_tensor_meta key meta.

Definition _check_array_and_tensor_are_compatible (tensor_meta : tensor_meta)
    (array : ndarray) : result unit :=
  if negb (String.eqb (tm_dtype tensor_meta) (dtype array)) then
    Raise (TensorMetaMismatchError "dtype"
             (PStr (tm_dtype tensor_meta)) (PStr (dtype array)))
  else
    let sample_shape := tail (shape array) in
    if negb (length (tm_min_shape tensor_meta) =? length sample_shape)%nat then
      Raise (TensorMetaMismatchError "min_shape"
               (PShape (tm_min_shape tensor_meta))
               (PInt (Z.of_nat (length sample_shape))))
    else if negb (length (tm_max_shape tensor_meta) =? length sample_shape)%nat
    then
      Raise (TensorMetaMismatchError "max_shape"
               (PShape (tm_max_shape tensor_meta))
               (PInt (Z.of_nat (length sample_shape))))
    else if negb (bool_decide (tm_max_shape tensor_meta = sample_shape)) then
      Raise (NotImplementedError "Dynamic shapes are not supported yet.")
    else if negb (bool_decide (tm_min_shape tensor_meta = sample_shape)) then
      Raise (NotImplementedError "Dynamic shapes are not supported yet.")
    else Ok tt.

(** *** The index map and the chunk engine *)

(** Modelled from the spec: [IndexMap(key, storage)] of
    hub.core.meta.index_map (not in src), the per-tensor list of entries
    persisted under the index map key; a tensor without samples has none. *)
Definition IndexMap (key : string) (st : storage) : list index_entry :=
  match st !! get_index_map_key key with
  | Some (OIndexMap entries) => entries
  | _ => []
  end.

(** The ordinal of the current final chunk, [-1] when there is no chunk. *)
Definition last_chunk_index (index_map : list index_entry) : Z :=
  match last index_map with
  | Some e => end_chunk e
  | None => -1
  end.

Definition read_chunk (key : string) (i : nat) (st : storage)
  : result (list byte) :=
  match st !! chunk_key key i with
  | Some (OBytes b) => Ok b
  | Some _ => Raise (ValueError "not a chunk")
  | None => Raise (KeyError (chunk_key key i))
  end.

(** The current final chunk, when it exists and is not yet full. *)
Definition open_last_chunk (key : string) (chunk_size : nat)
    (index_map : list index_entry) (st : storage) : option (list byte) :=
  let last_idx := last_chunk_index index_map in
  if last_idx <? 0 then None
  else match read_chunk key (Z.to_nat last_idx) st with
       | Ok c => if (length c <? chunk_size)%nat then Some c else None
       | Raise _ => None
       end.

(** [buf] cut into pieces of [chunk_size] bytes, the last one possibly
    shorter: [ceil(len(buf) / chunk_size)] pieces. *)
Fixpoint split_chunks (fuel : nat) (chunk_size : nat) (buf : list byte)
  : list (list byte) :=
  match fuel, buf with
  | S fuel', _ :: _ =>
      take chunk_size buf :: split_chunks fuel' chunk_size (drop chunk_size buf)
  | _, _ => []
  end.

(** The chunks [new] stored as the chunks [first], [first + 1], ... *)
Fixpoint store_chunks (key : string) (first : nat) (new : list (list byte))
    (st : storage) : storage :=
  match new with
  | [] => st
  | c :: new' =>
      store_chunks key (S first) new' (<[chunk_key key first := OBytes c]> st)
  end.

(** Modelled from the spec: [write_bytes] of hub.core.chunk_engine.write
    (not in src), section 4.3. The buffer goes into the current final chunk
    when it fits in what remains of it; otherwise it fills that chunk and
    continues in new chunks. One entry is added to the index map. Where the
    spec is silent: a buffer that finds no open final chunk starts at byte 0
    of the first new chunk, and an empty one then occupies no chunk (its
    entry has [end_chunk = start_chunk - 1]). *)
Definition write_bytes (buf : list byte) (key : string) (chunk_size : nat)
    (sample_shape : list nat) : M unit := fun st =>
  let index_map := IndexMap key st in
  let last_idx := last_chunk_index index_map in
  let last_chunk := open_last_chunk key chunk_size index_map st in
  let used := from_option length 0%nat last_chunk in
  let remaining := from_option (fun c => chunk_size - length c)%nat 0%nat last_chunk in
  let '(entry, st') :=
    match last_chunk with
    | Some c =>
        if (length buf <=? remaining)%nat then
          ({| start_chunk := last_idx; end_chunk := last_idx;
              start_byte := used; end_byte := (used + length buf)%nat;
              ie_shape := sample_shape |},
           <[chunk_key key (Z.to_nat last_idx) := OBytes (c ++ buf)]> st)
        else
          let new := split_chunks (length buf) chunk_size (drop remaining buf) in
          ({| start_chunk := last_idx;
              end_chunk := last_idx + Z.of_nat (length new);
              start_byte := used;
              end_byte := from_option length 0%nat (last new);
              ie_shape := sample_shape |},
           store_chunks key (Z.to_nat (last_idx + 1)) new
             (<[chunk_key key (Z.to_nat last_idx) :=
                  OBytes (c ++ take remaining buf)]> st))
    | None =>
        let new := split_chunks (length buf) chunk_size buf in
        ({| start_chunk := last_idx + 1;
            end_chunk := last_idx + Z.of_nat (length new);
            start_byte := 0%nat;
            end_byte := from_option length 0%nat (last new);
            ie_shape := sample_shape |},
         store_chunks key (Z.to_nat (last_idx + 1)) new st)
    end in
  (Ok tt, <[get_index_map_key key := OIndexMap (index_map ++ [entry])]> st').

(** [storage.get_bytes(key, offset, length)], section 4.1: [OutOfRange]
    when the range ends past the value. *)
Definition get_bytes (b : list byte) (offset len : nat) : result (list byte) :=
  if (offset + len <=? length b)%nat then Ok (take len (drop offset b))
  else Raise (IndexError "OutOfRange").

(** The full bytes of the chunks [first], ..., [first + count - 1], read
    with [read]. *)
Fixpoint read_full_chunks (read : nat -> result (list byte))
    (first count : nat) : result (list byte) :=
  match count with
  | O => Ok []
  | S count' =>
      c ← read first;
      rest ← read_full_chunks read (S first) count';
      Ok (c ++ rest)
  end.

(** The bytes of the sample of an entry, section 4.3. One chunk: the byte
    range of the entry. Several chunks: the first from [start_byte] on, the
    intermediate ones in full, the last up to [end_byte]. An entry without
    chunk is the empty buffer. *)
Definition entry_bytes (read : nat -> result (list byte))
    (entry : index_entry) : result (list byte) :=
  if end_chunk entry <? start_chunk entry then Ok []
  else if start_chunk entry <? 0 then Raise (KeyError "chunk")
  else
    let first := Z.to_nat (start_chunk entry) in
    let final := Z.to_nat (end_chunk entry) in
    if (first =? final)%nat then
      c ← read first;
      get_bytes c (start_byte entry) (end_byte entry - start_byte entry)
    else
      c ← read first;
      mid ← read_full_chunks read (S first) (final - first - 1);
      d ← read final;
      tl_ ← get_bytes d 0 (end_byte entry);
      Ok (drop (start_byte entry) c ++ mid ++ tl_).

(** Modelled from the spec: [sample_from_index_entry] of
    hub.core.chunk_engine.read (the read.py in src is an older reader),
    section 4.3: the bytes of the entry, read from the chunks in the
    storage, seen as an array of the dtype and of the shape of the entry. *)
Definition sample_from_index_entry (key : string) (st : storage)
    (entry : index_entry) (dt : string) : result ndarray :=
  buf ← entry_bytes (fun i => read_chunk key i st) entry;
  frombuffer_reshape buf dt (ie_shape entry).

(** *** Indices over the samples *)

(** Modelled from the spec: the [Index] of hub.util.index (not in src), as
    far as [read_samples_from_tensor] uses it: its [item] is an integer or a
    half-open slice of sample positions, [Index()] is the slice of
    everything. Negative positions and steps are left out. *)
Inductive index_item : Type :=
  | ItemInt (i : nat)
  | ItemSlice (start stop : option nat).

Record Index : Type := { item : index_item }.

(** [Index()] *)
Definition Index_all : Index := {| item := ItemSlice None None |}.

Definition to_slice (index : Index) : option nat * option nat :=
  match item index with
  | ItemInt i => (Some i, Some (S i))
  | ItemSlice start stop => (start, stop)
  end.

(** [l[start:stop]] *)
Definition py_slice {A} (l : list A) (sl : option nat * option nat) : list A :=
  let start := default 0%nat (fst sl) in
  let stop := default (length l) (snd sl) in
  take (stop - start) (drop start l).

(** *** Appending and reading samples *)

(** Modelled from the spec: [normalize_and_batchify_shape] of hub.util.array
    (not in src), after the docstring of [add_samples_to_tensor]: without
    [batched], a new first axis of size 1 is created. *)
Definition normalize_and_batchify_shape (array : ndarray) (batched : bool)
  : ndarray :=
  if batched then array else expand_dims0 array.

(** [row_wise_to_bytes(sample)] of hub.core.flatten: the buffer, row by row. *)
Definition row_wise_to_bytes (sample : ndarray) : list byte := data sample.

Definition add_samples_to_tensor (array : ndarray) (key : string)
    (batched : bool) : M unit :=
  let array := normalize_and_batchify_shape array batched in
  let* exists_ := reads (tensor_exists key) in
  if negb exists_ then raise (TensorDoesNotExistError key)
  else
    let* tensor_meta := read_tensor_meta key in
    lift (_check_array_and_tensor_are_compatible tensor_meta array) ;;;
    let tobytes := row_wise_to_bytes in
    let* array_length :=
      lift (match shape array with
            | n :: _ => Ok n
            | [] => Raise (IndexError "tuple index out of range")
            end) in
    for_each (seq 0 array_length) (fun i =>
      let sample := array_at array i in
      let b := tobytes sample in
      write_bytes b key (tm_chunk_size tensor_meta) (shape sample)) ;;;
    let tensor_meta :=
      set_length tensor_meta (tm_length tensor_meta + Z.of_nat array_length) in
    write_tensor_meta key tensor_meta.

(** [samples.append(...)] over the selected entries, in order. *)
Fixpoint read_entries (key : string) (st : storage) (dt : string)
    (entries : list index_entry) : result (list ndarray) :=
  match entries with
  | [] => Ok []
  | index_entry :: entries' =>
      array ← sample_from_index_entry key st index_entry dt;
      samples ← read_entries key st dt entries';
      Ok (array :: samples)
  end.

Definition read_samples_from_tensor (key : string) (index : Index)
  : M ndarray :=
  let* meta := read_tensor_meta key in
  let* index_map := reads (IndexMap key) in
  let* st := reads id in
  let* samples :=
    lift (read_entries key st (tm_dtype meta)
            (py_slice index_map (to_slice index))) in
  match item index with
  | ItemInt _ =>
      match samples with
      | sample :: _ => ret sample
      | [] => raise (IndexError "list index out of range")
      end
  | ItemSlice _ _ => lift (array_of_list samples)
  end.

(** *** The chunks of a tensor, as a list *)

(** Chunk [i] of the list. *)
Definition nth_chunk (chunks : list (list byte)) (i : nat)
  : result (list byte) :=
  match chunks !! i with
  | Some c => Ok c
  | None => Raise (KeyError "chunk")
  end.

(** The storage holds the chunks of the list under their keys. *)
Definition chunks_in (key : string) (st : storage)
    (chunks : list (list byte)) : Prop :=
  forall i c, chunks !! i = Some c -> st !! chunk_key key i = Some (OBytes c).

(** From [chunks] to [chunks']: chunks are added, the last one may grow, the
    others stay. *)
Definition chunks_extend (chunks chunks' : list (list byte)) : Prop :=
  forall i c, chunks !! i = Some c ->
    exists c', chunks' !! i = Some c' /\
               (exists more, c' = c ++ more) /\
               ((S i < length chunks)%nat -> c' = c).

(** What [write_bytes] does to the list of chunks, and the entry it adds. *)
Definition write_chunks (chunk_size : nat) (chunks : list (list byte))
    (buf : list byte) (sample_shape : list nat)
  : list (list byte) * index_entry :=
  let last_idx := Z.of_nat (length chunks) - 1 in
  let fresh :=
    let new := split_chunks (length buf) chunk_size buf in
    (chunks ++ new,
     {| start_chunk := last_idx + 1;
        end_chunk := last_idx + Z.of_nat (length new);
        start_byte := 0%nat;
        end_byte := from_option length 0%nat (last new);
        ie_shape := sample_shape |}) in
  match last chunks with
  | Some c =>
      if (length c <? chunk_size)%nat then
        let remaining := (chunk_size - length c)%nat in
        if (length buf <=? remaining)%nat then
          (ChunkName.set_last chunks (c ++ buf),
           {| start_chunk := last_idx; end_chunk := last_idx;
              start_byte := length c; end_byte := (length c + length buf)%nat;
              ie_shape := sample_shape |})
        else
          let new :=
            split_chunks (length buf) chunk_size (drop remaining buf) in
          (ChunkName.set_last chunks (c ++ take remaining buf) ++ new,
           {| start_chunk := last_idx;
              end_chunk := last_idx + Z.of_nat (length new);
              start_byte := length c;
              end_byte := from_option length 0%nat (last new);
              ie_shape := sample_shape |})
      else fresh
  | None => fresh
  end.

(** The storage holds the tensor with the chunks [chunks] and the samples
    [samples]: the index map has one entry per sample, whose bytes in the
    chunks are those of the sample, and the chunks are in the storage. *)
Definition tensor_inv (key : string) (st : storage)
    (chunks : list (list byte)) (samples : list ndarray) : Prop :=
  chunks_in key st chunks /\
  last_chunk_index (IndexMap key st) = Z.of_nat (length chunks) - 1 /\
  Forall2 (fun e a => entry_bytes (nth_chunk chunks) e = Ok (data a) /\
                      ie_shape e = shape a)
          (IndexMap key st) samples.

End TensorCore.

(** ** hub/api/tensor.py *)

Module Tensor.
Import Numpy TensorCore.

(** A tensor façade: its key and its index. The storage it borrows from its
    dataset is passed to its methods. *)
Record Tensor : Type := {
  key : string;
  index : Index
}.

(** [Tensor(key, storage, index)] *)
Definition __init__ (key : string) (index : option Index) : M Tensor :=
  let self := {| key := key; index := default Index_all index |} in
  let* exists_ := reads (tensor_exists key) in
  if negb exists_ then raise (TensorDoesNotExistError key) else ret self.

(** Modelled from the spec: [self.meta] is
    [TensorMeta.load(self.key, self.storage)], of a class that is not in
    src; after section 3 it is the persisted meta of the tensor, which
    [read_tensor_meta] reads. *)
Definition meta (self : Tensor) : M tensor_meta := read_tensor_meta (key self).

(** [self.shape]: the pair [(lower, upper)] of [Shape(min_shape, max_shape)]. *)
Definition shape (self : Tensor) : M (list nat * list nat) :=
  let* m := meta self in ret (tm_min_shape m, tm_max_shape m).

Definition __len__ (self : Tensor) : M Z :=
  let* m := meta self in ret (tm_length m).

(** Modelled from the spec: [self.append(array)] calls [append_tensor] of
    hub.core.tensor, which the hub/core/tensor.py of src does not define.
    After section 4.4 the array is one sample and is added as a batch of
    one: [add_samples_to_tensor] of src with [batched=False]. *)
Definition append (self : Tensor) (array : ndarray) : M unit :=
  add_samples_to_tensor array (key self) false.

(** Modelled from the spec: [self.extend(array)] on an [np.ndarray] calls
    [extend_tensor] of hub.core.tensor, which the hub/core/tensor.py of src
    does not define. After section 4.4 the first axis is the batch axis:
    [add_samples_to_tensor] of src with [batched=True]. *)
Definition extend (self : Tensor) (array : ndarray) : M unit :=
  add_samples_to_tensor array (key self) true.

(** [self.extend(arrays)] on a sequence: one [append] per element. *)
Definition extend_seq (self : Tensor) (arrays : list ndarray) : M unit :=
  for_each arrays (append self).

(** Modelled from the spec: [self.numpy()] passes [aslist], which
    [read_samples_from_tensor] of src does not take. With the default
    [aslist=False] section 4.4 asks for one array of the samples selected,
    which is what [read_samples_from_tensor] of src returns. *)
Definition numpy (self : Tensor) : M ndarray :=
  read_samples_from_tensor (key self) (index self).

End Tensor.

(** ** hub/api/dataset.py *)

Module Dataset.
Import Numpy TensorCore.

(** The built-in [len(x)]: [x.__len__()] must not be negative. *)
Definition py_len (n : Z) : result Z :=
  if n <? 0 then Raise (ValueError "__len__() should return >= 0") else Ok n.

(** [min(xs, default=d)] *)
Definition py_min (xs : list Z) (d : Z) : Z :=
  match xs with
  | [] => d
  | x :: xs' => foldl Z.min x xs'
  end.

(** [self.tensors] is a dict: names with their façades, in insertion order. *)
Record Dataset : Type := {
  mode : string;
  index : Index;
  path : string;
  tensors : list (string * Tensor.Tensor);
  meta_tensors : list string
}.

(** [map(len, self.tensors.values())], consumed from left to right. *)
Fixpoint lens (ts : list Tensor.Tensor) : M (list Z) :=
  match ts with
  | [] => ret []
  | t :: ts' =>
      let* n := Tensor.__len__ t in
      let* n := lift (py_len n) in
      let* ns := lens ts' in
      ret (n :: ns)
  end.

Definition __len__ (self : Dataset) : M Z :=
  let* ns := lens (map snd (tensors self)) in
  ret (py_min ns 0).

Definition keys (self : Dataset) : list string := map fst (tensors self).

(** *** hub/core/meta/dataset_meta.py *)

(** Modelled from the spec: [get_dataset_meta_key] of hub.util.keys (not in
    src), the key of section 6. *)
Definition get_dataset_meta_key : string := "dataset_meta.json".

Definition write_dataset_meta (meta : list string) : M unit :=
  writes (fun st => <[get_dataset_meta_key := ODatasetMeta meta]> st).

Definition read_dataset_meta : M (list string) := fun st =>
  match st !! get_dataset_meta_key with
  | Some (ODatasetMeta tensors) => (Ok tensors, st)
  | Some _ => (Raise (ValueError "not a dataset meta"), st)
  | None => (Raise (KeyError get_dataset_meta_key), st)
  end.

(** Modelled from the spec: [dataset_exists] of hub.core.dataset (not in
    src): the dataset meta is in the storage. *)
Definition dataset_exists (st : storage) : bool :=
  bool_decide (is_Some (st !! get_dataset_meta_key)).

(** *** Opening a dataset *)

(** A provider that a dataset is given or resolves from its path: an
    in-memory one, or one of the others (local files, an object store). *)
Record base_provider : Type := {
  is_memory_provider : bool;
  content : storage
}.

(** [_get_cache_chain(path, storage, memory_cache_size, local_cache_size)]:
    a [MemoryProvider] is returned as it is, without any cache; otherwise a
    chain is generated over [storage or storage_provider_from_path(path)],
    where an empty provider, whose [len] is 0, counts as false.
    [storage_provider_from_path] of hub.util.path and the constant [MB] of
    hub.constants are not in src and are taken as arguments. *)
Definition _get_cache_chain `{!Cache.Sized obj}
    (storage_provider_from_path : string -> base_provider) (MB : Z)
    (path : string) (storage : option base_provider)
    (memory_cache_size local_cache_size : Z)
  : gmap string obj +
    Cache.CacheLayer obj (Cache.CacheLayer obj (gmap string obj)) :=
  match storage with
  | Some s =>
      if is_memory_provider s then inl (content s)
      else
        let base_storage :=
          if bool_decide (content s = ∅)
          then storage_provider_from_path path else s in
        inr (Cache.generate_chain (content base_storage)
               (memory_cache_size * MB) (local_cache_size * MB))
  | None =>
      let base_storage := storage_provider_from_path path in
      inr (Cache.generate_chain (content base_storage)
             (memory_cache_size * MB) (local_cache_size * MB))
  end.

(** [self.tensors[name] = Tensor(name, self.storage)] for each name. *)
Fixpoint load_tensors (names : list string)
  : M (list (string * Tensor.Tensor)) :=
  match names with
  | [] => ret []
  | tensor_name :: names' =>
      let* t := Tensor.__init__ tensor_name None in
      let* ts := load_tensors names' in
      ret ((tensor_name, t) :: ts)
  end.

(** [Dataset(path, mode, index, ...)] once its storage is set up: what the
    constructor reads from and writes to the storage. [DatasetMeta.load] and
    [DatasetMeta.create] are [read_dataset_meta] and [write_dataset_meta]
    on a new, empty meta. *)
Definition __init__ (path mode : string) (index : Index) : M Dataset :=
  let* exists_ := reads dataset_exists in
  if (exists_ : bool) then
    let* meta := read_dataset_meta in
    let* tensors := load_tensors meta in
    ret {| mode := mode; index := index; path := path;
           tensors := tensors; meta_tensors := meta |}
  else
    write_dataset_meta [] ;;;
    ret {| mode := mode; index := index; path := path;
           tensors := []; meta_tensors := [] |}.

(** Modelled from the spec: [self.create_tensor(name, htype, **kwargs)]
    passes [htype] and the keyword arguments to [create_tensor] of
    hub.core.tensor, while the [create_tensor] of src takes the meta itself;
    hub.htypes, which turns an htype into the defaults of a meta, and the
    class [DatasetMeta] behind [self.meta.tensors.append] are not in src.
    After section 4.4 the call fails when the tensor exists, writes the
    meta that the htype and the options give, with length 0, and records
    the name in the dataset meta: here the resolved meta is an argument,
    and the list of names is written to the storage. *)
Definition create_tensor (validate_tensor_meta : tensor_meta -> result unit)
    (self : Dataset) (name : string) (meta : tensor_meta)
  : M (Dataset * Tensor.Tensor) :=
  let* exists_ := reads (tensor_exists name) in
  if (exists_ : bool) then raise (TensorAlreadyExistsError name)
  else
    TensorCore.create_tensor validate_tensor_meta name meta ;;;
    let* tensor := Tensor.__init__ name None in
    let self' := {| mode := mode self; index := index self; path := path self;
                    tensors := tensors self ++ [(name, tensor)];
                    meta_tensors := meta_tensors self ++ [name] |} in
    write_dataset_meta (meta_tensors self') ;;;
    ret (self', tensor).

(** [self.flush()] is [self.storage.flush()]. *)
Definition flush {S} `{!Cache.StorageProvider obj S} (storage : S) : S :=
  Cache.sp_flush storage.

(** What [len(Dataset(path))] returns for a dataset opened on a provider
    whose view is [st]. *)
Definition opened_len (st : storage) : result Z :=
  fst ((let* ds := __init__ "" "a" Index_all in __len__ ds) st).

End Dataset.

(** ** hub/core/chunk_engine/read.py *)

Module ChunkRead.
Import Numpy TensorCore.

(** [os.path.join(a, b)] on POSIX: a [b] that starts with a slash replaces
    [a]; otherwise [b] follows [a], after a slash unless [a] is empty or
    ends with one. *)
Fixpoint ends_with_slash (s : string) : bool :=
  match s with
  | EmptyString => false
  | String c EmptyString => Ascii.eqb c "/"
  | String _ s' => ends_with_slash s'
  end.

Definition path_join (a b : string) : string :=
  match b with
  | String "/" _ => b
  | _ =>
      match a with
      | EmptyString => b
      | _ => if ends_with_slash a then (a ++ b)%string
             else (a ++ "/" ++ b)%string
      end
  end.

(** ["c%i" % chunk_index] *)
Definition chunk_file (chunk_index : Z) : string :=
  ("c" ++ NilZero.string_of_int (Z.to_int chunk_index))%string.

(** [range(a, b)] *)
Definition py_range (a b : Z) : list Z :=
  map (fun i => a + Z.of_nat i) (seq 0 (Z.to_nat (b - a))).

(** [storage[key]] on the dict of a [MemoryProvider]. *)
Definition getitem (key : string) (st : storage) : result obj :=
  match st !! key with
  | Some o => Ok o
  | None => Raise (KeyError key)
  end.

(** [pickle.loads] of a stored value: the storage of the model keeps the
    pickled objects deserialized, so loading selects the kind of object the
    caller goes on to use; the index map is a list of entries with the keys
    [start_chunk], [end_chunk] and [shape], the meta has the keys [dtype]
    and [length]. An object of another kind fails where the caller first
    uses it. *)
Definition loads_index_map (o : obj) : result (list index_entry) :=
  match o with
  | OIndexMap entries => Ok entries
  | _ => Raise (Exception "TypeError: not an index map")
  end.

Definition loads_meta (o : obj) : result tensor_meta :=
  match o with
  | OTensorMeta m => Ok m
  | _ => Raise (Exception "TypeError: not a meta")
  end.

(** [read_from_storage(key, storage)]; the value goes to the decompressor,
    which takes bytes. *)
Definition read_from_storage (key : string) (st : storage)
  : result (list byte) :=
  o ← getitem key st;
  match o with
  | OBytes b => Ok b
  | _ => Raise (Exception "TypeError: a bytes-like object is required")
  end.

(** [l[i]] for [0 <= i] on a list. *)
Definition list_getitem {A} (l : list A) (i : Z) : result A :=
  match l !! Z.to_nat i with
  | Some x => Ok x
  | None => Raise (IndexError "list index out of range")
  end.

(** [np.frombuffer(b, dtype=dtype)]: a vector of the items of the buffer. *)
Definition np_frombuffer (b : list byte) (dt : string) : result ndarray :=
  match itemsize dt with
  | None => Raise (Exception "TypeError: data type not understood")
  | Some sz =>
      if (length b mod sz =? 0)%nat
      then Ok {| dtype := dt; shape := [(length b / sz)%nat]; data := b |}
      else Raise (ValueError "buffer size must be a multiple of element size")
  end.

(** [a.reshape(shape)] *)
Definition np_reshape (a : ndarray) (sh : list nat) : result ndarray :=
  if (prod sh =? prod (shape a))%nat
  then Ok {| dtype := dtype a; shape := sh; data := data a |}
  else Raise (ValueError "cannot reshape array")%string.

(** [np.array(samples, dtype=dtype)] on arrays of the dtype that agree in
    shape; the empty vector of the dtype on the empty list. *)
Definition np_array (samples : list ndarray) (dt : string) : result ndarray :=
  match samples with
  | [] => Ok {| dtype := dt; shape := [0%nat]; data := [] |}
  | _ => stack samples
  end.

Section read.
Variable key : string.
Variable decompressor : list byte -> result (list byte).
Variable st : storage.

(** The inner loop: [b.extend(decompressor(chunk))] for each chunk index. *)
Fixpoint read_chunks (chunk_indices : list Z) (b : list byte)
  : result (list byte) :=
  match chunk_indices with
  | [] => Ok b
  | chunk_index :: rest =>
      let chunk_key := path_join key (chunk_file chunk_index) in
      chunk ← read_from_storage chunk_key st;
      decompressed_chunk ← decompressor chunk;
      read_chunks rest (b ++ decompressed_chunk)
  end.

(** The variables that the outer loop updates. *)
Record loop_state : Type := {
  samples : list ndarray;
  all_same_shape : bool;
  last_shape : option (list nat)
}.

(** One iteration of [for index in range(length)]. *)
Definition read_sample (dt : string) (index_map : list index_entry)
    (s : loop_state) (index : Z) : result loop_state :=
  index_entry ← list_getitem index_map index;
  let shape := ie_shape index_entry in
  let all_same :=
    match last_shape s with
    | Some l => if decide (l = shape) then all_same_shape s else false
    | None => all_same_shape s
    end in
  b ← read_chunks
         (py_range (start_chunk index_entry) (end_chunk index_entry + 1)) [];
  a ← np_frombuffer b dt;
  a' ← np_reshape a shape;
  Ok {| samples := samples s ++ [a']; all_same_shape := all_same;
        last_shape := Some shape |}.

Fixpoint read_loop (dt : string) (index_map : list index_entry)
    (indices : list Z) (s : loop_state) : result loop_state :=
  match indices with
  | [] => Ok s
  | index :: rest =>
      s' ← read_sample dt index_map s index;
      read_loop dt index_map rest s'
  end.

(** [read(key, decompressor, storage)]: one array when all samples have the
    same shape, the list of the samples otherwise. *)
Definition read : result (ndarray + list ndarray) :=
  let index_map_key := path_join key "index_map" in
  o ← getitem index_map_key st;
  index_map ← loads_index_map o;
  let meta_key := path_join key "meta.json" in
  o ← getitem meta_key st;
  meta ← loads_meta o;
  let dt := tm_dtype meta in
  let length := tm_length meta in
  s ← read_loop dt index_map (py_range 0 length)
         {| samples := []; all_same_shape := true; last_shape := None |};
  if all_same_shape s then inl <$> np_array (samples s) dt
  else Ok (inr (samples s)).

End read.

(** The chunks [chunks] are stored as [c<first>], [c<first + 1>], ... under
    the key. *)
Definition chunks_at (key : string) (st : storage) (first : Z)
    (chunks : list (list byte)) : Prop :=
  forall i c, chunks !! i = Some c ->
    st !! path_join key (chunk_file (first + Z.of_nat i)) = Some (OBytes c).

(** The storage holds the sample [a] for the entry: the entry has the shape
    of [a], and the chunks [start_chunk], ..., [end_chunk] of the entry are
    stored and decompress to pieces that, put together, are the buffer of
    [a]. *)
Definition sample_stored (key : string)
    (decompressor : list byte -> result (list byte)) (st : storage)
    (dt : string) (index_entry : index_entry) (a : ndarray) : Prop :=
  wf_array a /\ dtype a = dt /\ ie_shape index_entry = shape a /\
  exists chunks pieces,
    chunks_at key st (start_chunk index_entry) chunks /\
    end_chunk index_entry
      = start_chunk index_entry + Z.of_nat (length chunks) - 1 /\
    Forall2 (fun c d => decompressor c = Ok d) chunks pieces /\
    concat pieces = data a.

(** What [read] returns for the samples: the stacked array when they all
    have the shape of the first one (the empty vector when there is none),
    the list otherwise. *)
Definition stacked_or_list (dt : string) (samples : list ndarray)
  : ndarray + list ndarray :=
  match samples with
  | [] => inl {| dtype := dt; shape := [0%nat]; data := [] |}
  | a :: rest =>
      if forallb (fun b => bool_decide (shape b = shape a)) rest
      then inl {| dtype := dt; shape := length samples :: shape a;
                  data := concat (map data samples) |}
      else inr samples
  end.

(** The flag that the loop of [read] computes: each shape is compared with
    the one before it. *)
Fixpoint adjacent_same (last : option (list nat)) (shapes : list (list nat))
  : bool :=
  match shapes with
  | [] => true
  | sh :: rest =>
      match last with
      | Some l => bool_decide (l = sh)
      | None => true
      end && adjacent_same (Some sh) rest
  end.

End ChunkRead.

(** ** The calls that reach the storage of a dataset *)

Module Calls.
Import Numpy TensorCore Cache.

(** The length in bytes of what is stored under a key: of a chunk its
    bytes, of a meta or an index map one byte, to keep the numbers small. *)
Definition obj_len (o : obj) : Z :=
  match o with
  | OBytes b => bytes_len b
  | _ => 1
  end.

(** What a writer does to its storage when it creates the tensor [name],
    and when it extends it to [len] samples by the [n] chunks of 16 bytes
    numbered from [first]. *)
Definition stored_meta (len : Z) : obj :=
  OTensorMeta {| tm_dtype := "uint8"; tm_length := len;
                 tm_min_shape := [2%nat]; tm_max_shape := [2%nat];
                 tm_chunk_size := 16 |}.

Definition calls_of_create (names : list string) (name : string)
  : list (call obj) :=
  [Get (get_tensor_meta_key name);
   Set_ (get_tensor_meta_key name) (stored_meta 0);
   Set_ Dataset.get_dataset_meta_key (ODatasetMeta (names ++ [name]))].

Definition calls_of_extend (name : string) (first n : nat) (len : Z)
  : list (call obj) :=
  Get (get_tensor_meta_key name)
  :: map (fun i => Set_ (chunk_key name i) (OBytes (repeat "001"%byte 16)))
         (seq first n)
  ++ [Set_ (get_index_map_key name) (OIndexMap []);
      Set_ (get_tensor_meta_key name) (stored_meta len)].

End Calls.

(* ================================================================= *)
(** * Properties *)

Module ChunkNameFacts.
Import ChunkName.

Example hex_255 : hex 255 = "0xff"%string.
Proof. reflexivity. Qed.

Example name_0 : _chunk_name_from_id 0 = "0"%string.
Proof. reflexivity. Qed.

Example name_max : _chunk_name_from_id uint64_max = "ffffffffffffffff"%string.
Proof. reflexivity. Qed.

Example id_of_name : _chunk_id_from_name "1f" = Some 31%N.
Proof. reflexivity. Qed.

(** **** Rendering and parsing hexadecimal numerals *)

Lemma hex_digit_cases (P : N -> Prop) :
  P 0%N -> P 1%N -> P 2%N -> P 3%N -> P 4%N -> P 5%N -> P 6%N -> P 7%N ->
  P 8%N -> P 9%N -> P 10%N -> P 11%N -> P 12%N -> P 13%N -> P 14%N -> P 15%N ->
  forall d, (d < 16)%N -> P d.
Proof.
  intros ? ? ? ? ? ? ? ? ? ? ? ? ? ? ? ? d Hd.
  rewrite <- (N2Nat.id d).
  assert (Hn : (N.to_nat d < 16)%nat) by lia.
  revert Hn. generalize (N.to_nat d). intros n Hn.
  do 16 (destruct n as [|n]; [assumption|]). lia.
Qed.

Lemma hex_value_digit d : (d < 16)%N -> hex_value (hex_digit d) = Some d.
Proof. revert d. apply hex_digit_cases; reflexivity. Qed.

Lemma is_lower_hex_digit d : (d < 16)%N -> is_lower_hex (hex_digit d) = true.
Proof. revert d. apply hex_digit_cases; reflexivity. Qed.

Lemma parse_hex_app s1 s2 acc :
  parse_hex (s1 ++ s2) acc =
  match parse_hex s1 acc with
  | Some v => parse_hex s2 v
  | None => None
  end.
Proof.
  revert acc. induction s1 as [|c s1 IH]; intros acc; simpl; [reflexivity|].
  destruct (hex_value c); [apply IH | reflexivity].
Qed.

Lemma str_all_app p s1 s2 :
  str_all p (s1 ++ s2) = str_all p s1 && str_all p s2.
Proof.
  induction s1 as [|c s1 IH]; simpl; [reflexivity|].
  rewrite IH. apply andb_assoc.
Qed.

Lemma hex_digits_fuel_parse fuel n :
  (n < 16 ^ N.of_nat fuel)%N ->
  parse_hex (hex_digits_fuel fuel n) 0 = Some n.
Proof.
  revert n. induction fuel as [|fuel IH]; intros n Hn.
  - simpl in Hn. assert (n = 0%N) by lia. subst n. reflexivity.
  - cbn [hex_digits_fuel]. destruct (N.ltb_spec n 16) as [Hlt|Hge].
    + simpl. rewrite hex_value_digit by assumption. reflexivity.
    + rewrite parse_hex_app, IH.
      * simpl. rewrite hex_value_digit by (apply N.mod_lt; lia).
        f_equal. pose proof (N.div_mod n 16). lia.
      * apply N.Div0.div_lt_upper_bound.
        rewrite Nat2N.inj_succ, N.pow_succ_r' in Hn. exact Hn.
Qed.

Lemma hex_digits_fuel_lower fuel n :
  str_all is_lower_hex (hex_digits_fuel fuel n) = true.
Proof.
  revert n. induction fuel as [|fuel IH]; intros n; [reflexivity|].
  cbn [hex_digits_fuel]. destruct (N.ltb_spec n 16) as [Hlt|Hge].
  - simpl. rewrite is_lower_hex_digit by assumption. reflexivity.
  - rewrite str_all_app, IH. simpl.
    rewrite is_lower_hex_digit by (apply N.mod_lt; lia). reflexivity.
Qed.

Lemma hex_digits_fuel_nonempty fuel n :
  hex_digits_fuel (S fuel) n <> EmptyString.
Proof.
  cbn [hex_digits_fuel]. destruct (n <? 16)%N; [discriminate|].
  destruct (hex_digits_fuel fuel (n / 16)); discriminate.
Qed.

(** The fuel that [hex_digits] takes is enough for every digit of [n]. *)
Lemma hex_digits_enough n : (n < 16 ^ N.of_nat (S (N.to_nat (N.log2 n))))%N.
Proof.
  rewrite Nat2N.inj_succ, N2Nat.id.
  destruct (N.eq_dec n 0%N) as [->|Hn]; [reflexivity|].
  assert (Hlog : (n < 2 ^ N.succ (N.log2 n))%N) by (apply N.log2_spec; lia).
  eapply N.lt_le_trans; [exact Hlog|].
  apply N.pow_le_mono_l. lia.
Qed.

Lemma name_is_digits id : _chunk_name_from_id id = hex_digits id.
Proof. reflexivity. Qed.

Lemma int16_prefixed s :
  s <> EmptyString -> int16 ("0x" ++ s) = parse_hex s 0.
Proof. destruct s; [congruence | reflexivity]. Qed.

(** Parsing a rendered name gives the id back, for every natural number. *)
Lemma chunk_id_name_inverse id :
  _chunk_id_from_name (_chunk_name_from_id id) = Some id.
Proof.
  unfold _chunk_id_from_name. rewrite name_is_digits.
  rewrite int16_prefixed by apply hex_digits_fuel_nonempty.
  apply hex_digits_fuel_parse, hex_digits_enough.
Qed.

Lemma chunk_name_injective id1 id2 :
  _chunk_name_from_id id1 = _chunk_name_from_id id2 -> id1 = id2.
Proof.
  intros H. apply (f_equal _chunk_id_from_name) in H.
  rewrite !chunk_id_name_inverse in H. congruence.
Qed.

(** C9. For every 64-bit unsigned chunk id, the rendered chunk name is a
    non-empty string of lowercase hexadecimal digits (so it carries no [0x]
    prefix: it is [hex(id)] without its first two characters), and parsing it
    with [_chunk_id_from_name] returns the id. *)
Theorem chunk_name_round_trip (id : N) :
  is_uint64 id ->
  _chunk_name_from_id id <> EmptyString /\
  str_all is_lower_hex (_chunk_name_from_id id) = true /\
  hex id = ("0x" ++ _chunk_name_from_id id)%string /\
  _chunk_id_from_name (_chunk_name_from_id id) = Some id.
Proof.
  intros _. repeat split.
  - rewrite name_is_digits. apply hex_digits_fuel_nonempty.
  - rewrite name_is_digits. apply hex_digits_fuel_lower.
  - apply chunk_id_name_inverse.
Qed.

Lemma chunk_name_round_trip_witness :
  is_uint64 uint64_max /\
  _chunk_id_from_name (_chunk_name_from_id uint64_max) = Some uint64_max.
Proof.
  assert (H : is_uint64 uint64_max) by (unfold is_uint64; lia).
  split; [exact H|]. apply (chunk_name_round_trip uint64_max H).
Defined.

(** **** Rounding to [np.float64] *)

Lemma div_rne_bounds z d : 0 < d -> z / d <= div_rne z d <= z / d + 1.
Proof.
  intros Hd. unfold div_rne.
  destruct (2 * (z mod d) ?= d); [destruct (Z.even (z / d))| |]; lia.
Qed.

Lemma div_rne_mono z1 z2 d : 0 < d -> z1 <= z2 -> div_rne z1 d <= div_rne z2 d.
Proof.
  intros Hd Hz.
  pose proof (Z.div_le_mono z1 z2 d Hd Hz) as Hq.
  destruct (Z.eq_dec (z1 / d) (z2 / d)) as [Heq|Hne].
  - pose proof (Z.div_mod z1 d ltac:(lia)) as E1.
    pose proof (Z.div_mod z2 d ltac:(lia)) as E2.
    assert (Hr : z1 mod d <= z2 mod d) by (rewrite Heq in E1; lia).
    unfold div_rne. rewrite Heq.
    destruct (Z.compare_spec (2 * (z1 mod d)) d),
             (Z.compare_spec (2 * (z2 mod d)) d);
      try destruct (Z.even (z2 / d)); lia.
  - pose proof (div_rne_bounds z1 d Hd). pose proof (div_rne_bounds z2 d Hd).
    lia.
Qed.

(** The significand of [z >= 2^53] at the exponent of [z] has 53 bits. *)
Lemma significand_bounds z :
  2 ^ 53 <= z ->
  let u := 2 ^ (Z.log2 z - 52) in
  0 < u /\ 2 ^ 52 <= z / u < 2 ^ 53 /\ 1 <= Z.log2 z - 52.
Proof.
  intros Hz u.
  assert (Hpos : 0 < z) by lia.
  pose proof (Z.log2_spec z Hpos) as [Hlo Hhi].
  assert (Hp : 53 <= Z.log2 z) by (apply Z.log2_le_pow2; lia).
  assert (Hu : 0 < u) by (apply Z.pow_pos_nonneg; lia).
  assert (E1 : 2 ^ Z.log2 z = 2 ^ 52 * u).
  { unfold u. rewrite <- Z.pow_add_r by lia. f_equal. lia. }
  assert (E2 : 2 ^ Z.succ (Z.log2 z) = 2 ^ 53 * u).
  { unfold u. rewrite <- Z.pow_add_r by lia. f_equal. lia. }
  split; [exact Hu|]. split; [|lia]. split.
  - apply Z.div_le_lower_bound; [exact Hu|]. lia.
  - apply Z.div_lt_upper_bound; [exact Hu|]. lia.
Qed.

Lemma float64_abs_exact z : z <= 2 ^ 53 -> float64_abs z = z.
Proof.
  intros Hz. unfold float64_abs.
  destruct (Z.ltb_spec z (2 ^ 53)) as [|Hge]; [reflexivity|].
  assert (z = 2 ^ 53) as -> by lia. reflexivity.
Qed.

Lemma float64_abs_bounds z :
  2 ^ 53 <= z ->
  let u := 2 ^ (Z.log2 z - 52) in
  u * 2 ^ 52 <= float64_abs z <= u * 2 ^ 53.
Proof.
  intros Hz u. destruct (significand_bounds z Hz) as (Hu & Hq & _).
  fold u in Hu, Hq.
  unfold float64_abs. destruct (Z.ltb_spec z (2 ^ 53)); [lia|]. fold u.
  pose proof (div_rne_bounds z u Hu). nia.
Qed.

Lemma float64_abs_mono z1 z2 :
  0 <= z1 -> z1 <= z2 -> float64_abs z1 <= float64_abs z2.
Proof.
  intros H0 Hle.
  destruct (Z.lt_ge_cases z2 (2 ^ 53)) as [H2|H2].
  { rewrite !float64_abs_exact by lia. exact Hle. }
  pose proof (float64_abs_bounds z2 H2) as B2.
  destruct (significand_bounds z2 H2) as (Hu2 & Hq2 & He2).
  destruct (Z.lt_ge_cases z1 (2 ^ 53)) as [H1|H1].
  { rewrite (float64_abs_exact z1) by lia. cbv zeta in B2.
    assert (2 ^ 1 <= 2 ^ (Z.log2 z2 - 52)) by (apply Z.pow_le_mono_r; lia).
    change (2 ^ 1) with 2 in *. nia. }
  pose proof (float64_abs_bounds z1 H1) as B1.
  destruct (significand_bounds z1 H1) as (Hu1 & Hq1 & He1).
  assert (Hlog : Z.log2 z1 <= Z.log2 z2) by (apply Z.log2_le_mono; exact Hle).
  destruct (Z.eq_dec (Z.log2 z1) (Z.log2 z2)) as [Heq|Hne].
  - unfold float64_abs.
    destruct (Z.ltb_spec z1 (2 ^ 53)); [lia|].
    destruct (Z.ltb_spec z2 (2 ^ 53)); [lia|].
    rewrite Heq. apply Z.mul_le_mono_nonneg_l; [lia|].
    apply div_rne_mono; assumption.
  - cbv zeta in B1, B2.
    assert (E : 2 ^ (Z.log2 z2 - 52) =
                2 ^ (Z.log2 z1 - 52) * 2 ^ (Z.log2 z2 - Z.log2 z1)).
    { rewrite <- Z.pow_add_r by lia. f_equal. lia. }
    assert (2 ^ 1 <= 2 ^ (Z.log2 z2 - Z.log2 z1))
      by (apply Z.pow_le_mono_r; lia).
    change (2 ^ 1) with 2 in *.
    set (u1 := 2 ^ (Z.log2 z1 - 52)) in *.
    set (w := 2 ^ (Z.log2 z2 - Z.log2 z1)) in *.
    rewrite E in B2.
    assert (u1 * 2 ^ 53 <= u1 * w * 2 ^ 52); [|lia].
    change (2 ^ 53) with (2 * 2 ^ 52). nia.
Qed.

Lemma float64_abs_nonneg z : 0 <= z -> 0 <= float64_abs z.
Proof.
  intros Hz. change 0 with (float64_abs 0) at 1.
  apply float64_abs_mono; lia.
Qed.

(** Integers up to [2^53] in absolute value are floating-point numbers. *)
Lemma float64_exact z : - 2 ^ 53 <= z <= 2 ^ 53 -> float64 z = z.
Proof.
  intros Hz. unfold float64. destruct (Z.ltb_spec z 0).
  - rewrite float64_abs_exact by lia. lia.
  - apply float64_abs_exact. lia.
Qed.

(** Rounding keeps the order. *)
Lemma float64_mono z1 z2 : z1 <= z2 -> float64 z1 <= float64 z2.
Proof.
  intros Hle. unfold float64.
  destruct (Z.ltb_spec z1 0), (Z.ltb_spec z2 0); try lia.
  - pose proof (float64_abs_mono (- z2) (- z1)). lia.
  - pose proof (float64_abs_nonneg (- z1)).
    pose proof (float64_abs_nonneg z2). lia.
  - apply float64_abs_mono; lia.
Qed.

Lemma float64_large z : 2 ^ 53 <= z -> 2 ^ 53 <= float64 z.
Proof.
  intros Hz. rewrite <- (float64_exact (2 ^ 53)) at 1 by lia.
  apply float64_mono. exact Hz.
Qed.

Lemma float64_nonneg z : 0 <= z -> 0 <= float64 z.
Proof.
  intros Hz. change 0 with (float64 0) at 1. apply float64_mono. exact Hz.
Qed.

Lemma float64_negative z : z < 0 -> float64 z < 0.
Proof.
  intros Hz. pose proof (float64_mono z (-1) ltac:(lia)) as H.
  change (float64 (-1)) with (-1) in H. lia.
Qed.

Lemma float64_N_spec x : Z.of_N (float64_N x) = float64 (Z.of_N x).
Proof.
  unfold float64_N. apply Z2N.id. apply float64_nonneg. lia.
Qed.

(** [2^53 + 1] is the first integer that is not a floating-point number. *)
Example float64_rounds :
  float64 (2 ^ 53 + 1) = 2 ^ 53 /\ float64 (2 ^ 53 + 3) = 2 ^ 53 + 4 /\
  float64 (2 ^ 64 - 1) = 2 ^ 64.
Proof. repeat split; vm_compute; reflexivity. Qed.

(** **** Operations of a [np.uint64] with a Python integer *)

Lemma dtype_of_small v : - 2 ^ 63 <= v < 2 ^ 63 -> dtype_of_int v = np_int64.
Proof.
  intros Hv. unfold dtype_of_int.
  destruct (Z.ltb_spec v (- 2 ^ 63)); [lia|].
  destruct (Z.ltb_spec v (2 ^ 63)); [reflexivity | lia].
Qed.

(** Sums, differences and comparisons are exact up to [2^53]. *)
Lemma uint64_add_int_exact x v :
  Z.of_N x <= 2 ^ 53 -> - 2 ^ 53 <= v <= 2 ^ 53 ->
  - 2 ^ 53 <= Z.of_N x + v <= 2 ^ 53 ->
  uint64_add_int x v = Z.of_N x + v.
Proof.
  intros Hx Hv Hs. unfold uint64_add_int. rewrite dtype_of_small by lia.
  rewrite (float64_exact (Z.of_N x)), (float64_exact v) by lia.
  apply float64_exact. exact Hs.
Qed.

Lemma int_sub_uint64_exact v x :
  0 <= v <= 2 ^ 53 -> Z.of_N x <= 2 ^ 53 ->
  int_sub_uint64 v x = v - Z.of_N x.
Proof.
  intros Hv Hx. unfold int_sub_uint64. rewrite dtype_of_small by lia.
  rewrite (float64_exact (Z.of_N x)), (float64_exact v) by lia.
  apply float64_exact. lia.
Qed.

Lemma uint64_eq_int_exact x v :
  v < 2 ^ 53 -> uint64_eq_int x v = (Z.of_N x =? v).
Proof.
  intros Hv. unfold uint64_eq_int.
  destruct (dtype_of_int v) eqn:Ed; try reflexivity.
  destruct (Z.lt_ge_cases v 0) as [Hneg|Hpos].
  - pose proof (float64_negative v Hneg).
    pose proof (float64_nonneg (Z.of_N x) ltac:(lia)).
    destruct (Z.eqb_spec (float64 (Z.of_N x)) (float64 v)),
             (Z.eqb_spec (Z.of_N x) v); try reflexivity; lia.
  - rewrite (float64_exact v) by lia.
    destruct (Z.le_gt_cases (Z.of_N x) (2 ^ 53)) as [Hx|Hx].
    + rewrite (float64_exact (Z.of_N x)) by lia. reflexivity.
    + pose proof (float64_large (Z.of_N x) ltac:(lia)).
      destruct (Z.eqb_spec (float64 (Z.of_N x)) v),
               (Z.eqb_spec (Z.of_N x) v); try reflexivity; lia.
Qed.

Lemma float64_lt_exact x v :
  v <= 2 ^ 53 -> (float64 (Z.of_N x) <? float64 v) = (Z.of_N x <? v).
Proof.
  intros Hv. destruct (Z.lt_ge_cases v 0) as [Hneg|Hpos].
  - pose proof (float64_negative v Hneg).
    pose proof (float64_nonneg (Z.of_N x) ltac:(lia)).
    destruct (Z.ltb_spec (float64 (Z.of_N x)) (float64 v)),
             (Z.ltb_spec (Z.of_N x) v); try reflexivity; lia.
  - rewrite (float64_exact v) by lia.
    destruct (Z.le_gt_cases (Z.of_N x) (2 ^ 53)) as [Hx|Hx].
    + rewrite (float64_exact (Z.of_N x)) by lia. reflexivity.
    + pose proof (float64_large (Z.of_N x) ltac:(lia)).
      destruct (Z.ltb_spec (float64 (Z.of_N x)) v),
               (Z.ltb_spec (Z.of_N x) v); try reflexivity; lia.
Qed.

(** [last + 1] is never 0, and it is below [2^53] only when it is exact. *)
Lemma uint64_add_one_pos x : 1 <= uint64_add_int x 1.
Proof.
  unfold uint64_add_int. change (dtype_of_int 1) with np_int64.
  change (float64 1) with 1. cbv iota.
  pose proof (float64_nonneg (Z.of_N x) ltac:(lia)).
  change 1 with (float64 1) at 1. apply float64_mono. lia.
Qed.

Lemma uint64_add_one_large x : 2 ^ 53 <= Z.of_N x -> 2 ^ 53 <= uint64_add_int x 1.
Proof.
  intros Hx. unfold uint64_add_int. change (dtype_of_int 1) with np_int64.
  change (float64 1) with 1. cbv iota.
  apply float64_large. pose proof (float64_large _ Hx). lia.
Qed.

Lemma uint64_add_one_exact x :
  Z.of_N x < 2 ^ 53 -> uint64_add_int x 1 = Z.of_N x + 1.
Proof. intros Hx. apply uint64_add_int_exact; lia. Qed.

Lemma uint64_add_one_small x k :
  uint64_add_int x 1 = k -> k < 2 ^ 53 -> k = Z.of_N x + 1.
Proof.
  intros Hk Hlt. destruct (Z.lt_ge_cases (Z.of_N x) (2 ^ 53)) as [Hx|Hx].
  - rewrite uint64_add_one_exact in Hk by exact Hx. lia.
  - pose proof (uint64_add_one_large x Hx). lia.
Qed.

(** **** The encoder invariant *)

Ltac unfold_result :=
  unfold mbind, result_bind, fmap, result_fmap, mret, result_ret in *.

Lemma to_uint64_ok z n :
  to_uint64 z = Ok n -> 0 <= z <= Z.of_N uint64_max /\ Z.of_N n = z.
Proof.
  unfold to_uint64. intros H.
  destruct (Z.leb_spec 0 z), (Z.leb_spec z (Z.of_N uint64_max));
    simpl in H; try discriminate.
  injection H as <-. split; [lia|]. apply Z2N.id. lia.
Qed.

Lemma to_uint64_in_range z :
  0 <= z < 2 ^ 64 -> to_uint64 z = Ok (Z.to_N z).
Proof.
  intros Hz. unfold to_uint64.
  change (Z.of_N uint64_max) with (2 ^ 64 - 1).
  destruct (Z.leb_spec 0 z), (Z.leb_spec z (2 ^ 64 - 1)); try lia.
  reflexivity.
Qed.

Lemma wrap_uint64_small z :
  0 <= z <= Z.of_N uint64_max -> Z.of_N (wrap_uint64 z) = z.
Proof.
  intros Hz. unfold wrap_uint64.
  change (Z.of_N uint64_max) with (2 ^ Z.of_N CHUNK_ID_BITS - 1) in Hz.
  rewrite Z.mod_small by lia. apply Z2N.id. lia.
Qed.

(** [a[i] += n] never fails for a count that fits [np.uint64], and it is
    exact up to [2^53]. *)
Lemma uint64_iadd_int_ok x n :
  0 < n < 2 ^ 64 -> exists li, uint64_iadd_int x n = Ok li.
Proof.
  intros Hn. unfold uint64_iadd_int, dtype_of_int.
  destruct (Z.ltb_spec n (- 2 ^ 63)); [lia|].
  destruct (Z.ltb_spec n (2 ^ 63)); [eexists; reflexivity|].
  destruct (Z.ltb_spec n (2 ^ 64)); [eexists; reflexivity | lia].
Qed.

Lemma uint64_iadd_int_exact x n :
  0 <= n -> Z.of_N x + n <= 2 ^ 53 ->
  uint64_iadd_int x n = Ok (Z.to_N (Z.of_N x + n)).
Proof.
  intros Hn Hs. unfold uint64_iadd_int. rewrite dtype_of_small by lia.
  rewrite uint64_add_int_exact by lia. f_equal.
  apply N2Z.inj. rewrite wrap_uint64_small; [lia|].
  change (Z.of_N uint64_max) with (2 ^ 64 - 1). lia.
Qed.

Lemma set_last_snoc {A} (l : list A) x y : set_last (l ++ [x]) y = l ++ [y].
Proof.
  unfold set_last. rewrite length_app. simpl.
  replace (pred (length l + 1)) with (length l + 0)%nat by lia.
  rewrite insert_app_r. reflexivity.
Qed.

Lemma py_last_ok {A} (l : list A) x :
  py_last l = Ok x -> exists l', l = l' ++ [x].
Proof.
  unfold py_last. destruct (last l) eqn:E; [|discriminate].
  intros [= <-]. apply last_Some. exact E.
Qed.

Lemma nondecreasing_snoc rows r r' :
  nondecreasing (rows ++ [r]) ->
  (last_index_of r <= last_index_of r')%N ->
  nondecreasing (rows ++ [r; r']) /\ nondecreasing (rows ++ [r']).
Proof.
  unfold nondecreasing. intros Hs Hle.
  rewrite !map_app in *. simpl in *.
  apply StronglySorted_app in Hs as (Hx & Hl & _).
  assert (Hr : forall x, x ∈ map last_index_of rows ->
                         (x <= last_index_of r)%N).
  { intros x Hxin. apply Hx; [exact Hxin | constructor]. }
  split; apply StronglySorted_app_2; try assumption.
  - intros x1 x2 H1 H2. apply Hr in H1.
    apply elem_of_cons in H2 as [->| H2]; [exact H1|].
    apply list_elem_of_singleton in H2 as ->. lia.
  - repeat constructor; assumption.
  - intros x1 x2 H1 H2. apply Hr in H1.
    apply list_elem_of_singleton in H2 as ->. lia.
  - repeat constructor.
Qed.

(** The shape of an encoder that satisfies the invariant. *)
Lemma encoder_inv_cases self :
  encoder_inv self ->
  self = init \/
  exists rows r conn c,
    self = {| _encoded := Some (rows ++ [r]);
              _connectivity := Some (conn ++ [c]) |} /\
    length conn = length rows /\ nondecreasing (rows ++ [r]).
Proof.
  destruct self as [[rows|] [conn|]]; unfold encoder_inv; simpl;
    try tauto; try (left; reflexivity).
  intros (Hne & Hlen & Hs). right.
  destruct (last rows) as [r|] eqn:Er; [|apply last_None in Er; tauto].
  apply last_Some in Er as [rows' ->].
  destruct (last conn) as [c|] eqn:Ec.
  - apply last_Some in Ec as [conn' ->].
    exists rows', r, conn', c. rewrite !length_app in Hlen. simpl in Hlen.
    repeat split; [lia | exact Hs].
  - apply last_None in Ec as ->. rewrite length_app in Hlen.
    simpl in Hlen. lia.
Qed.

Lemma num_samples_snoc rows r conn :
  num_samples {| _encoded := Some (rows ++ [r]); _connectivity := conn |} =
  Ok (uint64_add_int (last_index_of r) 1).
Proof. unfold num_samples, py_last. simpl. rewrite last_snoc. reflexivity. Qed.

Lemma holds_snoc rows r conn k :
  holds {| _encoded := Some (rows ++ [r]); _connectivity := conn |} k <->
  k = Z.of_N (last_index_of r) + 1.
Proof.
  unfold holds, last_sample_index. cbn [_encoded].
  rewrite last_snoc. reflexivity.
Qed.

(** Below [2^53], [num_samples] is the number of samples held. *)
Lemma num_samples_holds self k :
  encoder_inv self -> num_samples self = Ok k -> k < 2 ^ 53 -> holds self k.
Proof.
  intros Hinv Hk Hlt.
  apply encoder_inv_cases in Hinv as [->|(rows & r & conn & b & -> & _ & _)].
  - injection Hk as <-. reflexivity.
  - rewrite num_samples_snoc in Hk. injection Hk as Hk.
    apply holds_snoc. apply uint64_add_one_small; assumption.
Qed.

Lemma holds_num_samples self k :
  encoder_inv self -> holds self k -> k <= 2 ^ 53 -> num_samples self = Ok k.
Proof.
  intros Hinv Hk Hle.
  apply encoder_inv_cases in Hinv as [->|(rows & r & conn & b & -> & _ & _)].
  - unfold holds in Hk. cbn in Hk. subst k. reflexivity.
  - apply holds_snoc in Hk. rewrite num_samples_snoc.
    rewrite uint64_add_one_exact by lia. f_equal. lia.
Qed.

Lemma append_chunk_init id n c :
  append_chunk id init n c =
    if n <? 0 then
      Raise (ValueError
        "When appending, `num_samples` should be >= 0. Got {num_samples}.")
    else if n =? 0 then Raise (Exception "First num samples cannot be 0.")
    else
      li ← to_uint64 (n - 1);
      Ok ({| _encoded := Some [(id, li)]; _connectivity := Some [c] |},
          _chunk_name_from_id id).
Proof.
  unfold append_chunk. destruct (n <? 0); [reflexivity|]. cbn.
  destruct (n =? 0); [reflexivity|]. unfold_result.
  destruct (to_uint64 (n - 1)); reflexivity.
Qed.

Lemma append_chunk_snoc id rows r conn b n c :
  append_chunk id {| _encoded := Some (rows ++ [r]);
                     _connectivity := Some (conn ++ [b]) |} n c =
    if n <? 0 then
      Raise (ValueError
        "When appending, `num_samples` should be >= 0. Got {num_samples}.")
    else if (n =? 0) && negb b then
      Raise (Exception
        "num_samples cannot be 0 unless the previous chunk was connected to next.")
    else
      li ← to_uint64 (uint64_add_int (last_index_of r) 1 - 1 + n);
      Ok ({| _encoded := Some ((rows ++ [r]) ++ [(id, li)]);
             _connectivity := Some ((conn ++ [b]) ++ [c]) |},
          _chunk_name_from_id id).
Proof.
  unfold append_chunk. destruct (n <? 0); [reflexivity|].
  rewrite num_samples_snoc. unfold_result.
  pose proof (uint64_add_one_pos (last_index_of r)).
  destruct (Z.eqb_spec (uint64_add_int (last_index_of r) 1) 0); [lia|].
  cbn [_connectivity _encoded attr].
  unfold py_last at 1. rewrite last_snoc.
  destruct (n =? 0), b; cbn [andb negb]; try reflexivity;
    destruct (to_uint64 _); try reflexivity;
    cbn [_encoded attr]; unfold py_last; rewrite last_snoc; reflexivity.
Qed.

Lemma extend_chunk_snoc rows r conn b n c :
  extend_chunk {| _encoded := Some (rows ++ [r]);
                  _connectivity := Some (conn ++ [b]) |} n c =
    if n <=? 0 then
      Raise (ValueError
        "When extending, `num_samples` should be > 0. Got {num_samples}.")
    else if b then
      Raise (Exception
        "Cannot extend a chunk that is already marked as `connected_to_next`.")
    else
      li ← uint64_iadd_int (last_index_of r) n;
      Ok ({| _encoded := Some (rows ++ [(chunk_id_of r, li)]);
             _connectivity := Some (conn ++ [c]) |},
          _chunk_name_from_id (chunk_id_of r)).
Proof.
  unfold extend_chunk. destruct (n <=? 0); [reflexivity|].
  rewrite num_samples_snoc. unfold_result.
  pose proof (uint64_add_one_pos (last_index_of r)).
  destruct (Z.eqb_spec (uint64_add_int (last_index_of r) 1) 0); [lia|].
  cbn [_connectivity _encoded attr].
  unfold py_last. rewrite !last_snoc. destruct b; [reflexivity|].
  destruct (uint64_iadd_int (last_index_of r) n); [|reflexivity].
  rewrite !set_last_snoc. reflexivity.
Qed.

Lemma append_chunk_inv id self n c self' name k :
  encoder_inv self -> holds self k -> k + n <= 2 ^ 53 ->
  append_chunk id self n c = Ok (self', name) ->
  0 <= n /\ encoder_inv self' /\ holds self' (k + n).
Proof.
  intros Hinv Hk Hb Happ.
  assert (Hn : 0 <= n).
  { unfold append_chunk in Happ.
    destruct (Z.ltb_spec n 0); [discriminate | assumption]. }
  split; [exact Hn|].
  apply encoder_inv_cases in Hinv as [->|(rows & r & conn & b & -> & Hlen & Hs)].
  - unfold holds in Hk. cbn in Hk. subst k.
    rewrite append_chunk_init in Happ.
    destruct (Z.ltb_spec n 0); [lia|].
    destruct (Z.eqb_spec n 0); [discriminate|].
    rewrite to_uint64_in_range in Happ by lia.
    injection Happ as <- _. split.
    + unfold encoder_inv, nondecreasing. simpl.
      repeat split; [discriminate|]. repeat constructor.
    + apply (holds_snoc []). cbn. lia.
  - apply holds_snoc in Hk. rewrite append_chunk_snoc in Happ.
    destruct (Z.ltb_spec n 0); [lia|].
    destruct ((n =? 0) && negb b); [discriminate|].
    rewrite uint64_add_one_exact in Happ by lia.
    rewrite to_uint64_in_range in Happ by lia.
    injection Happ as <- _. split.
    + unfold encoder_inv. simpl. repeat split.
      * destruct rows; discriminate.
      * rewrite !length_app. simpl. lia.
      * rewrite <- app_assoc. simpl.
        apply (nondecreasing_snoc rows r); [exact Hs|]. simpl. lia.
    + apply holds_snoc. cbn. lia.
Qed.

Lemma extend_chunk_inv self n c self' name k :
  encoder_inv self -> holds self k -> k + n <= 2 ^ 53 ->
  extend_chunk self n c = Ok (self', name) ->
  0 < n /\ encoder_inv self' /\ holds self' (k + n).
Proof.
  intros Hinv Hk Hb Hext.
  assert (Hn : 0 < n).
  { unfold extend_chunk in Hext.
    destruct (Z.leb_spec n 0); [discriminate | assumption]. }
  split; [exact Hn|].
  apply encoder_inv_cases in Hinv as [->|(rows & r & conn & b & -> & Hlen & Hs)].
  - unfold extend_chunk in Hext. destruct (n <=? 0); discriminate.
  - apply holds_snoc in Hk. rewrite extend_chunk_snoc in Hext.
    destruct (Z.leb_spec n 0); [lia|]. destruct b; [discriminate|].
    rewrite uint64_iadd_int_exact in Hext by lia.
    injection Hext as <- _. split.
    + unfold encoder_inv. simpl. repeat split.
      * destruct rows; discriminate.
      * rewrite !length_app. simpl. lia.
      * apply (nondecreasing_snoc rows r); [exact Hs|]. simpl. lia.
    + apply holds_snoc. cbn. lia.
Qed.

Lemma run_op_nonneg self o self' :
  run_op self o = Ok self' -> 0 <= op_samples o.
Proof.
  destruct o as [id n c|n c]; simpl; unfold_result.
  - unfold append_chunk. destruct (Z.ltb_spec n 0); [discriminate | lia].
  - unfold extend_chunk. destruct (Z.leb_spec n 0); [discriminate | lia].
Qed.

Lemma run_ops_nonneg ops : forall self self',
  run_ops self ops = Ok self' -> 0 <= total_samples ops.
Proof.
  induction ops as [|o ops IH]; intros self self' H; [reflexivity|].
  cbn in H. unfold_result.
  destruct (run_op self o) as [self1|] eqn:E1; [|discriminate].
  apply run_op_nonneg in E1. apply IH in H.
  unfold total_samples in *. simpl. lia.
Qed.

Lemma run_op_inv self o self' k :
  encoder_inv self -> holds self k ->
  run_op self o = Ok self' ->
  k + op_samples o <= 2 ^ 53 ->
  encoder_inv self' /\ holds self' (k + op_samples o).
Proof.
  intros Hinv Hk Hrun Hb. destruct o as [id n c|n c]; simpl in *; unfold_result.
  - destruct (append_chunk id self n c) as [[s1 nm]|] eqn:E; [|discriminate].
    injection Hrun as <-.
    eapply append_chunk_inv in E as (_ & ? & ?); eauto.
  - destruct (extend_chunk self n c) as [[s1 nm]|] eqn:E; [|discriminate].
    injection Hrun as <-.
    eapply extend_chunk_inv in E as (_ & ? & ?); eauto.
Qed.

Lemma run_ops_inv ops : forall self self' k,
  encoder_inv self -> holds self k ->
  run_ops self ops = Ok self' ->
  k + total_samples ops <= 2 ^ 53 ->
  encoder_inv self' /\ holds self' (k + total_samples ops).
Proof.
  induction ops as [|o ops IH]; intros self self' k Hinv Hk Hrun Hb.
  - injection Hrun as <-. unfold total_samples. simpl.
    rewrite Z.add_0_r. auto.
  - cbn in Hrun. unfold_result.
    destruct (run_op self o) as [self1|] eqn:E1; [|discriminate].
    pose proof (run_ops_nonneg _ _ _ Hrun) as Hnn.
    change (total_samples (o :: ops))
      with (op_samples o + total_samples ops) in *.
    destruct (run_op_inv _ _ _ _ Hinv Hk E1) as [Hinv1 Hk1]; [lia|].
    destruct (IH _ _ _ Hinv1 Hk1 Hrun) as [Hinv' Hk']; [lia|].
    split; [exact Hinv'|].
    replace (k + (op_samples o + total_samples ops))
      with (k + op_samples o + total_samples ops) by lia.
    exact Hk'.
Qed.

Lemma holds_init : holds init 0.
Proof. reflexivity. Qed.

(** C8, as the code has it. Every history of successful [append_chunk] and
    [extend_chunk] calls on a new encoder that adds at most [2^53] samples
    leaves [encoded[i].last_sample_index] non-decreasing in [i], and
    [num_samples] is [encoded[-1].last_sample_index + 1], or 0 when there is
    no chunk yet. *)
Theorem encoder_history_invariant (ops : list op) (self : ChunkNameEncoder) :
  run_ops init ops = Ok self ->
  total_samples ops <= 2 ^ 53 ->
  match _encoded self with
  | None => num_samples self = Ok 0
  | Some rows =>
      nondecreasing rows /\
      exists r, last rows = Some r /\
                num_samples self = Ok (Z.of_N (last_index_of r) + 1)
  end.
Proof.
  intros Hrun Hb.
  destruct (run_ops_inv ops init self 0 I holds_init Hrun) as [Hinv Hk];
    [lia|].
  pose proof (holds_num_samples _ _ Hinv Hk ltac:(lia)) as Hn.
  apply encoder_inv_cases in Hinv as [->|(rows & r & conn & c & -> & _ & Hs)].
  - reflexivity.
  - simpl. split; [exact Hs|]. exists r. split; [apply last_snoc|].
    apply holds_snoc in Hk. rewrite Hn. f_equal. lia.
Qed.

Lemma encoder_history_invariant_witness :
  let ops := [AppendChunk 10 2 true; AppendChunk 11 0 false;
              ExtendChunk 3 false] in
  let self := {| _encoded := Some [(10, 1); (11, 4)]%N;
                 _connectivity := Some [true; false] |} in
  run_ops init ops = Ok self /\ total_samples ops <= 2 ^ 53 /\
  nondecreasing [(10, 1); (11, 4)]%N /\ num_samples self = Ok 5.
Proof.
  intros ops self.
  assert (Hrun : run_ops init ops = Ok self) by reflexivity.
  assert (Hb : total_samples ops <= 2 ^ 53) by (vm_compute; discriminate).
  split; [exact Hrun|]. split; [exact Hb|].
  destruct (encoder_history_invariant ops self Hrun Hb)
    as (Hs & r & [= <-] & Hn).
  split; [exact Hs | exact Hn].
Defined.

(** C8, as the claim states it, fails: the sum [last + 1] of [num_samples]
    is a floating-point sum, and [2^53 + 1] rounds to [2^53]. After a first
    chunk of [2^53 + 2] samples, [num_samples] is [2^53], two less than the
    samples held, and a second chunk of one sample gets a last index below
    the one of the first chunk. *)
Lemma encoder_history_rounds :
  let ops := [AppendChunk 10 (2 ^ 53 + 2) false; AppendChunk 11 1 false] in
  exists self rows,
    run_ops init ops = Ok self /\ _encoded self = Some rows /\
    rows = [(10, 2 ^ 53 + 1); (11, 2 ^ 53)]%N /\
    ~ nondecreasing rows /\
    num_samples self = Ok (2 ^ 53) /\
    forall r, last rows = Some r ->
              num_samples self <> Ok (Z.of_N (last_index_of r) + 1).
Proof.
  intros ops.
  exists {| _encoded := Some [(10, 2 ^ 53 + 1); (11, 2 ^ 53)]%N;
            _connectivity := Some [false; false] |},
         [(10, 2 ^ 53 + 1); (11, 2 ^ 53)]%N.
  split; [vm_compute; reflexivity|]. split; [reflexivity|].
  split; [reflexivity|]. split; [|split; [vm_compute; reflexivity|]].
  - unfold nondecreasing. cbn [map last_index_of snd]. intros Hs.
    apply StronglySorted_inv in Hs as [_ Hall].
    apply Forall_inv in Hall. revert Hall. vm_compute. intros H. apply H.
    reflexivity.
  - intros r [= <-]. vm_compute. discriminate.
Qed.

(** The number of samples of the encoder is the number the history added. *)
Lemma encoder_history_count ops self :
  run_ops init ops = Ok self ->
  total_samples ops <= 2 ^ 53 ->
  num_samples self = Ok (total_samples ops).
Proof.
  intros Hrun Hb.
  destruct (run_ops_inv ops init self 0 I holds_init Hrun) as [Hinv Hk];
    [lia|].
  apply holds_num_samples; assumption.
Qed.

(** **** Looking up the chunks of a sample *)

Lemma nondecreasing_lookup (a : list N) i j x y :
  StronglySorted N.le a -> (i <= j)%nat ->
  a !! i = Some x -> a !! j = Some y -> (x <= y)%N.
Proof.
  intros Hs. revert i j. induction Hs as [|z a Hs IH Hall]; intros i j Hij Hi Hj.
  - discriminate.
  - destruct i as [|i], j as [|j]; simpl in *; try lia.
    + injection Hi as <-. injection Hj as <-. lia.
    + injection Hi as <-. rewrite Forall_forall in Hall.
      apply Hall. eapply list_elem_of_lookup_2. exact Hj.
    + apply (IH i j); [lia | assumption | assumption].
Qed.

Section binary_search.
Variable a : list N.
Variable v : Z.
Hypothesis Hsorted : StronglySorted N.le a.

Lemma searchsorted_loop_splits fuel : forall lo hi,
  (lo <= hi <= length a)%nat -> (hi - lo < fuel)%nat ->
  (forall k x, (k < lo)%nat -> a !! k = Some x -> Z.of_N x < v) ->
  (forall k x, (hi <= k)%nat -> a !! k = Some x -> v <= Z.of_N x) ->
  (lo <= searchsorted_loop fuel a v lo hi <= hi)%nat /\
  splits a v (searchsorted_loop fuel a v lo hi).
Proof.
  induction fuel as [|fuel IH]; intros lo hi Hr Hf Hlo Hhi; [lia|].
  cbn [searchsorted_loop]. destruct (Nat.ltb_spec lo hi) as [Hlt|Hge].
  - set (mid := (lo + (hi - lo) / 2)%nat).
    assert (Hmid : (lo <= mid < hi)%nat).
    { subst mid. pose proof (Nat.div_mod_eq (hi - lo) 2).
      pose proof (Nat.mod_upper_bound (hi - lo) 2). lia. }
    destruct (lookup_lt_is_Some_2 a mid) as [x Hx]; [lia|].
    rewrite Hx. destruct (Z.ltb_spec (Z.of_N x) v) as [Hxv|Hxv].
    + destruct (IH (S mid) hi) as [Hb Hsp]; try lia; try assumption.
      * intros k y Hk Hy.
        assert (y <= x)%N by (apply (nondecreasing_lookup a k mid); auto; lia).
        lia.
      * split; [lia | exact Hsp].
    + destruct (IH lo mid) as [Hb Hsp]; try lia; try assumption.
      * intros k y Hk Hy.
        assert (x <= y)%N by (apply (nondecreasing_lookup a mid k); auto; lia).
        lia.
      * split; [lia | exact Hsp].
  - assert (lo = hi) by lia. subst hi. split; [lia|]. split; assumption.
Qed.

Lemma binary_search_splits :
  (binary_search a v <= length a)%nat /\ splits a v (binary_search a v).
Proof.
  unfold binary_search.
  destruct (searchsorted_loop_splits (S (length a)) 0 (length a))
    as [Hb Hsp]; try lia.
  - intros k x Hk Hx. apply lookup_lt_Some in Hx. lia.
  - split; [lia | exact Hsp].
Qed.
End binary_search.

Lemma float64_N_mono x y : (x <= y)%N -> (float64_N x <= float64_N y)%N.
Proof.
  intros Hxy. apply N2Z.inj_le. rewrite !float64_N_spec.
  apply float64_mono. lia.
Qed.

Lemma sorted_float64 (a : list N) :
  StronglySorted N.le a -> StronglySorted N.le (map float64_N a).
Proof.
  induction 1 as [|x a Hs IH Hall]; [constructor|].
  cbn [map]. constructor; [exact IH|].
  rewrite Forall_forall in *. intros y Hy.
  apply list_elem_of_fmap in Hy as (z & -> & Hz).
  apply float64_N_mono. apply Hall. exact Hz.
Qed.

(** [np.searchsorted] on a sorted [np.uint64] array returns the smallest
    index whose element is not below the needle, in the comparison of the
    common type. *)
Lemma searchsorted_spec (a : list N) (v : Z) :
  StronglySorted N.le a ->
  (searchsorted a v <= length a)%nat /\
  (forall k x, (k < searchsorted a v)%nat -> a !! k = Some x ->
               uint64_lt_int x v = true) /\
  (forall k x, (searchsorted a v <= k)%nat -> a !! k = Some x ->
               uint64_lt_int x v = false).
Proof.
  intros Hs. unfold searchsorted, uint64_lt_int.
  destruct (dtype_of_int v).
  - destruct (binary_search_splits (map float64_N a) (float64 v)
                (sorted_float64 a Hs)) as [Hlen [Hlo Hhi]].
    rewrite length_map in Hlen. split; [exact Hlen|]. split.
    + intros k x Hk Hx. apply Z.ltb_lt. rewrite <- float64_N_spec.
      apply (Hlo k); [exact Hk|]. rewrite list_lookup_fmap, Hx. reflexivity.
    + intros k x Hk Hx. apply Z.ltb_ge. rewrite <- float64_N_spec.
      apply (Hhi k); [exact Hk|]. rewrite list_lookup_fmap, Hx. reflexivity.
  - destruct (binary_search_splits a v Hs) as [Hlen [Hlo Hhi]].
    split; [exact Hlen|]. split.
    + intros k x Hk Hx. apply Z.ltb_lt. exact (Hlo k x Hk Hx).
    + intros k x Hk Hx. apply Z.ltb_ge. exact (Hhi k x Hk Hx).
  - destruct (binary_search_splits a v Hs) as [Hlen [Hlo Hhi]].
    split; [exact Hlen|]. split.
    + intros k x Hk Hx. apply Z.ltb_lt. exact (Hlo k x Hk Hx).
    + intros k x Hk Hx. apply Z.ltb_ge. exact (Hhi k x Hk Hx).
Qed.

Lemma searchsorted_at (a : list N) (v : Z) (i : nat) (x : N) :
  StronglySorted N.le a -> a !! i = Some x -> uint64_lt_int x v = false ->
  (forall k y, (k < i)%nat -> a !! k = Some y -> uint64_lt_int y v = true) ->
  searchsorted a v = i.
Proof.
  intros Hsorted Hx Hv Hbelow.
  destruct (searchsorted_spec a v Hsorted) as [Hj [Hlo Hhi]].
  set (j := searchsorted a v) in *.
  destruct (Nat.lt_trichotomy j i) as [Hlt|[Heq|Hgt]]; [|exact Heq|].
  - destruct (lookup_lt_is_Some_2 a j) as [y Hy];
      [apply lookup_lt_Some in Hx; lia|].
    pose proof (Hbelow j y Hlt Hy) as H1.
    pose proof (Hhi j y (Nat.le_refl j) Hy) as H2. congruence.
  - pose proof (Hlo i x Hgt Hx). congruence.
Qed.

Lemma uint64_lt_int_exact x v :
  v <= 2 ^ 53 -> uint64_lt_int x v = (Z.of_N x <? v).
Proof.
  intros Hv. unfold uint64_lt_int.
  destruct (dtype_of_int v); try reflexivity.
  apply float64_lt_exact. exact Hv.
Qed.

(** A larger needle is not found earlier. *)
Lemma uint64_lt_int_mono x v1 v2 :
  0 <= v1 -> v1 <= v2 ->
  uint64_lt_int x v2 = false -> uint64_lt_int x v1 = false.
Proof.
  intros H0 Hle. unfold uint64_lt_int, dtype_of_int.
  destruct (Z.ltb_spec v1 (- 2 ^ 63)); [lia|].
  destruct (Z.ltb_spec v2 (- 2 ^ 63)); [lia|].
  pose proof (float64_mono v1 v2 Hle).
  destruct (Z.ltb_spec v1 (2 ^ 63)), (Z.ltb_spec v2 (2 ^ 63)); try lia.
  - assert (Hx : (Z.of_N x <? v2) = false ->
                 (float64 (Z.of_N x) <? float64 v1) = false).
    { rewrite !Z.ltb_ge. intros Hx.
      pose proof (float64_mono v1 (Z.of_N x) ltac:(lia)). lia. }
    destruct (v2 <? 2 ^ 64); exact Hx.
  - assert (Hx : (Z.of_N x <? v2) = false -> (Z.of_N x <? v1) = false)
      by (rewrite !Z.ltb_ge; lia).
    destruct (v1 <? 2 ^ 64), (v2 <? 2 ^ 64); exact Hx.
Qed.

Lemma searchsorted_mono (a : list N) (v1 v2 : Z) :
  StronglySorted N.le a -> 0 <= v1 -> v1 <= v2 ->
  (searchsorted a v1 <= searchsorted a v2)%nat.
Proof.
  intros Hs H0 Hle.
  destruct (searchsorted_spec a v1 Hs) as [Hl1 [Hlo1 _]].
  destruct (searchsorted_spec a v2 Hs) as [_ [_ Hhi2]].
  destruct (Nat.le_gt_cases (searchsorted a v1) (searchsorted a v2))
    as [|Hgt]; [assumption|]. exfalso.
  destruct (lookup_lt_is_Some_2 a (searchsorted a v2)) as [x Hx]; [lia|].
  pose proof (Hlo1 _ x Hgt Hx) as H1.
  pose proof (Hhi2 _ x (Nat.le_refl _) Hx) as H2.
  rewrite (uint64_lt_int_mono x v1 v2 H0 Hle H2) in H1. discriminate.
Qed.

(** For a needle up to [2^53] the search is the exact one. *)
Lemma searchsorted_splits (a : list N) (v : Z) :
  StronglySorted N.le a -> v <= 2 ^ 53 ->
  (searchsorted a v <= length a)%nat /\ splits a v (searchsorted a v).
Proof.
  intros Hs Hv. destruct (searchsorted_spec a v Hs) as [Hlen [Hlo Hhi]].
  split; [exact Hlen|]. split.
  - intros k x Hk Hx. apply Z.ltb_lt. rewrite <- (uint64_lt_int_exact x v Hv).
    exact (Hlo k x Hk Hx).
  - intros k x Hk Hx. apply Z.ltb_ge. rewrite <- (uint64_lt_int_exact x v Hv).
    exact (Hhi k x Hk Hx).
Qed.

(** What a run of the loop of [get_chunk_names] returns, whenever it
    returns: the names and indices of consecutive rows. *)
Lemma chunk_names_loop_run rows conn s fuel :
  forall idx names indices names' indices',
  chunk_names_loop fuel rows conn s idx names indices = Ok (names', indices') ->
  exists m,
    (idx + m < length rows)%nat /\
    names' = names ++ map (fun r => _chunk_name_from_id (chunk_id_of r))
                          (take m (drop (S idx) rows)) /\
    indices' = indices ++ seq (S idx) m.
Proof.
  induction fuel as [|fuel IH]; intros idx names indices names' indices' Hrun;
    [discriminate|].
  cbn [chunk_names_loop] in Hrun. unfold py_nth, mbind, result_bind in Hrun.
  destruct (rows !! idx) as [r|] eqn:Hr; [|discriminate].
  pose proof (lookup_lt_Some _ _ _ Hr) as Hidx.
  assert (Hstop : Ok (names, indices) = Ok (names', indices') ->
    exists m, (idx + m < length rows)%nat /\
      names' = names ++ map (fun r => _chunk_name_from_id (chunk_id_of r))
                            (take m (drop (S idx) rows)) /\
      indices' = indices ++ seq (S idx) m).
  { intros [= <- <-]. exists 0%nat. rewrite take_0. cbn. rewrite !app_nil_r.
    split; [lia | split; reflexivity]. }
  destruct (uint64_eq_int (last_index_of r) s); [|exact (Hstop Hrun)].
  destruct (conn !! idx) as [[|]|]; [|exact (Hstop Hrun)|discriminate].
  destruct (rows !! S idx) as [r'|] eqn:Hr'; [|discriminate].
  apply IH in Hrun as (m & Hm & -> & ->).
  exists (S m). split; [lia|].
  rewrite (drop_S rows r' (S idx) Hr'). cbn [take map seq].
  rewrite <- !app_assoc. split; reflexivity.
Qed.

(** What a call of [get_chunk_names] returns, whenever it returns. *)
Lemma get_chunk_names_run self s names indices :
  get_chunk_names self s = Ok (names, indices) ->
  exists rows conn n i m,
    _encoded self = Some rows /\ _connectivity self = Some conn /\
    num_samples self = Ok n /\
    i = searchsorted (map last_index_of rows) (if s <? 0 then n + s else s) /\
    (i + m < length rows)%nat /\
    names = map (fun r => _chunk_name_from_id (chunk_id_of r))
                (take (S m) (drop i rows)) /\
    indices = seq i (S m).
Proof.
  unfold get_chunk_names. unfold mbind at 1, result_bind at 1.
  destruct (num_samples self) as [n|] eqn:Hn; [|discriminate].
  destruct (n =? 0); [discriminate|].
  destruct (_encoded self) as [rows|]; [|discriminate].
  destruct (_connectivity self) as [conn|]; [|discriminate].
  cbn [attr]. unfold mbind, result_bind, py_nth.
  set (i := searchsorted _ _).
  destruct (rows !! i) as [r|] eqn:Hr; [|discriminate].
  intros Hrun. apply chunk_names_loop_run in Hrun as (m & Hm & -> & ->).
  exists rows, conn, n, i, m. repeat split; try reflexivity; try assumption.
  rewrite (drop_S rows r i Hr). reflexivity.
Qed.

Section chunk_names_loop.
Variables (rows : list (N * N)) (conn : list bool) (s : Z).
Hypothesis Hlen : length conn = length rows.
Hypothesis Hnext : connected_has_next rows conn.
Hypothesis Hs : s < 2 ^ 53.

Let name_of (r : N * N) : string := _chunk_name_from_id (chunk_id_of r).

Lemma chunk_names_loop_spec fuel : forall idx names indices,
  (idx < length rows)%nat -> (length rows - idx < fuel)%nat ->
  exists j,
    (idx <= j < length rows)%nat /\
    (forall k, (idx <= k < j)%nat -> continues rows conn s k = true) /\
    continues rows conn s j = false /\
    chunk_names_loop fuel rows conn s idx names indices =
      Ok (names ++ map name_of (take (j - idx) (drop (S idx) rows)),
          indices ++ seq (S idx) (j - idx)).
Proof.
  induction fuel as [|fuel IH]; intros idx names indices Hidx Hfuel; [lia|].
  destruct (lookup_lt_is_Some_2 rows idx Hidx) as [r Hr].
  destruct (lookup_lt_is_Some_2 conn idx) as [c Hc]; [lia|].
  cbn [chunk_names_loop]. unfold py_nth, mbind, result_bind.
  rewrite Hr, (uint64_eq_int_exact _ _ Hs).
  assert (Hstop : continues rows conn s idx = false ->
    exists j,
      (idx <= j < length rows)%nat /\
      (forall k, (idx <= k < j)%nat -> continues rows conn s k = true) /\
      continues rows conn s j = false /\
      Ok (names, indices) =
        Ok (names ++ map name_of (take (j - idx) (drop (S idx) rows)),
            indices ++ seq (S idx) (j - idx))).
  { intros Hstop. exists idx. repeat split; try lia; [exact Hstop|].
    rewrite Nat.sub_diag. simpl. rewrite !app_nil_r. reflexivity. }
  destruct (Z.eqb_spec (Z.of_N (last_index_of r)) s) as [Heq|Hne].
  - rewrite Hc. destruct c.
    + pose proof (Hnext idx Hc) as Hsucc.
      destruct (lookup_lt_is_Some_2 rows (S idx) Hsucc) as [r' Hr'].
      rewrite Hr'.
      destruct (IH (S idx) (names ++ [_chunk_name_from_id (chunk_id_of r')])
                  (indices ++ [S idx])) as (j & Hj & Hrun & Hend & Heqn);
        [lia | lia |].
      exists j. split; [lia|]. split; [|split; [exact Hend|]].
      * intros k Hk. destruct (Nat.eq_dec k idx) as [->|Hki].
        -- unfold continues. rewrite Hr, Hc.
           apply andb_true_intro. split; [apply Z.eqb_eq; exact Heq | reflexivity].
        -- apply Hrun. lia.
      * rewrite Heqn. f_equal.
        rewrite (drop_S rows r' (S idx) Hr').
        replace (j - idx)%nat with (S (j - S idx)) by lia.
        simpl. rewrite <- !app_assoc. reflexivity.
    + apply Hstop. unfold continues. rewrite Hr, Hc. apply andb_false_r.
  - apply Hstop. unfold continues. rewrite Hr, Hc.
    apply andb_false_intro1. apply Z.eqb_neq. exact Hne.
Qed.
End chunk_names_loop.

(** The last row is not below an index that [num_samples] admits, as long
    as the index is below [2^53]. *)
Lemma last_row_reaches rows r conn n s :
  num_samples {| _encoded := Some (rows ++ [r]); _connectivity := conn |}
    = Ok n ->
  s < n -> s < 2 ^ 53 -> s <= Z.of_N (last_index_of r).
Proof.
  rewrite num_samples_snoc. intros [= <-] Hs Hb.
  destruct (Z.lt_ge_cases (Z.of_N (last_index_of r)) (2 ^ 53)) as [Hr|Hr].
  - rewrite uint64_add_one_exact in Hs by exact Hr. lia.
  - lia.
Qed.

(** C5, as the code has it. On a non-empty encoder with non-decreasing last
    indices and one connectivity flag per chunk, in which every chunk that
    is marked as connected has a successor, and for
    [0 <= sample_index < num_samples] with [sample_index < 2^53],
    [get_chunk_names] returns the names of the chunks [i..j], in order,
    where [i] is the smallest index with
    [encoded[i].last_index >= sample_index] and [j] is the first index from
    [i] on at which [encoded[j].last_index == sample_index and
    connectivity[j]] fails. *)
Theorem get_chunk_names_spec (self : ChunkNameEncoder)
    (rows : list (N * N)) (conn : list bool) (n sample_index : Z) :
  _encoded self = Some rows -> _connectivity self = Some conn ->
  encoder_inv self -> connected_has_next rows conn ->
  num_samples self = Ok n -> 0 <= sample_index < n ->
  sample_index < 2 ^ 53 ->
  exists i j,
    (i <= j < length rows)%nat /\
    splits (map last_index_of rows) sample_index i /\
    (forall k, (i <= k < j)%nat ->
               continues rows conn sample_index k = true) /\
    continues rows conn sample_index j = false /\
    get_chunk_names self sample_index =
      Ok (names_between rows i j, seq i (S j - i)).
Proof.
  intros Hrows Hconn Hinv Hnext Hn Hs Hb.
  pose proof Hinv as Hinv'.
  unfold encoder_inv in Hinv'. rewrite Hrows, Hconn in Hinv'.
  destruct Hinv' as (Hne & Hlen & Hsorted).
  unfold get_chunk_names. rewrite Hn. unfold mbind, result_bind.
  destruct (Z.eqb_spec n 0) as [|_]; [lia|].
  destruct (Z.ltb_spec sample_index 0) as [|_]; [lia|].
  rewrite Hrows, Hconn. cbn [attr].
  destruct (searchsorted_splits (map last_index_of rows) sample_index Hsorted)
    as [Hi Hsp]; [lia|].
  set (i := searchsorted (map last_index_of rows) sample_index) in *.
  rewrite length_map in Hi.
  assert (Hi' : (i < length rows)%nat).
  { destruct (Nat.eq_dec i (length rows)) as [Heq|]; [|lia]. exfalso.
    destruct (last rows) as [r|] eqn:Er; [|apply last_None in Er; tauto].
    pose proof Er as Er'. apply last_Some in Er' as [rows' Erows].
    destruct self as [e c]. cbn in Hrows. subst e.
    rewrite Erows in Hn.
    pose proof (last_row_reaches _ _ _ _ _ Hn (proj2 Hs) Hb) as Hreach.
    rewrite last_lookup in Er.
    assert (Hlt : (pred (length rows) < i)%nat)
      by (destruct rows; simpl in *; [tauto | lia]).
    destruct Hsp as [Hbelow _].
    specialize (Hbelow (pred (length rows)) (last_index_of r) Hlt).
    rewrite list_lookup_fmap, Er in Hbelow. specialize (Hbelow eq_refl). lia. }
  destruct (lookup_lt_is_Some_2 rows i Hi') as [r Hr].
  unfold py_nth at 1. rewrite Hr.
  destruct (chunk_names_loop_spec rows conn sample_index Hlen Hnext Hb
              (S (length rows)) i [_chunk_name_from_id (chunk_id_of r)] [i])
    as (j & Hj & Hrun & Hend & Heqn); [lia | lia |].
  exists i, j. repeat split; try lia; try apply Hsp; try assumption.
  rewrite Heqn. unfold names_between.
  rewrite (drop_S rows r i Hr).
  replace (S j - i)%nat with (S (j - i)) by lia. reflexivity.
Qed.

Lemma get_chunk_names_spec_witness :
  let rows := [(10, 1); (11, 1); (12, 4)]%N in
  let conn := [true; true; false] in
  let self := {| _encoded := Some rows; _connectivity := Some conn |} in
  encoder_inv self /\ connected_has_next rows conn /\
  num_samples self = Ok 5 /\ 0 <= 1 < 5 /\ 1 < 2 ^ 53 /\
  get_chunk_names self 1 = Ok (["a"; "b"; "c"]%string, [0; 1; 2]%nat).
Proof.
  intros rows conn self.
  assert (Hinv : encoder_inv self).
  { split; [discriminate|]. split; [reflexivity|].
    unfold nondecreasing. simpl. repeat constructor; lia. }
  assert (Hnext : connected_has_next rows conn).
  { intros [|[|[|k]]] Hk; simpl in *; try discriminate; lia. }
  assert (Hn : num_samples self = Ok 5) by reflexivity.
  assert (Hs : 0 <= 1 < 5) by lia.
  assert (Hb : 1 < 2 ^ 53) by reflexivity.
  repeat (split; [assumption|]).
  destruct (get_chunk_names_spec self rows conn 5 1 eq_refl eq_refl
              Hinv Hnext Hn Hs Hb) as (i & j & _ & _ & _ & _ & Heq).
  reflexivity.
Defined.

(** C5, as the claim states it, fails on encoders that the class builds,
    for an index in range. Right after a first chunk is appended as
    connected to the next one, the loop of [get_chunk_names] follows the
    connection and reads past the last row. And after a first chunk of
    [2^53 + 3] samples [num_samples] is [2^53 + 4], so that the index
    [2^53 + 3] is in range, while the last index is [2^53 + 2]: the search
    finds no chunk for it. *)
Lemma get_chunk_names_raises_in_range :
  (exists self name,
     append_chunk 10 init 1 true = Ok (self, name) /\
     num_samples self = Ok 1 /\
     get_chunk_names self 0 = Raise (IndexError "index is out of bounds")) /\
  (exists self name,
     append_chunk 10 init (2 ^ 53 + 3) false = Ok (self, name) /\
     num_samples self = Ok (2 ^ 53 + 4) /\
     get_chunk_names self (2 ^ 53 + 3)
       = Raise (IndexError "index is out of bounds")).
Proof.
  split.
  - exists {| _encoded := Some [(10, 0)]%N; _connectivity := Some [true] |},
           "a"%string.
    repeat split; vm_compute; reflexivity.
  - exists {| _encoded := Some [(10, 2 ^ 53 + 2)]%N;
              _connectivity := Some [false] |}, "a"%string.
    repeat split; vm_compute; reflexivity.
Qed.

(** A negative [sample_index] counts from the end. *)
Lemma get_chunk_names_negative self n sample_index :
  num_samples self = Ok n -> - n <= sample_index < 0 ->
  get_chunk_names self sample_index = get_chunk_names self (n + sample_index).
Proof.
  intros Hn Hs. unfold get_chunk_names. rewrite Hn. unfold mbind, result_bind.
  destruct (Z.eqb_spec n 0); [reflexivity|].
  destruct (Z.ltb_spec sample_index 0); [|lia].
  destruct (Z.ltb_spec (n + sample_index) 0); [lia | reflexivity].
Qed.

(** **** What [append_chunk] and [extend_chunk] accept, and what they do *)

(** X1. [append_chunk] on a well-formed encoder that holds [k] samples, with
    [k + n < 2^53], succeeds exactly when [n > 0], or [n = 0] and the last
    chunk is marked as connected to the next one. In particular the first
    chunk of an encoder cannot be empty, and a negative [n] is always refused. *)
Theorem append_chunk_accepts (id : N) (self : ChunkNameEncoder) (n : Z)
    (c : bool) (k : Z) :
  encoder_inv self -> num_samples self = Ok k -> k + n < 2 ^ 53 ->
  (is_ok (append_chunk id self n c) <->
   0 < n \/
   (n = 0 /\ exists conn, _connectivity self = Some conn /\
                          last conn = Some true)).
Proof.
  intros Hinv Hk Hb.
  apply encoder_inv_cases in Hinv as [->|(rows & r & conn & b & -> & Hlen & Hs)].
  - injection Hk as <-. rewrite append_chunk_init.
    destruct (Z.ltb_spec n 0) as [Hn|Hn].
    { split; [intros [x Hx]; discriminate | intros [H|(H & _)]; lia]. }
    destruct (Z.eqb_spec n 0) as [Hz|Hz].
    { split; [intros [x Hx]; discriminate|].
      intros [H|(_ & conn & Hc & _)]; [lia | discriminate]. }
    rewrite to_uint64_in_range by lia.
    split; [intros _; left; lia | intros _; eexists; reflexivity].
  - rewrite num_samples_snoc in Hk. injection Hk as Hk.
    pose proof (uint64_add_one_pos (last_index_of r)) as Hpos.
    rewrite append_chunk_snoc, Hk.
    destruct (Z.ltb_spec n 0) as [Hn|Hn].
    { split; [intros [x Hx]; discriminate | intros [H|(H & _)]; lia]. }
    destruct (Z.eqb_spec n 0) as [Hz|Hz]; destruct b; cbn [andb negb].
    + rewrite to_uint64_in_range by lia.
      split; [|intros _; eexists; reflexivity].
      intros _. right. split; [exact Hz|]. eexists. split; [reflexivity|].
      apply last_snoc.
    + split; [intros [x Hx]; discriminate|].
      intros [H|(_ & conn' & [= <-] & Hl)]; [lia|].
      rewrite last_snoc in Hl. discriminate.
    + rewrite to_uint64_in_range by lia.
      split; [intros _; left; lia | intros _; eexists; reflexivity].
    + rewrite to_uint64_in_range by lia.
      split; [intros _; left; lia | intros _; eexists; reflexivity].
Qed.

Lemma append_chunk_accepts_witness :
  let self := {| _encoded := Some [(10, 1)]%N;
                 _connectivity := Some [true] |} in
  is_ok (append_chunk 11 self 0 false) /\
  ~ is_ok (append_chunk 11 init 0 false).
Proof.
  intros self.
  assert (Hinv : encoder_inv self).
  { split; [discriminate|]. split; [reflexivity|].
    unfold nondecreasing. simpl. repeat constructor. }
  split.
  - apply (append_chunk_accepts 11 self 0 false 2 Hinv eq_refl); [lia|].
    right. split; [reflexivity|]. exists [true]. split; reflexivity.
  - intros H.
    apply (append_chunk_accepts 11 init 0 false 0 I eq_refl) in H; [|lia].
    destruct H as [H|(_ & conn & Hc & _)]; [lia | discriminate].
Defined.

Lemma get_name_for_chunk_app rows rows' conn conn' i :
  (i < length rows)%nat ->
  get_name_for_chunk {| _encoded := Some (rows ++ rows');
                        _connectivity := conn' |} i =
  get_name_for_chunk {| _encoded := Some rows; _connectivity := conn |} i.
Proof.
  intros Hi. unfold get_name_for_chunk, py_nth. cbn [_encoded attr].
  unfold_result. rewrite lookup_app_l by exact Hi. reflexivity.
Qed.

(** A successful call takes a count that is not negative. *)
Lemma append_chunk_nonneg id self n c x :
  append_chunk id self n c = Ok x -> 0 <= n.
Proof.
  unfold append_chunk. destruct (Z.ltb_spec n 0); [discriminate | auto].
Qed.

Lemma extend_chunk_pos self n c x : extend_chunk self n c = Ok x -> 0 < n.
Proof.
  unfold extend_chunk. destruct (Z.leb_spec n 0); [discriminate | auto].
Qed.

(** X2. A successful [append_chunk] on a well-formed encoder that holds [k]
    samples, with [k + n < 2^53], adds exactly one chunk, which holds the [n]
    new samples and is named after the id drawn for it: the name it returns is
    the name of that id and the one [get_name_for_chunk] gives for the new
    last chunk, and the chunks that were there keep their names. *)
Theorem append_chunk_effect (id : N) (self self' : ChunkNameEncoder) (n : Z)
    (c : bool) (name : string) (k : Z) :
  encoder_inv self -> num_samples self = Ok k -> k + n < 2 ^ 53 ->
  append_chunk id self n c = Ok (self', name) ->
  name = _chunk_name_from_id id /\
  num_chunks self' = num_chunks self + 1 /\
  num_samples self' = Ok (k + n) /\
  get_name_for_chunk self' (Z.to_nat (num_chunks self)) = Ok name /\
  (forall i, Z.of_nat i < num_chunks self ->
             get_name_for_chunk self' i = get_name_for_chunk self i).
Proof.
  intros Hinv Hk Hb Happ.
  pose proof (append_chunk_nonneg _ _ _ _ _ Happ) as Hn.
  pose proof (num_samples_holds _ _ Hinv Hk ltac:(lia)) as Hh.
  assert (Hle : k + n <= 2 ^ 53) by lia.
  pose proof (append_chunk_inv _ _ _ _ _ _ _ Hinv Hh Hle Happ)
    as (_ & Hinv' & Hh').
  pose proof (holds_num_samples _ _ Hinv' Hh' ltac:(lia)) as Hn'.
  split; [|split; [|split; [exact Hn'|]]];
    apply encoder_inv_cases in Hinv
      as [->|(rows & r & conn & b & -> & Hlen & Hs)].
  - rewrite append_chunk_init in Happ.
    destruct (n <? 0), (n =? 0); try discriminate. unfold_result.
    destruct (to_uint64 (n - 1)); [|discriminate]. congruence.
  - rewrite append_chunk_snoc in Happ.
    destruct (n <? 0), ((n =? 0) && negb b); try discriminate. unfold_result.
    destruct (to_uint64 _); [|discriminate]. congruence.
  - rewrite append_chunk_init in Happ.
    destruct (n <? 0), (n =? 0); try discriminate. unfold_result.
    destruct (to_uint64 (n - 1)); [|discriminate].
    injection Happ as <- _. reflexivity.
  - rewrite append_chunk_snoc in Happ.
    destruct (n <? 0), ((n =? 0) && negb b); try discriminate. unfold_result.
    destruct (to_uint64 _); [|discriminate].
    injection Happ as <- _. unfold num_chunks. cbn [_encoded].
    rewrite (length_app (rows ++ [r])). cbn [length]. lia.
  - rewrite append_chunk_init in Happ.
    destruct (n <? 0), (n =? 0); try discriminate. unfold_result.
    destruct (to_uint64 (n - 1)); [|discriminate].
    injection Happ as <- <-. split; [reflexivity|].
    intros i Hi. cbn in Hi. lia.
  - rewrite append_chunk_snoc in Happ.
    destruct (n <? 0), ((n =? 0) && negb b); try discriminate. unfold_result.
    destruct (to_uint64 _) as [li|]; [|discriminate].
    injection Happ as <- <-. unfold num_chunks. cbn [_encoded].
    rewrite Nat2Z.id. split.
    + unfold get_name_for_chunk, py_nth. cbn [_encoded attr]. unfold_result.
      rewrite list_lookup_middle by reflexivity. reflexivity.
    + intros i Hi. apply get_name_for_chunk_app. lia.
Qed.

Lemma append_chunk_effect_witness :
  let self := {| _encoded := Some [(10, 1)]%N;
                 _connectivity := Some [false] |} in
  let self' := {| _encoded := Some [(10, 1); (255, 4)]%N;
                  _connectivity := Some [false; true] |} in
  append_chunk 255 self 3 true = Ok (self', "ff"%string) /\
  num_chunks self' = 2 /\ num_samples self' = Ok 5 /\
  get_name_for_chunk self' 1 = Ok "ff"%string.
Proof.
  intros self self'.
  assert (Hinv : encoder_inv self).
  { split; [discriminate|]. split; [reflexivity|].
    unfold nondecreasing. simpl. repeat constructor. }
  assert (Happ : append_chunk 255 self 3 true = Ok (self', "ff"%string))
    by reflexivity.
  assert (Hb : 2 + 3 < 2 ^ 53) by lia.
  destruct (append_chunk_effect 255 self self' 3 true "ff" 2 Hinv eq_refl
              Hb Happ) as (_ & Hc & Hn & Hname & _).
  repeat split; assumption.
Defined.



(** X4. A successful [extend_chunk] on a well-formed encoder that holds [k]
    samples, with [k + n < 2^53], adds the [n] samples to the last chunk and
    creates none: the number of chunks and every chunk name stay what they
    were, the name returned is that of the last chunk, and the connectivity of
    the last chunk becomes the flag given. *)
Theorem extend_chunk_effect (self self' : ChunkNameEncoder) (n : Z)
    (c : bool) (name : string) (k : Z) :
  encoder_inv self -> num_samples self = Ok k -> k + n < 2 ^ 53 ->
  extend_chunk self n c = Ok (self', name) ->
  num_chunks self' = num_chunks self /\
  num_samples self' = Ok (k + n) /\
  get_name_for_chunk self (Z.to_nat (num_chunks self - 1)) = Ok name /\
  (forall i, get_name_for_chunk self' i = get_name_for_chunk self i) /\
  exists conn, _connectivity self' = Some conn /\ last conn = Some c.
Proof.
  intros Hinv Hk Hb Hext.
  pose proof (extend_chunk_pos _ _ _ _ Hext) as Hn.
  pose proof (num_samples_holds _ _ Hinv Hk ltac:(lia)) as Hh.
  assert (Hle : k + n <= 2 ^ 53) by lia.
  pose proof (extend_chunk_inv _ _ _ _ _ _ Hinv Hh Hle Hext)
    as (_ & Hinv' & Hh').
  pose proof (holds_num_samples _ _ Hinv' Hh' ltac:(lia)) as Hn'.
  apply encoder_inv_cases in Hinv as [->|(rows & r & conn & b & -> & Hlen & Hs)].
  { unfold extend_chunk in Hext. destruct (n <=? 0); discriminate. }
  rewrite extend_chunk_snoc in Hext.
  destruct (n <=? 0), b; try discriminate. unfold_result.
  destruct (uint64_iadd_int _ _) as [li|]; [|discriminate].
  injection Hext as <- <-.
  split; [|split; [exact Hn'|split; [|split]]].
  - unfold num_chunks. cbn [_encoded]. rewrite !length_app. reflexivity.
  - unfold num_chunks. cbn [_encoded]. rewrite length_app. cbn [length].
    replace (Z.to_nat (Z.of_nat (length rows + 1) - 1)) with (length rows)
      by lia.
    unfold get_name_for_chunk, py_nth. cbn [_encoded attr]. unfold_result.
    rewrite list_lookup_middle by reflexivity. reflexivity.
  - intros i. unfold get_name_for_chunk, py_nth. cbn [_encoded attr].
    unfold_result.
    destruct (decide (i < length rows)%nat) as [Hi|Hi].
    + rewrite !lookup_app_l by exact Hi. reflexivity.
    + rewrite !lookup_app_r by lia.
      destruct (i - length rows)%nat as [|[|j]]; reflexivity.
  - eexists. split; [reflexivity | apply last_snoc].
Qed.

Lemma extend_chunk_effect_witness :
  let self := {| _encoded := Some [(10, 1); (255, 4)]%N;
                 _connectivity := Some [true; false] |} in
  let self' := {| _encoded := Some [(10, 1); (255, 6)]%N;
                  _connectivity := Some [true; true] |} in
  extend_chunk self 2 true = Ok (self', "ff"%string) /\
  num_chunks self' = 2 /\ num_samples self' = Ok 7.
Proof.
  intros self self'.
  assert (Hinv : encoder_inv self).
  { split; [discriminate|]. split; [reflexivity|].
    unfold nondecreasing. simpl. repeat constructor; lia. }
  assert (Hext : extend_chunk self 2 true = Ok (self', "ff"%string))
    by reflexivity.
  assert (Hb : 5 + 2 < 2 ^ 53) by lia.
  destruct (extend_chunk_effect self self' 2 true "ff" 5 Hinv eq_refl
              Hb Hext) as (Hc & Hn & _).
  repeat split; assumption.
Defined.

Lemma run_op_chunks self o self' :
  encoder_inv self -> run_op self o = Ok self' ->
  num_chunks self' = num_chunks self + (if is_append o then 1 else 0).
Proof.
  intros Hinv Hrun.
  apply encoder_inv_cases in Hinv as [->|(rows & r & conn & b & -> & Hlen & Hs)];
    destruct o as [id n c|n c]; cbn [run_op is_append] in *; unfold_result.
  - rewrite append_chunk_init in Hrun.
    destruct (n <? 0), (n =? 0); try discriminate. unfold_result.
    destruct (to_uint64 (n - 1)); [|discriminate].
    injection Hrun as <-. reflexivity.
  - unfold extend_chunk in Hrun. destruct (n <=? 0); discriminate.
  - rewrite append_chunk_snoc in Hrun.
    destruct (n <? 0), ((n =? 0) && negb b); try discriminate. unfold_result.
    destruct (to_uint64 _); [|discriminate].
    injection Hrun as <-. unfold num_chunks. cbn [_encoded].
    rewrite (length_app (rows ++ [r])). cbn [length]. lia.
  - rewrite extend_chunk_snoc in Hrun.
    destruct (n <=? 0), b; try discriminate. unfold_result.
    destruct (uint64_iadd_int _ _); [|discriminate].
    injection Hrun as <-.
    unfold num_chunks. cbn [_encoded]. rewrite !length_app. cbn [length]. lia.
Qed.

Lemma run_ops_chunks ops : forall self self' k,
  encoder_inv self -> holds self k ->
  run_ops self ops = Ok self' ->
  k + total_samples ops <= 2 ^ 53 ->
  num_chunks self' = num_chunks self + count_appends ops.
Proof.
  induction ops as [|o ops IH]; intros self self' k Hinv Hk Hrun Hb.
  - injection Hrun as <-. unfold count_appends. cbn. lia.
  - cbn [run_ops] in Hrun. unfold_result.
    destruct (run_op self o) as [self1|] eqn:E1; [|discriminate].
    pose proof (run_ops_nonneg _ _ _ Hrun) as Hnn.
    change (total_samples (o :: ops))
      with (op_samples o + total_samples ops) in *.
    destruct (run_op_inv _ _ _ _ Hinv Hk E1) as [Hinv1 Hk1]; [lia|].
    rewrite (IH _ _ _ Hinv1 Hk1 Hrun) by lia.
    rewrite (run_op_chunks _ _ _ Hinv E1).
    unfold count_appends. cbn [List.filter].
    destruct (is_append o); cbn [length]; lia.
Qed.

(** X5. After a history of successful [append_chunk] and [extend_chunk]
    calls on a new encoder that adds at most [2^53] samples, [num_samples]
    is the sum of the sample counts passed to the calls and [num_chunks] is
    the number of [append_chunk] calls. *)
Theorem encoder_history_totals (ops : list op) (self : ChunkNameEncoder) :
  run_ops init ops = Ok self ->
  total_samples ops <= 2 ^ 53 ->
  num_samples self = Ok (total_samples ops) /\
  num_chunks self = count_appends ops.
Proof.
  intros Hrun Hb. split.
  - destruct (run_ops_inv ops init self 0 I holds_init Hrun) as [Hinv Hk];
      [lia|].
    apply holds_num_samples; assumption.
  - rewrite (run_ops_chunks ops init self 0 I holds_init Hrun); [reflexivity|].
    lia.
Qed.

Lemma encoder_history_totals_witness :
  let ops := [AppendChunk 10 2 true; AppendChunk 11 0 false;
              ExtendChunk 3 false] in
  exists self,
    run_ops init ops = Ok self /\
    num_samples self = Ok 5 /\ num_chunks self = 2.
Proof.
  intros ops.
  exists {| _encoded := Some [(10, 1); (11, 4)]%N;
            _connectivity := Some [true; false] |}.
  assert (Hrun : run_ops init ops =
                 Ok {| _encoded := Some [(10, 1); (11, 4)]%N;
                       _connectivity := Some [true; false] |})
    by reflexivity.
  split; [exact Hrun|].
  apply (encoder_history_totals ops _ Hrun). vm_compute. discriminate.
Defined.

(** **** The bounds of [get_chunk_names] *)

Lemma uint64_lt_int_small x v :
  Z.of_N x < 2 ^ 53 -> Z.of_N x < v -> uint64_lt_int x v = true.
Proof.
  intros Hx Hv. unfold uint64_lt_int.
  destruct (dtype_of_int v); try (apply Z.ltb_lt; exact Hv).
  apply Z.ltb_lt. rewrite (float64_exact (Z.of_N x)) by lia.
  destruct (Z.le_gt_cases v (2 ^ 53)).
  - rewrite float64_exact by lia. exact Hv.
  - pose proof (float64_large v ltac:(lia)). lia.
Qed.

Section chunk_names_bounds.
Variables (self : ChunkNameEncoder) (rows : list (N * N)) (conn : list bool).
Variable n : Z.
Hypothesis Hrows : _encoded self = Some rows.
Hypothesis Hconn : _connectivity self = Some conn.
Hypothesis Hinv : encoder_inv self.
Hypothesis Hn : num_samples self = Ok n.
Hypothesis Hsmall : n < 2 ^ 53.

Lemma num_samples_last :
  exists r, last rows = Some r /\ n = Z.of_N (last_index_of r) + 1.
Proof.
  pose proof (num_samples_holds _ _ Hinv Hn Hsmall) as Hh.
  unfold encoder_inv in Hinv. rewrite Hrows, Hconn in Hinv.
  destruct Hinv as (Hne & _ & _).
  unfold holds, last_sample_index in Hh. rewrite Hrows in Hh.
  destruct (last rows) as [r|] eqn:Er; [|apply last_None in Er; tauto].
  cbn in Hh. eauto.
Qed.

Lemma rows_below_num_samples i r :
  rows !! i = Some r -> Z.of_N (last_index_of r) < n.
Proof.
  intros Hr. destruct num_samples_last as (r' & Hlast & ->).
  unfold encoder_inv in Hinv. rewrite Hrows, Hconn in Hinv.
  destruct Hinv as (_ & _ & Hsorted).
  rewrite last_lookup in Hlast.
  pose proof (lookup_lt_Some _ _ _ Hr) as Hi.
  assert (last_index_of r <= last_index_of r')%N; [|lia].
  apply (nondecreasing_lookup (map last_index_of rows) i (pred (length rows)));
    [exact Hsorted | lia | |]; rewrite list_lookup_fmap.
  - rewrite Hr. reflexivity.
  - rewrite Hlast. reflexivity.
Qed.

(** The index that [get_chunk_names] searches for. *)
Let wrapped (s : Z) : Z := if s <? 0 then n + s else s.

Lemma get_chunk_names_found s :
  connected_has_next rows conn -> wrapped s < n ->
  exists i j,
    (i <= j < length rows)%nat /\
    splits (map last_index_of rows) (wrapped s) i /\
    get_chunk_names self s = Ok (names_between rows i j, seq i (S j - i)).
Proof.
  intros Hnext Hs.
  destruct num_samples_last as (rl & Hlast & Hnl).
  pose proof Hinv as Hinv'. unfold encoder_inv in Hinv'.
  rewrite Hrows, Hconn in Hinv'. destruct Hinv' as (Hne & Hlen & Hsorted).
  unfold get_chunk_names. rewrite Hn. unfold mbind, result_bind.
  destruct (Z.eqb_spec n 0) as [|_]; [lia|].
  fold (wrapped s). rewrite Hrows, Hconn. cbn [attr].
  destruct (searchsorted_splits (map last_index_of rows) (wrapped s) Hsorted)
    as [Hi Hsp]; [lia|].
  set (i := searchsorted (map last_index_of rows) (wrapped s)) in *.
  rewrite length_map in Hi.
  assert (Hi' : (i < length rows)%nat).
  { destruct (Nat.eq_dec i (length rows)) as [Heq|]; [|lia]. exfalso.
    rewrite last_lookup in Hlast.
    assert (Hlt : (pred (length rows) < i)%nat)
      by (destruct rows; simpl in *; [tauto | lia]).
    destruct Hsp as [Hbelow _].
    specialize (Hbelow (pred (length rows)) (last_index_of rl) Hlt).
    rewrite list_lookup_fmap, Hlast in Hbelow. specialize (Hbelow eq_refl).
    lia. }
  destruct (lookup_lt_is_Some_2 rows i Hi') as [r Hr].
  unfold py_nth at 1. rewrite Hr.
  destruct (chunk_names_loop_spec rows conn (wrapped s) Hlen Hnext
              ltac:(lia) (S (length rows)) i
              [_chunk_name_from_id (chunk_id_of r)] [i])
    as (j & Hj & _ & _ & Heqn); [lia | lia |].
  exists i, j. split; [lia|]. split; [exact Hsp|].
  rewrite Heqn. unfold names_between.
  rewrite (drop_S rows r i Hr).
  replace (S j - i)%nat with (S (j - i)) by lia. reflexivity.
Qed.

Lemma get_chunk_names_beyond s :
  n <= s ->
  get_chunk_names self s = Raise (IndexError "index is out of bounds").
Proof.
  intros Hs. destruct num_samples_last as (rl & Hlast & Hnl).
  pose proof Hinv as Hinv'. unfold encoder_inv in Hinv'.
  rewrite Hrows, Hconn in Hinv'. destruct Hinv' as (Hne & Hlen & Hsorted).
  unfold get_chunk_names. rewrite Hn. unfold mbind, result_bind.
  destruct (Z.eqb_spec n 0) as [|_]; [lia|].
  destruct (Z.ltb_spec s 0) as [|_]; [lia|].
  rewrite Hrows, Hconn. cbn [attr].
  destruct (searchsorted_spec (map last_index_of rows) s Hsorted)
    as [Hi [_ Habove]].
  set (i := searchsorted (map last_index_of rows) s) in *.
  unfold py_nth. destruct (rows !! i) as [r|] eqn:Hr; [|reflexivity].
  exfalso. pose proof (rows_below_num_samples i r Hr).
  specialize (Habove i (last_index_of r) (Nat.le_refl i)).
  rewrite list_lookup_fmap, Hr in Habove. specialize (Habove eq_refl).
  rewrite uint64_lt_int_small in Habove by lia. discriminate.
Qed.

End chunk_names_bounds.

Lemma names_at_indices self rows m : forall i,
  _encoded self = Some rows ->
  (i + m <= length rows)%nat ->
  Forall2 (fun name idx => get_name_for_chunk self idx = Ok name)
    (map (fun r => _chunk_name_from_id (chunk_id_of r)) (take m (drop i rows)))
    (seq i m).
Proof.
  induction m as [|m IH]; intros i Hrows Hi; [rewrite take_0; constructor|].
  destruct (lookup_lt_is_Some_2 rows i) as [r Hr]; [lia|].
  rewrite (drop_S rows r i Hr). cbn [take map seq]. constructor.
  - unfold get_name_for_chunk, py_nth. rewrite Hrows. cbn [attr].
    unfold mbind, result_bind. rewrite Hr. reflexivity.
  - apply IH; [exact Hrows | lia].
Qed.

(** X6. On a non-empty encoder with fewer than [2^53] samples, with
    non-decreasing last indices and one connectivity flag per chunk, in
    which every chunk that is marked as connected has a successor,
    [get_chunk_names] answers exactly for the indices below [num_samples]:
    from [num_samples] on it raises [IndexError], while every negative index
    is answered, also one below [-num_samples]. *)
Theorem get_chunk_names_accepts (self : ChunkNameEncoder)
    (rows : list (N * N)) (conn : list bool) (n sample_index : Z) :
  _encoded self = Some rows -> _connectivity self = Some conn ->
  encoder_inv self -> connected_has_next rows conn ->
  num_samples self = Ok n -> n < 2 ^ 53 ->
  (is_ok (get_chunk_names self sample_index) <-> sample_index < n).
Proof.
  intros Hrows Hconn Hinv Hnext Hn Hsmall. split.
  - intros [x Hx]. destruct (Z.lt_ge_cases sample_index n) as [|Hge]; [assumption|].
    rewrite (get_chunk_names_beyond self rows conn n Hrows Hconn Hinv Hn Hsmall)
      in Hx by exact Hge.
    discriminate.
  - intros Hs.
    destruct (get_chunk_names_found self rows conn n Hrows Hconn Hinv Hn
                Hsmall sample_index Hnext) as (i & j & _ & _ & ->).
    + destruct (Z.ltb_spec sample_index 0); lia.
    + eexists. reflexivity.
Qed.

Lemma get_chunk_names_accepts_witness :
  let rows := [(10, 1); (11, 1); (12, 4)]%N in
  let conn := [true; true; false] in
  let self := {| _encoded := Some rows; _connectivity := Some conn |} in
  is_ok (get_chunk_names self 4) /\ is_ok (get_chunk_names self (-9)) /\
  ~ is_ok (get_chunk_names self 5).
Proof.
  intros rows conn self.
  assert (Hinv : encoder_inv self).
  { split; [discriminate|]. split; [reflexivity|].
    unfold nondecreasing. simpl. repeat constructor; lia. }
  assert (Hnext : connected_has_next rows conn).
  { intros [|[|[|k]]] Hk; simpl in *; try discriminate; lia. }
  assert (Hsmall : 5 < 2 ^ 53) by reflexivity.
  pose proof (fun s => get_chunk_names_accepts self rows conn 5 s eq_refl
                         eq_refl Hinv Hnext eq_refl Hsmall) as H.
  split; [apply H; lia|]. split; [apply H; lia|].
  intros H5. apply H in H5. lia.
Defined.

(** X7. Whenever [get_chunk_names(sample_index, return_indices=True)]
    returns, its answer is consistent with [get_name_for_chunk]: the indices
    are consecutive chunk indices in ascending order, there is at least one,
    all are below [num_chunks], and each name is the one
    [get_name_for_chunk] gives for the index at the same position. *)
Theorem get_chunk_names_indices (self : ChunkNameEncoder) (sample_index : Z)
    (names : list string) (indices : list nat) :
  get_chunk_names self sample_index = Ok (names, indices) ->
  exists i,
    indices = seq i (length names) /\ (0 < length names)%nat /\
    Z.of_nat (i + length names) <= num_chunks self /\
    Forall2 (fun name idx => get_name_for_chunk self idx = Ok name)
      names indices.
Proof.
  intros Hget.
  apply get_chunk_names_run in Hget
    as (rows & conn & n & i & m & Hrows & _ & _ & _ & Hm & -> & ->).
  assert (Hlen : length (map (fun r => _chunk_name_from_id (chunk_id_of r))
                             (take (S m) (drop i rows))) = S m).
  { rewrite length_map, length_take, length_drop. lia. }
  exists i. rewrite Hlen. split; [reflexivity|]. split; [lia|].
  unfold num_chunks. rewrite Hrows. split; [lia|].
  apply names_at_indices; [exact Hrows | lia].
Qed.

Lemma get_chunk_names_indices_witness :
  let rows := [(10, 1); (11, 1); (12, 4)]%N in
  let conn := [true; true; false] in
  let self := {| _encoded := Some rows; _connectivity := Some conn |} in
  get_chunk_names self 1 = Ok (["a"; "b"; "c"]%string, [0; 1; 2]%nat) /\
  Forall2 (fun name idx => get_name_for_chunk self idx = Ok name)
    ["a"; "b"; "c"]%string [0; 1; 2]%nat.
Proof.
  intros rows conn self.
  assert (Hget : get_chunk_names self 1 =
                 Ok (["a"; "b"; "c"]%string, [0; 1; 2]%nat)) by reflexivity.
  split; [exact Hget|].
  destruct (get_chunk_names_indices self 1 _ _ Hget) as (i & _ & _ & _ & Hall).
  exact Hall.
Defined.

Lemma dangling_raises (R : list (N * N)) (C : list bool) (id li : N) :
  length C = length R ->
  nondecreasing (R ++ [(id, li)]) ->
  (forall i r, R !! i = Some r -> (last_index_of r < li)%N) ->
  Z.of_N li < 2 ^ 53 ->
  get_chunk_names {| _encoded := Some (R ++ [(id, li)]);
                     _connectivity := Some (C ++ [true]) |} (Z.of_N li)
    = Raise (IndexError "index is out of bounds").
Proof.
  intros Hlen Hsorted Hbelow Hli. unfold get_chunk_names.
  rewrite num_samples_snoc. unfold mbind, result_bind. cbn [last_index_of snd].
  pose proof (uint64_add_one_pos li).
  destruct (Z.eqb_spec (uint64_add_int li 1) 0) as [|_]; [lia|].
  destruct (Z.ltb_spec (Z.of_N li) 0) as [|_]; [lia|].
  cbn [_encoded _connectivity attr].
  rewrite (searchsorted_at _ (Z.of_N li) (length R) li Hsorted).
  - unfold py_nth at 1. rewrite list_lookup_middle by reflexivity.
    cbn [chunk_names_loop]. unfold py_nth, mbind, result_bind.
    rewrite list_lookup_middle by reflexivity. cbn [last_index_of snd].
    rewrite uint64_eq_int_exact by exact Hli.
    rewrite Z.eqb_refl, list_lookup_middle by (symmetry; exact Hlen).
    rewrite lookup_ge_None_2; [reflexivity|].
    rewrite length_app. cbn. lia.
  - rewrite map_app. apply list_lookup_middle. rewrite length_map. reflexivity.
  - rewrite uint64_lt_int_exact by lia. apply Z.ltb_irrefl.
  - intros k y Hk Hy. rewrite list_lookup_fmap in Hy.
    rewrite lookup_app_l in Hy by exact Hk.
    destruct (R !! k) as [r|] eqn:Hr; [|discriminate].
    injection Hy as <-. pose proof (Hbelow k r Hr).
    rewrite uint64_lt_int_exact by lia. apply Z.ltb_lt. lia.
Qed.

Lemma rows_at_most_last rows r i r0 :
  nondecreasing (rows ++ [r]) -> (rows ++ [r]) !! i = Some r0 ->
  (last_index_of r0 <= last_index_of r)%N.
Proof.
  intros Hs Hr0.
  apply (nondecreasing_lookup (map last_index_of (rows ++ [r])) i
           (length rows)); [exact Hs | | |].
  - apply lookup_lt_Some in Hr0. rewrite length_app in Hr0. cbn in Hr0. lia.
  - rewrite list_lookup_fmap, Hr0. reflexivity.
  - rewrite list_lookup_fmap, list_lookup_middle by reflexivity. reflexivity.
Qed.

(** What a successful [append_chunk] makes of an encoder with chunks that
    holds [k] samples, [k + n <= 2^53]. *)
Lemma append_chunk_rows id rows r conn b n c self' name :
  Z.of_N (last_index_of r) + 1 + n <= 2 ^ 53 ->
  append_chunk id {| _encoded := Some (rows ++ [r]);
                     _connectivity := Some (conn ++ [b]) |} n c
    = Ok (self', name) ->
  0 <= n /\ name = _chunk_name_from_id id /\
  self' = {| _encoded :=
               Some ((rows ++ [r]) ++
                     [(id, Z.to_N (Z.of_N (last_index_of r) + n))]);
             _connectivity := Some ((conn ++ [b]) ++ [c]) |}.
Proof.
  intros Hb Happ. pose proof (append_chunk_nonneg _ _ _ _ _ Happ) as Hn.
  rewrite append_chunk_snoc in Happ.
  destruct (Z.ltb_spec n 0); [lia|].
  destruct ((n =? 0) && negb b); [discriminate|].
  rewrite uint64_add_one_exact in Happ by lia.
  rewrite to_uint64_in_range in Happ by lia.
  replace (Z.of_N (last_index_of r) + 1 - 1 + n)
    with (Z.of_N (last_index_of r) + n) in Happ by lia.
  injection Happ as <- <-. auto.
Qed.

(** X8. Right after a chunk with [n > 0] samples is appended as connected to
    the next one to a well-formed encoder that holds [k] samples, [k + n <
    2^53], [get_chunk_names] cannot answer for the last sample: its loop
    follows the connection to a chunk that is not there yet and raises
    [IndexError]. *)
Theorem get_chunk_names_open_connection (id : N)
    (self self' : ChunkNameEncoder) (n k : Z) (name : string) :
  encoder_inv self -> num_samples self = Ok k -> k + n < 2 ^ 53 -> 0 < n ->
  append_chunk id self n true = Ok (self', name) ->
  get_chunk_names self' (k + n - 1)
    = Raise (IndexError "index is out of bounds").
Proof.
  intros Hinv Hk Hb Hn Happ.
  pose proof (num_samples_holds _ _ Hinv Hk ltac:(lia)) as Hh.
  assert (Hle : k + n <= 2 ^ 53) by lia.
  pose proof (append_chunk_inv _ _ _ _ _ _ _ Hinv Hh Hle Happ)
    as (_ & Hinv' & _).
  apply encoder_inv_cases in Hinv as [->|(rows & r & conn & b & -> & Hlen & Hs)].
  - injection Hk as <-. rewrite append_chunk_init in Happ.
    destruct (Z.ltb_spec n 0); [lia|]. destruct (Z.eqb_spec n 0); [lia|].
    rewrite to_uint64_in_range in Happ by lia.
    injection Happ as <- _.
    replace (0 + n - 1) with (Z.of_N (Z.to_N (n - 1))) by lia.
    apply (dangling_raises [] []);
      [reflexivity | | intros i r0 Hr0; discriminate | lia].
    unfold nondecreasing. simpl. repeat constructor.
  - apply holds_snoc in Hh.
    apply append_chunk_rows in Happ as (_ & _ & ->); [|lia].
    unfold encoder_inv in Hinv'. cbn [_encoded _connectivity] in Hinv'.
    destruct Hinv' as (_ & _ & Hsorted').
    replace (k + n - 1)
      with (Z.of_N (Z.to_N (Z.of_N (last_index_of r) + n))) by lia.
    apply dangling_raises.
    + rewrite !length_app. cbn. lia.
    + exact Hsorted'.
    + intros i r0 Hr0. pose proof (rows_at_most_last rows r i r0 Hs Hr0). lia.
    + lia.
Qed.

Lemma get_chunk_names_open_connection_witness :
  let self := {| _encoded := Some [(10, 1)]%N;
                 _connectivity := Some [false] |} in
  exists self',
    append_chunk 11 self 3 true = Ok (self', "b"%string) /\
    get_chunk_names self' 4 = Raise (IndexError "index is out of bounds") /\
    is_ok (get_chunk_names self' 1).
Proof.
  intros self.
  assert (Hinv : encoder_inv self).
  { split; [discriminate|]. split; [reflexivity|].
    unfold nondecreasing. simpl. repeat constructor. }
  eexists. split; [reflexivity|]. split.
  - apply (get_chunk_names_open_connection 11 self _ 3 2 "b" Hinv eq_refl);
      [lia | lia | reflexivity].
  - eexists. reflexivity.
Defined.

(** X9. On an encoder with non-decreasing last indices, for the first chunk
    index [i] that [get_chunk_names] returns for a sample
    [0 <= s < 2^53], [get_local_sample_index(s, i)] is [s] itself when
    [i = 0], and otherwise [s] minus the last index of chunk [i - 1], a
    value between 1 and the number of samples that end in chunk [i]: local
    indices count from 0 in the first chunk and from 1 in the others. *)
Theorem local_sample_index_range (self : ChunkNameEncoder)
    (rows : list (N * N)) (s : Z)
    (names : list string) (i : nat) (rest : list nat) :
  _encoded self = Some rows -> nondecreasing rows -> 0 <= s < 2 ^ 53 ->
  get_chunk_names self s = Ok (names, i :: rest) ->
  exists l cur,
    get_local_sample_index self s i = Ok l /\
    rows !! i = Some cur /\
    match i with
    | O => l = s /\ l <= Z.of_N (last_index_of cur)
    | S p =>
        exists prev,
          rows !! p = Some prev /\
          l = s - Z.of_N (last_index_of prev) /\
          1 <= l <= Z.of_N (last_index_of cur) - Z.of_N (last_index_of prev)
    end.
Proof.
  intros Hrows Hsorted Hs Hget.
  apply get_chunk_names_run in Hget
    as (rows' & conn & n & i' & m & Hrows' & _ & _ & Hi & Hm & _ & Hseq).
  rewrite Hrows in Hrows'. injection Hrows' as <-.
  cbn [seq] in Hseq. injection Hseq as -> _.
  destruct (Z.ltb_spec s 0) as [|_]; [lia|].
  destruct (searchsorted_splits (map last_index_of rows) s Hsorted)
    as [_ [Hlo Hhi]]; [lia|].
  rewrite <- Hi in Hlo, Hhi. clear Hi.
  destruct (lookup_lt_is_Some_2 rows i') as [cur Hcur]; [lia|].
  assert (Hc : s <= Z.of_N (last_index_of cur)).
  { apply (Hhi i'); [lia|]. rewrite list_lookup_fmap, Hcur. reflexivity. }
  unfold get_local_sample_index.
  destruct (Z.ltb_spec s 0) as [|_]; [lia|].
  destruct i' as [|p].
  - exists s, cur. split; [reflexivity|]. split; [exact Hcur|].
    split; [reflexivity | exact Hc].
  - destruct (lookup_lt_is_Some_2 rows p) as [prev Hprev]; [lia|].
    assert (Hp : Z.of_N (last_index_of prev) < s).
    { apply (Hlo p); [lia|]. rewrite list_lookup_fmap, Hprev. reflexivity. }
    exists (s - Z.of_N (last_index_of prev)), cur.
    rewrite Hrows. cbn [attr]. unfold mbind, result_bind, py_nth.
    rewrite Hprev, int_sub_uint64_exact by lia.
    split; [reflexivity|]. split; [exact Hcur|].
    exists prev. split; [reflexivity|]. split; [reflexivity | lia].
Qed.

Lemma local_sample_index_range_witness :
  let rows := [(10, 1); (11, 1); (12, 4)]%N in
  let conn := [true; true; false] in
  let self := {| _encoded := Some rows; _connectivity := Some conn |} in
  get_chunk_names self 2 = Ok (["c"]%string, [2%nat]) /\
  get_local_sample_index self 2 2 = Ok 1.
Proof.
  intros rows conn self.
  assert (Hsorted : nondecreasing rows).
  { unfold nondecreasing. simpl. repeat constructor; lia. }
  assert (Hget : get_chunk_names self 2 = Ok (["c"]%string, [2%nat]))
    by reflexivity.
  assert (Hs : 0 <= 2 < 2 ^ 53) by (split; [lia | reflexivity]).
  split; [exact Hget|].
  destruct (local_sample_index_range self rows 2 _ _ _ eq_refl Hsorted Hs Hget)
    as (l & cur & Hl & _ & prev & [= <-] & -> & _).
  exact Hl.
Defined.

(** **** Names as storage keys *)

Lemma str_length_app (s1 s2 : string) :
  String.length (s1 ++ s2) = (String.length s1 + String.length s2)%nat.
Proof. induction s1 as [|c s1 IH]; simpl; [reflexivity | rewrite IH; reflexivity]. Qed.

Lemma hex_digits_fuel_length fuel : forall n k,
  (n < 16 ^ N.of_nat k)%N -> (1 <= k)%nat ->
  (String.length (hex_digits_fuel fuel n) <= k)%nat.
Proof.
  induction fuel as [|fuel IH]; intros n k Hn Hk; [simpl; lia|].
  cbn [hex_digits_fuel]. destruct (N.ltb_spec n 16) as [Hlt|Hge].
  - simpl. lia.
  - rewrite str_length_app. cbn [String.length].
    destruct k as [|[|k]]; [lia | simpl in Hn; lia |].
    assert (String.length (hex_digits_fuel fuel (n / 16)) <= S k)%nat; [|lia].
    apply IH; [|lia].
    apply N.Div0.div_lt_upper_bound.
    rewrite (Nat2N.inj_succ (S k)), N.pow_succ_r' in Hn. exact Hn.
Qed.

(** X10. The names of 64-bit chunk ids are usable as keys: a name has
    between 1 and 16 characters, and two different ids never get the same
    name. *)
Theorem chunk_names_short_and_distinct (id1 id2 : N) :
  is_uint64 id1 -> is_uint64 id2 ->
  (1 <= String.length (_chunk_name_from_id id1) <= 16)%nat /\
  (_chunk_name_from_id id1 = _chunk_name_from_id id2 -> id1 = id2).
Proof.
  intros H1 _. split; [|apply chunk_name_injective].
  rewrite name_is_digits. split.
  - pose proof (hex_digits_fuel_nonempty (N.to_nat (N.log2 id1)) id1) as Hne.
    fold (hex_digits id1) in Hne. destruct (hex_digits id1); simpl; [tauto | lia].
  - apply hex_digits_fuel_length; [|lia].
    unfold is_uint64, uint64_max, CHUNK_ID_BITS in H1.
    change (16 ^ N.of_nat 16)%N with (2 ^ 64)%N. lia.
Qed.

Lemma chunk_names_short_and_distinct_witness :
  is_uint64 uint64_max /\
  String.length (_chunk_name_from_id uint64_max) = 16%nat /\
  (_chunk_name_from_id uint64_max = _chunk_name_from_id 15 ->
   uint64_max = 15%N).
Proof.
  assert (H1 : is_uint64 uint64_max) by (unfold is_uint64; lia).
  assert (H2 : is_uint64 15) by (vm_compute; discriminate).
  split; [exact H1|]. split; [reflexivity|].
  exact (proj2 (chunk_names_short_and_distinct uint64_max 15 H1 H2)).
Defined.

(** X11. [_generate_chunk_id] keeps the upper 64 bits of the 128-bit
    integer of the uuid: the shift by [CHUNK_ID_BITS] always leaves a value
    that the conversion to [np.uint64] accepts. *)
Theorem generate_chunk_id_in_range (uuid : N) :
  (uuid < 2 ^ 128)%N ->
  exists id, _generate_chunk_id uuid = Ok id /\ is_uint64 id /\
             id = (uuid / 2 ^ 64)%N.
Proof.
  intros Hu. exists (uuid / 2 ^ 64)%N.
  assert (Hlt : (uuid / 2 ^ 64 < 2 ^ 64)%N).
  { apply N.Div0.div_lt_upper_bound. change (2 ^ 64 * 2 ^ 64)%N with (2 ^ 128)%N.
    exact Hu. }
  split; [|split; [|reflexivity]].
  - unfold _generate_chunk_id, CHUNK_ID_BITS. rewrite N.shiftr_div_pow2.
    rewrite to_uint64_in_range; [rewrite N2Z.id; reflexivity|].
    pose proof (proj1 (N2Z.inj_lt _ _) Hlt) as Hz.
    change (Z.of_N (2 ^ 64)) with (2 ^ 64) in Hz.
    split; [apply N2Z.is_nonneg | exact Hz].
  - unfold is_uint64, uint64_max, CHUNK_ID_BITS. lia.
Qed.

Lemma generate_chunk_id_in_range_witness :
  _generate_chunk_id (2 ^ 128 - 1) = Ok uint64_max.
Proof.
  assert (Hu : (2 ^ 128 - 1 < 2 ^ 128)%N) by (vm_compute; reflexivity).
  destruct (generate_chunk_id_in_range (2 ^ 128 - 1) Hu) as (id & -> & _ & ->).
  reflexivity.
Defined.


(** **** Looking up the samples that a call added *)

Lemma found_in_last_chunk (R : list (N * N)) (C : list bool) (id li : N)
    (c : bool) (s : Z) :
  length C = length R ->
  nondecreasing (R ++ [(id, li)]) ->
  (forall i r, R !! i = Some r -> Z.of_N (last_index_of r) < s) ->
  0 <= s <= Z.of_N li -> (s = Z.of_N li -> c = false) -> s < 2 ^ 53 ->
  get_chunk_names {| _encoded := Some (R ++ [(id, li)]);
                     _connectivity := Some (C ++ [c]) |} s
    = Ok ([_chunk_name_from_id id], [length R]).
Proof.
  intros Hlen Hsorted Hbelow Hs Hc Hb. unfold get_chunk_names.
  rewrite num_samples_snoc. unfold mbind, result_bind. cbn [last_index_of snd].
  pose proof (uint64_add_one_pos li).
  destruct (Z.eqb_spec (uint64_add_int li 1) 0) as [|_]; [lia|].
  destruct (Z.ltb_spec s 0) as [|_]; [lia|].
  cbn [_encoded _connectivity attr].
  rewrite (searchsorted_at _ s (length R) li Hsorted).
  - unfold py_nth at 1. rewrite list_lookup_middle by reflexivity.
    cbn [chunk_names_loop]. unfold py_nth, mbind, result_bind.
    rewrite list_lookup_middle by reflexivity.
    cbn [last_index_of snd chunk_id_of fst].
    rewrite uint64_eq_int_exact by exact Hb.
    destruct (Z.eqb_spec (Z.of_N li) s) as [Heq|]; [|reflexivity].
    rewrite list_lookup_middle by (symmetry; exact Hlen).
    rewrite Hc by (symmetry; exact Heq). reflexivity.
  - rewrite map_app. apply list_lookup_middle. rewrite length_map. reflexivity.
  - rewrite uint64_lt_int_exact by lia. apply Z.ltb_ge. lia.
  - intros k y Hk Hy. rewrite list_lookup_fmap in Hy.
    rewrite lookup_app_l in Hy by exact Hk.
    destruct (R !! k) as [r|] eqn:Hr; [|discriminate].
    injection Hy as <-. pose proof (Hbelow k r Hr).
    rewrite uint64_lt_int_exact by lia. apply Z.ltb_lt. lia.
Qed.

(** X21. The samples that [append_chunk] adds are found in the chunk it
    created: after a successful [append_chunk(n, connected_to_next=False)] on
    a well-formed encoder that holds [k] samples, [k + n < 2^53],
    [get_chunk_names] answers for every new sample index [k <= s < k + n] with
    the single name that the call returned and with the index of the new
    chunk. *)
Theorem append_chunk_then_lookup (id : N) (self self' : ChunkNameEncoder)
    (n k : Z) (name : string) (s : Z) :
  encoder_inv self -> num_samples self = Ok k -> k + n < 2 ^ 53 ->
  append_chunk id self n false = Ok (self', name) ->
  k <= s < k + n ->
  get_chunk_names self' s = Ok ([name], [Z.to_nat (num_chunks self)]).
Proof.
  intros Hinv Hk Hb Happ Hs.
  pose proof (num_samples_holds _ _ Hinv Hk ltac:(lia)) as Hh.
  assert (Hle : k + n <= 2 ^ 53) by lia.
  pose proof (append_chunk_inv _ _ _ _ _ _ _ Hinv Hh Hle Happ)
    as (_ & Hinv' & _).
  apply encoder_inv_cases in Hinv as [->|(rows & r & conn & b & -> & Hlen & Hsr)].
  - injection Hk as <-. rewrite append_chunk_init in Happ.
    destruct (Z.ltb_spec n 0); [lia|]. destruct (Z.eqb_spec n 0); [lia|].
    rewrite to_uint64_in_range in Happ by lia.
    injection Happ as <- <-.
    apply (found_in_last_chunk [] []); try reflexivity; try lia.
    + unfold nondecreasing. simpl. repeat constructor.
    + intros i r0 Hr0. discriminate.
  - apply holds_snoc in Hh.
    apply append_chunk_rows in Happ as (_ & -> & ->); [|lia].
    unfold encoder_inv in Hinv'. cbn [_encoded _connectivity] in Hinv'.
    destruct Hinv' as (_ & _ & Hsorted').
    unfold num_chunks. cbn [_encoded]. rewrite Nat2Z.id.
    apply found_in_last_chunk; try reflexivity; try lia.
    + rewrite !length_app. cbn. lia.
    + exact Hsorted'.
    + intros i r0 Hr0. pose proof (rows_at_most_last rows r i r0 Hsr Hr0). lia.
Qed.

Lemma append_chunk_then_lookup_witness :
  let self := {| _encoded := Some [(10, 1)]%N;
                 _connectivity := Some [false] |} in
  exists self',
    append_chunk 255 self 3 false = Ok (self', "ff"%string) /\
    get_chunk_names self' 2 = Ok (["ff"%string], [1%nat]) /\
    get_chunk_names self' 4 = Ok (["ff"%string], [1%nat]).
Proof.
  intros self.
  assert (Hinv : encoder_inv self).
  { split; [discriminate|]. split; [reflexivity|].
    unfold nondecreasing. simpl. repeat constructor. }
  eexists. split; [reflexivity|].
  split; apply (append_chunk_then_lookup 255 self _ 3 2 "ff" _ Hinv eq_refl);
    try reflexivity; lia.
Defined.

(** X22. The samples that [extend_chunk] adds are found in the last chunk:
    after a successful [extend_chunk(n, connected_to_next=False)] on a
    well-formed encoder that holds [k] samples, [k + n < 2^53],
    [get_chunk_names] answers for every new sample index [k <= s < k + n] with
    the single name of the last chunk, the one the call returned. *)
Theorem extend_chunk_then_lookup (self self' : ChunkNameEncoder)
    (n k : Z) (name : string) (s : Z) :
  encoder_inv self -> num_samples self = Ok k -> k + n < 2 ^ 53 ->
  extend_chunk self n false = Ok (self', name) ->
  k <= s < k + n ->
  get_chunk_names self' s = Ok ([name], [Z.to_nat (num_chunks self - 1)]).
Proof.
  intros Hinv Hk Hb Hext Hs.
  pose proof (num_samples_holds _ _ Hinv Hk ltac:(lia)) as Hh.
  assert (Hle : k + n <= 2 ^ 53) by lia.
  pose proof (extend_chunk_inv _ _ _ _ _ _ Hinv Hh Hle Hext)
    as (_ & Hinv' & _).
  apply encoder_inv_cases in Hinv as [->|(rows & r & conn & b & -> & Hlen & Hsr)].
  { unfold extend_chunk in Hext. destruct (n <=? 0); discriminate. }
  apply holds_snoc in Hh.
  rewrite extend_chunk_snoc in Hext.
  destruct (Z.leb_spec n 0); [discriminate|]. destruct b; [discriminate|].
  rewrite uint64_iadd_int_exact in Hext by lia.
  injection Hext as <- <-.
  unfold encoder_inv in Hinv'. cbn [_encoded _connectivity] in Hinv'.
  destruct Hinv' as (_ & _ & Hsorted').
  unfold num_chunks. cbn [_encoded]. rewrite length_app. cbn [length].
  replace (Z.to_nat (Z.of_nat (length rows + 1) - 1)) with (length rows) by lia.
  apply found_in_last_chunk; try reflexivity; try lia.
  - exact Hsorted'.
  - intros i r0 Hr0.
    assert (Hin : (rows ++ [r]) !! i = Some r0)
      by (apply lookup_app_l_Some; exact Hr0).
    pose proof (rows_at_most_last rows r i r0 Hsr Hin). lia.
Qed.

Lemma extend_chunk_then_lookup_witness :
  let self := {| _encoded := Some [(10, 1); (255, 4)]%N;
                 _connectivity := Some [true; false] |} in
  exists self',
    extend_chunk self 2 false = Ok (self', "ff"%string) /\
    get_chunk_names self' 5 = Ok (["ff"%string], [1%nat]) /\
    get_chunk_names self' 6 = Ok (["ff"%string], [1%nat]).
Proof.
  intros self.
  assert (Hinv : encoder_inv self).
  { split; [discriminate|]. split; [reflexivity|].
    unfold nondecreasing. simpl. repeat constructor; lia. }
  eexists. split; [reflexivity|].
  split; apply (extend_chunk_then_lookup self _ 2 5 "ff" _ Hinv eq_refl);
    try reflexivity; lia.
Defined.

(** X23. Samples are laid out in order: on an encoder that satisfies the
    invariants of the data model, for two sample indices
    [0 <= s1 <= s2 < num_samples] the first chunk that [get_chunk_names]
    returns for [s1] is not after the first chunk it returns for [s2]. *)
Theorem chunk_index_monotone (self : ChunkNameEncoder)
    (rows : list (N * N)) (conn : list bool) (n s1 s2 : Z)
    (names1 names2 : list string) (i1 i2 : nat) (rest1 rest2 : list nat) :
  _encoded self = Some rows -> _connectivity self = Some conn ->
  encoder_inv self -> connected_has_next rows conn ->
  num_samples self = Ok n -> 0 <= s1 -> s1 <= s2 -> s2 < n ->
  get_chunk_names self s1 = Ok (names1, i1 :: rest1) ->
  get_chunk_names self s2 = Ok (names2, i2 :: rest2) ->
  (i1 <= i2)%nat.
Proof.
  intros Hrows Hconn Hinv Hnext Hn H1 H12 H2 Hg1 Hg2.
  unfold encoder_inv in Hinv. rewrite Hrows, Hconn in Hinv.
  destruct Hinv as (_ & _ & Hsorted).
  apply get_chunk_names_run in Hg1
    as (rows1 & c1 & n1 & j1 & m1 & Hrows1 & _ & _ & Hj1 & _ & _ & Hs1).
  apply get_chunk_names_run in Hg2
    as (rows2 & c2 & n2 & j2 & m2 & Hrows2 & _ & _ & Hj2 & _ & _ & Hs2).
  rewrite Hrows in Hrows1, Hrows2.
  injection Hrows1 as <-. injection Hrows2 as <-.
  cbn [seq] in Hs1, Hs2. injection Hs1 as -> _. injection Hs2 as -> _.
  destruct (Z.ltb_spec s1 0) as [|_]; [lia|].
  destruct (Z.ltb_spec s2 0) as [|_]; [lia|].
  subst j1 j2. apply searchsorted_mono; assumption.
Qed.

Lemma chunk_index_monotone_witness :
  let rows := [(10, 1); (11, 1); (12, 4)]%N in
  let conn := [true; true; false] in
  let self := {| _encoded := Some rows; _connectivity := Some conn |} in
  get_chunk_names self 1 = Ok (["a"; "b"; "c"]%string, [0; 1; 2]%nat) /\
  get_chunk_names self 3 = Ok (["c"]%string, [2%nat]) /\ (0 <= 2)%nat.
Proof.
  intros rows conn self.
  assert (Hinv : encoder_inv self).
  { split; [discriminate|]. split; [reflexivity|].
    unfold nondecreasing. simpl. repeat constructor; lia. }
  assert (Hnext : connected_has_next rows conn).
  { intros [|[|[|k]]] Hk; simpl in *; try discriminate; lia. }
  assert (Hg1 : get_chunk_names self 1
                = Ok (["a"; "b"; "c"]%string, [0; 1; 2]%nat)) by reflexivity.
  assert (Hg2 : get_chunk_names self 3 = Ok (["c"]%string, [2%nat]))
    by reflexivity.
  split; [exact Hg1|]. split; [exact Hg2|].
  apply (chunk_index_monotone self rows conn 5 1 3 ["a"; "b"; "c"]%string
           ["c"]%string 0 2 [1; 2]%nat [] eq_refl eq_refl Hinv Hnext eq_refl);
    try lia; assumption.
Defined.

(** **** Appending does not disturb the samples that are there *)

Lemma py_nth_app {A} (l l' : list A) i x :
  py_nth l i = Ok x -> py_nth (l ++ l') i = Ok x.
Proof.
  unfold py_nth. destruct (l !! i) as [y|] eqn:Hy; [|discriminate].
  intros [= <-]. rewrite (lookup_app_l_Some _ _ _ _ Hy). reflexivity.
Qed.

Lemma chunk_names_loop_app rows rows' conn conn' s fuel :
  forall fuel' idx names indices x,
  (fuel <= fuel')%nat ->
  chunk_names_loop fuel rows conn s idx names indices = Ok x ->
  chunk_names_loop fuel' (rows ++ rows') (conn ++ conn') s idx names indices
    = Ok x.
Proof.
  induction fuel as [|fuel IH]; intros fuel' idx names indices x Hf Hrun;
    [discriminate|].
  destruct fuel' as [|fuel']; [lia|]. cbn [chunk_names_loop] in *.
  unfold mbind, result_bind in *.
  destruct (py_nth rows idx) as [r|] eqn:Hr; [|discriminate].
  rewrite (py_nth_app _ rows' _ _ Hr).
  destruct (uint64_eq_int (last_index_of r) s); [|exact Hrun].
  destruct (py_nth conn idx) as [c|] eqn:Hc; [|discriminate].
  rewrite (py_nth_app _ conn' _ _ Hc). destruct c; [|exact Hrun].
  destruct (py_nth rows (S idx)) as [r'|] eqn:Hr'; [|discriminate].
  rewrite (py_nth_app _ rows' _ _ Hr'). apply IH; [lia | exact Hrun].
Qed.

Lemma get_chunk_names_app rows rows' conn conn' s x :
  nondecreasing rows -> nondecreasing (rows ++ rows') -> 0 <= s ->
  get_chunk_names {| _encoded := Some rows; _connectivity := Some conn |} s
    = Ok x ->
  get_chunk_names {| _encoded := Some (rows ++ rows');
                     _connectivity := Some (conn ++ conn') |} s = Ok x.
Proof.
  intros Hs Hs' H0 Hget. unfold get_chunk_names in *.
  unfold num_samples in *. cbn [_encoded _connectivity attr] in *.
  unfold mbind, result_bind in *.
  destruct (py_last rows) as [rl|] eqn:Hl; [|discriminate].
  apply py_last_ok in Hl as [rs ->].
  assert (Hl' : exists rl' rs', (rs ++ [rl]) ++ rows' = rs' ++ [rl']).
  { destruct (last rows') as [y|] eqn:Ey.
    - apply last_Some in Ey as [ys ->]. exists y, ((rs ++ [rl]) ++ ys).
      rewrite app_assoc. reflexivity.
    - apply last_None in Ey as ->. exists rl, rs. rewrite app_nil_r.
      reflexivity. }
  destruct Hl' as (rl' & rs' & Hl'). unfold py_last. rewrite Hl', last_snoc.
  rewrite <- Hl'.
  pose proof (uint64_add_one_pos (last_index_of rl)).
  pose proof (uint64_add_one_pos (last_index_of rl')).
  destruct (Z.eqb_spec (uint64_add_int (last_index_of rl) 1) 0); [lia|].
  destruct (Z.eqb_spec (uint64_add_int (last_index_of rl') 1) 0); [lia|].
  destruct (Z.ltb_spec s 0); [lia|].
  set (i := searchsorted (map last_index_of (rs ++ [rl])) s) in *.
  destruct (py_nth (rs ++ [rl]) i) as [r|] eqn:Hr; [|discriminate].
  assert (Hi : searchsorted (map last_index_of ((rs ++ [rl]) ++ rows')) s = i).
  { destruct (searchsorted_spec (map last_index_of (rs ++ [rl])) s Hs)
      as [_ [Hlo Hhi]]. fold i in Hlo, Hhi.
    unfold py_nth in Hr.
    destruct ((rs ++ [rl]) !! i) as [r0|] eqn:Hr0; [|discriminate].
    injection Hr as ->.
    apply (searchsorted_at _ s i (last_index_of r) Hs').
    - rewrite map_app. apply lookup_app_l_Some.
      rewrite list_lookup_fmap, Hr0. reflexivity.
    - apply (Hhi i); [lia|]. rewrite list_lookup_fmap, Hr0. reflexivity.
    - intros k y Hk Hy. apply (Hlo k y Hk).
      rewrite map_app, lookup_app_l in Hy; [exact Hy|].
      rewrite length_map. apply lookup_lt_Some in Hr0. lia. }
  rewrite Hi, (py_nth_app _ rows' _ _ Hr).
  apply (chunk_names_loop_app _ _ _ _ _ (S (length (rs ++ [rl]))));
    [rewrite (length_app (rs ++ [rl])); lia | exact Hget].
Qed.

(** X24. [append_chunk] on a well-formed encoder that holds [k] samples, [k +
    n < 2^53], does not disturb the samples that are already there: whatever
    [get_chunk_names] answered for a sample index [s >= 0] before a successful
    [append_chunk], it answers the same names and chunk indices afterwards. *)
Theorem append_chunk_keeps_lookups (id : N) (self self' : ChunkNameEncoder)
    (n k : Z) (c : bool) (name : string) (s : Z)
    (answer : list string * list nat) :
  encoder_inv self -> num_samples self = Ok k -> k + n < 2 ^ 53 ->
  append_chunk id self n c = Ok (self', name) ->
  0 <= s -> get_chunk_names self s = Ok answer ->
  get_chunk_names self' s = Ok answer.
Proof.
  intros Hinv Hk Hb Happ Hs Hget.
  pose proof (append_chunk_nonneg _ _ _ _ _ Happ) as Hn.
  pose proof (num_samples_holds _ _ Hinv Hk ltac:(lia)) as Hh.
  assert (Hle : k + n <= 2 ^ 53) by lia.
  pose proof (append_chunk_inv _ _ _ _ _ _ _ Hinv Hh Hle Happ)
    as (_ & Hinv' & _).
  apply encoder_inv_cases in Hinv as [->|(rows & r & conn & b & -> & Hlen & Hsr)].
  { discriminate. }
  apply holds_snoc in Hh.
  apply append_chunk_rows in Happ as (_ & _ & ->); [|lia].
  unfold encoder_inv in Hinv'. cbn [_encoded _connectivity] in Hinv'.
  destruct Hinv' as (_ & _ & Hsorted').
  apply get_chunk_names_app; assumption.
Qed.

Lemma append_chunk_keeps_lookups_witness :
  let self := {| _encoded := Some [(10, 1); (11, 1)]%N;
                 _connectivity := Some [true; true] |} in
  exists self',
    append_chunk 12 self 3 false = Ok (self', "c"%string) /\
    get_chunk_names self 0 = Ok (["a"]%string, [0%nat]) /\
    get_chunk_names self' 0 = Ok (["a"]%string, [0%nat]).
Proof.
  intros self.
  assert (Hinv : encoder_inv self).
  { split; [discriminate|]. split; [reflexivity|].
    unfold nondecreasing. simpl. repeat constructor; lia. }
  assert (Hget : get_chunk_names self 0 = Ok (["a"]%string, [0%nat]))
    by reflexivity.
  eexists. split; [reflexivity|]. split; [exact Hget|].
  apply (append_chunk_keeps_lookups 12 self _ 3 2 false "c" 0 _ Hinv eq_refl);
    [lia | reflexivity | lia | exact Hget].
Defined.

End ChunkNameFacts.

Module TensorFacts.
Import Numpy TensorCore.

(** **** Keys *)

Lemma str_app_inv_head (s a b : string) :
  (s ++ a)%string = (s ++ b)%string -> a = b.
Proof. induction s as [|c s IH]; simpl; intros H; [exact H|]. injection H. exact IH. Qed.

Lemma meta_key_not_index_map key key' :
  get_tensor_meta_key key = get_index_map_key key' -> key = key' -> False.
Proof.
  intros H <-. apply str_app_inv_head in H. discriminate.
Qed.

Lemma meta_key_not_chunk key i : get_tensor_meta_key key <> chunk_key key i.
Proof.
  unfold get_tensor_meta_key, chunk_key, get_chunk_key. intros H.
  apply str_app_inv_head in H. discriminate.
Qed.

Lemma index_map_key_not_chunk key i : get_index_map_key key <> chunk_key key i.
Proof.
  unfold get_index_map_key, chunk_key, get_chunk_key. intros H.
  apply str_app_inv_head in H. discriminate.
Qed.

Lemma chunk_key_inj key i j : chunk_key key i = chunk_key key j -> i = j.
Proof.
  unfold chunk_key, get_chunk_key. intros H.
  apply str_app_inv_head in H.
  apply (str_app_inv_head "/chunks/") in H.
  apply ChunkNameFacts.chunk_name_injective in H. lia.
Qed.

(** **** What an append leaves alone *)

Lemma store_chunks_other key k new : forall first st,
  (forall i, k <> chunk_key key i) ->
  store_chunks key first new st !! k = st !! k.
Proof.
  induction new as [|c new IH]; intros first st Hk; simpl; [reflexivity|].
  rewrite IH by assumption. apply lookup_insert_ne. apply not_eq_sym, Hk.
Qed.

Lemma write_bytes_result buf key cs sh st :
  exists st', write_bytes buf key cs sh st = (Ok tt, st') /\
    st' !! get_tensor_meta_key key = st !! get_tensor_meta_key key.
Proof.
  unfold write_bytes.
  set (index_map := IndexMap key st).
  destruct (open_last_chunk key cs index_map st) as [c|]; simpl.
  - destruct (length buf <=? cs - length c)%nat.
    + eexists. split; [reflexivity|].
      rewrite lookup_insert_ne
        by (intros H; symmetry in H; eapply meta_key_not_index_map; eauto).
      apply lookup_insert_ne, not_eq_sym, meta_key_not_chunk.
    + eexists. split; [reflexivity|].
      rewrite lookup_insert_ne
        by (intros H; symmetry in H; eapply meta_key_not_index_map; eauto).
      rewrite store_chunks_other by (intros i; apply meta_key_not_chunk).
      apply lookup_insert_ne, not_eq_sym, meta_key_not_chunk.
  - eexists. split; [reflexivity|].
    rewrite lookup_insert_ne
      by (intros H; symmetry in H; eapply meta_key_not_index_map; eauto).
    apply store_chunks_other. intros i. apply meta_key_not_chunk.
Qed.

Lemma for_each_preserves {A} (body : A -> M unit) (k : string) (xs : list A) :
  (forall x st, exists st', body x st = (Ok tt, st') /\ st' !! k = st !! k) ->
  forall st, exists st',
    for_each xs body st = (Ok tt, st') /\ st' !! k = st !! k.
Proof.
  intros Hbody. induction xs as [|x xs IH]; intros st; simpl.
  - exists st. split; reflexivity.
  - unfold bindM. destruct (Hbody x st) as (st1 & -> & H1).
    destruct (IH st1) as (st2 & -> & H2).
    exists st2. split; [reflexivity | congruence].
Qed.

Lemma read_tensor_meta_lookup key st m :
  st !! get_tensor_meta_key key = Some (OTensorMeta m) ->
  read_tensor_meta key st = (Ok m, st) /\ tensor_exists key st = true.
Proof.
  intros H. unfold read_tensor_meta, tensor_exists. rewrite H.
  split; [reflexivity|]. apply bool_decide_eq_true. eauto.
Qed.

(** An append that the check rejects raises what the check raises and
    touches nothing. *)
Lemma add_samples_rejected array key batched st m e :
  st !! get_tensor_meta_key key = Some (OTensorMeta m) ->
  _check_array_and_tensor_are_compatible m
    (normalize_and_batchify_shape array batched) = Raise e ->
  add_samples_to_tensor array key batched st = (Raise e, st).
Proof.
  intros Hm He. apply read_tensor_meta_lookup in Hm as [Hread Hex].
  unfold add_samples_to_tensor, bindM, reads, lift.
  rewrite Hex. simpl. rewrite Hread, He. reflexivity.
Qed.

Lemma create_tensor_ok validate key meta st0 st1 :
  create_tensor validate key meta st0 = (Ok tt, st1) ->
  st1 = <[get_tensor_meta_key key := OTensorMeta (set_length meta 0)]> st0.
Proof.
  unfold create_tensor, bindM, reads, lift, raise, write_tensor_meta, writes.
  destruct (tensor_exists key st0); [discriminate|].
  destruct (validate (set_length meta 0)); [|discriminate].
  intros [= <-]. reflexivity.
Qed.

(** C6. On a tensor created with dtype [uint8], appending an array of dtype
    [float64] raises [TensorMetaMismatchError("dtype", "uint8", "float64")]
    and returns the storage as it was: no chunk, no index entry and no meta
    has been written, and the length of the tensor is still 0. *)
Theorem append_dtype_mismatch (validate : tensor_meta -> result unit)
    (key : string) (meta : tensor_meta) (array : ndarray) (batched : bool)
    (st0 st1 : storage) :
  create_tensor validate key meta st0 = (Ok tt, st1) ->
  tm_dtype meta = "uint8"%string -> dtype array = "float64"%string ->
  add_samples_to_tensor array key batched st1 =
    (Raise (TensorMetaMismatchError "dtype" (PStr "uint8") (PStr "float64")),
     st1) /\
  Tensor.__len__ {| Tensor.key := key; Tensor.index := Index_all |} st1 =
    (Ok 0, st1).
Proof.
  intros Hcreate Hdt Harr. apply create_tensor_ok in Hcreate.
  assert (Hm : st1 !! get_tensor_meta_key key =
               Some (OTensorMeta (set_length meta 0))).
  { subst st1. apply lookup_insert_eq. }
  split.
  - apply (add_samples_rejected _ _ _ _ _ _ Hm).
    unfold _check_array_and_tensor_are_compatible. simpl.
    rewrite Hdt.
    replace (dtype (normalize_and_batchify_shape array batched))
      with "float64"%string by (destruct batched; simpl; congruence).
    reflexivity.
  - apply read_tensor_meta_lookup in Hm as [Hread _].
    unfold Tensor.__len__, Tensor.meta, bindM. simpl. rewrite Hread.
    reflexivity.
Qed.

Lemma append_dtype_mismatch_witness :
  let meta := {| tm_dtype := "uint8"; tm_length := 0; tm_min_shape := [100%nat];
                 tm_max_shape := [100%nat]; tm_chunk_size := 16 |} in
  let array := {| dtype := "float64"; shape := [100%nat];
                  data := repeat "000"%byte 800 |} in
  let st1 := <[get_tensor_meta_key "t" := OTensorMeta meta]> (∅ : storage) in
  create_tensor (fun _ => Ok tt) "t" meta ∅ = (Ok tt, st1) /\
  add_samples_to_tensor array "t" false st1 =
    (Raise (TensorMetaMismatchError "dtype" (PStr "uint8") (PStr "float64")),
     st1).
Proof.
  intros meta array st1.
  assert (Hc : create_tensor (fun _ => Ok tt) "t" meta ∅ = (Ok tt, st1))
    by reflexivity.
  split; [exact Hc|].
  exact (proj1 (append_dtype_mismatch _ "t" meta array false ∅ st1 Hc
                  eq_refl eq_refl)).
Defined.

(** **** Shapes: what the compatibility check accepts *)

Lemma add_samples_accepted array key batched st m n sample_shape :
  st !! get_tensor_meta_key key = Some (OTensorMeta m) ->
  _check_array_and_tensor_are_compatible m
    (normalize_and_batchify_shape array batched) = Ok tt ->
  shape (normalize_and_batchify_shape array batched) = n :: sample_shape ->
  exists st',
    add_samples_to_tensor array key batched st = (Ok tt, st') /\
    st' !! get_tensor_meta_key key =
      Some (OTensorMeta (set_length m (tm_length m + Z.of_nat n))).
Proof.
  intros Hm Hc Hsh. apply read_tensor_meta_lookup in Hm as [Hread Hex].
  unfold add_samples_to_tensor, bindM, reads, lift.
  rewrite Hex. simpl. rewrite Hread, Hc, Hsh.
  match goal with
  | |- context [for_each ?xs ?body st] =>
      destruct (for_each_preserves body (get_tensor_meta_key key) xs)
        with (st := st) as (st1 & -> & _);
        [intros; apply write_bytes_result|]
  end.
  eexists. split; [reflexivity|]. apply lookup_insert_eq.
Qed.

Lemma check_cases m array :
  tm_dtype m = dtype array ->
  length (tm_min_shape m) = length (tail (shape array)) ->
  length (tm_max_shape m) = length (tail (shape array)) ->
  _check_array_and_tensor_are_compatible m array =
    if decide (tm_max_shape m = tail (shape array) /\
               tm_min_shape m = tail (shape array))
    then Ok tt
    else Raise (NotImplementedError "Dynamic shapes are not supported yet.").
Proof.
  intros Hdt Hmin Hmax. unfold _check_array_and_tensor_are_compatible.
  rewrite Hdt, String.eqb_refl, Hmin, Hmax, Nat.eqb_refl. simpl.
  repeat case_bool_decide; case_decide; simpl; tauto.
Qed.

(** The claim of C2 fails on the second array of scenario 2: its rank and
    dtype are those of the tensor, and the check raises. *)
Lemma dynamic_shape_rejected :
  let m := {| tm_dtype := "float64"; tm_length := 32;
              tm_min_shape := [28; 28]%nat; tm_max_shape := [28; 28]%nat;
              tm_chunk_size := 4096 |} in
  let a2 := {| dtype := "float64"; shape := [10; 36; 11]%nat;
               data := repeat "000"%byte (8 * (10 * 36 * 11)) |} in
  wf_array a2 /\
  tm_dtype m = dtype a2 /\
  length (tm_min_shape m) = length (tail (shape a2)) /\
  _check_array_and_tensor_are_compatible m a2 =
    Raise (NotImplementedError "Dynamic shapes are not supported yet.") /\
  forall st, st !! get_tensor_meta_key "image" = Some (OTensorMeta m) ->
    add_samples_to_tensor a2 "image" true st =
      (Raise (NotImplementedError "Dynamic shapes are not supported yet."), st).
Proof.
  intros m a2. repeat split.
  - exists 8%nat. split; [reflexivity|]. apply repeat_length.
  - intros st Hm. apply (add_samples_rejected _ _ _ _ _ _ Hm). reflexivity.
Qed.

(** C2, amended. An append whose dtype and rank are those of the tensor is
    accepted exactly when the shape of the samples equals both [min_shape]
    and [max_shape] of the tensor meta; with other sizes it raises
    [NotImplementedError("Dynamic shapes are not supported yet.")] and writes
    nothing. No append changes [min_shape] or [max_shape]. *)
Theorem append_fixed_shape_only (key : string) (st : storage)
    (m : tensor_meta) (array : ndarray) (batched : bool)
    (n : nat) (sample_shape : list nat) :
  st !! get_tensor_meta_key key = Some (OTensorMeta m) ->
  shape (normalize_and_batchify_shape array batched) = n :: sample_shape ->
  tm_dtype m = dtype array ->
  length (tm_min_shape m) = length sample_shape ->
  length (tm_max_shape m) = length sample_shape ->
  exists r st' m',
    add_samples_to_tensor array key batched st = (r, st') /\
    st' !! get_tensor_meta_key key = Some (OTensorMeta m') /\
    tm_min_shape m' = tm_min_shape m /\ tm_max_shape m' = tm_max_shape m /\
    (r = Ok tt <->
     tm_min_shape m = sample_shape /\ tm_max_shape m = sample_shape) /\
    (~ (tm_min_shape m = sample_shape /\ tm_max_shape m = sample_shape) ->
     r = Raise (NotImplementedError "Dynamic shapes are not supported yet.")
     /\ st' = st).
Proof.
  intros Hm Hsh Hdt Hmin Hmax.
  set (array' := normalize_and_batchify_shape array batched) in *.
  assert (Hdt' : tm_dtype m = dtype array')
    by (subst array'; destruct batched; simpl; congruence).
  assert (Htl : tail (shape array') = sample_shape) by (rewrite Hsh; reflexivity).
  pose proof (check_cases m array' Hdt') as Hc. rewrite Htl in Hc.
  specialize (Hc Hmin Hmax). case_decide as Heq.
  - destruct (add_samples_accepted array key batched st m n sample_shape
                Hm Hc Hsh) as (st' & Hrun & Hm').
    exists (Ok tt), st', (set_length m (tm_length m + Z.of_nat n)).
    split; [exact Hrun|]. split; [exact Hm'|].
    split; [reflexivity|]. split; [reflexivity|].
    split; [tauto|]. intros Hn. tauto.
  - pose proof (add_samples_rejected array key batched st m _ Hm Hc) as Hrun.
    eexists _, st, m.
    split; [exact Hrun|]. split; [exact Hm|].
    split; [reflexivity|]. split; [reflexivity|].
    split; [|intros _; split; reflexivity].
    split; [discriminate | tauto].
Qed.

Lemma append_fixed_shape_only_witness :
  let m := {| tm_dtype := "uint8"; tm_length := 0;
              tm_min_shape := [2; 2]%nat; tm_max_shape := [2; 2]%nat;
              tm_chunk_size := 3 |} in
  let st := <[get_tensor_meta_key "image" := OTensorMeta m]> (∅ : storage) in
  let a := {| dtype := "uint8"; shape := [3; 2]%nat;
              data := ["001"; "002"; "003"; "004"; "005"; "006"]%byte |} in
  st !! get_tensor_meta_key "image" = Some (OTensorMeta m) /\
  exists r st' m',
    add_samples_to_tensor a "image" false st = (r, st') /\
    st' !! get_tensor_meta_key "image" = Some (OTensorMeta m') /\
    tm_min_shape m' = [2; 2]%nat /\ tm_max_shape m' = [2; 2]%nat.
Proof.
  intros m st a.
  assert (Hm : st !! get_tensor_meta_key "image" = Some (OTensorMeta m))
    by reflexivity.
  split; [exact Hm|].
  destruct (append_fixed_shape_only "image" st m a false 1 [3; 2]%nat Hm
              eq_refl eq_refl eq_refl eq_refl)
    as (r & st' & m' & H1 & H2 & H3 & H4 & _).
  exists r, st', m'. repeat split; assumption.
Defined.

(** Scenario 2 on this code: the first batch fixes nothing new, the two
    later appends are rejected, and the bounds stay those given at creation. *)
Lemma scenario2_bounds (validate : tensor_meta -> result unit)
    (m : tensor_meta) (a1 a2 a3 : ndarray) (st0 st1 : storage) :
  let t := {| Tensor.key := "image"; Tensor.index := Index_all |} in
  let dynamic :=
    Raise (NotImplementedError "Dynamic shapes are not supported yet.") in
  tm_dtype m = "float64"%string ->
  tm_min_shape m = [28; 28]%nat -> tm_max_shape m = [28; 28]%nat ->
  create_tensor validate "image" m st0 = (Ok tt, st1) ->
  dtype a1 = "float64"%string -> shape a1 = [32; 28; 28]%nat ->
  dtype a2 = "float64"%string -> shape a2 = [10; 36; 11]%nat ->
  dtype a3 = "float64"%string -> shape a3 = [29; 10]%nat ->
  exists st2,
    Tensor.extend t a1 st1 = (Ok tt, st2) /\
    Tensor.extend t a2 st2 = (dynamic, st2) /\
    Tensor.append t a3 st2 = (dynamic, st2) /\
    Tensor.shape t st2 = (Ok ([28; 28]%nat, [28; 28]%nat), st2) /\
    Tensor.__len__ t st2 = (Ok 32, st2).
Proof.
  intros t dynamic Hdt Hmin Hmax Hcreate Hd1 Hs1 Hd2 Hs2 Hd3 Hs3.
  apply create_tensor_ok in Hcreate.
  assert (Hm1 : st1 !! get_tensor_meta_key "image" =
                Some (OTensorMeta (set_length m 0)))
    by (subst st1; apply lookup_insert_eq).
  unfold Tensor.extend, Tensor.append. cbn [Tensor.key t].
  destruct (add_samples_accepted a1 "image" true st1 _ 32 [28; 28]%nat Hm1)
    as (st2 & Hrun1 & Hm2).
  { rewrite check_cases; simpl; rewrite ?Hs1, ?Hmin, ?Hmax; simpl;
      try reflexivity; congruence. }
  { exact Hs1. }
  exists st2. split; [exact Hrun1|].
  split; [|split; [|split]].
  - apply (add_samples_rejected _ _ _ _ _ _ Hm2).
    rewrite check_cases; simpl; rewrite ?Hs2, ?Hmin, ?Hmax; simpl;
      try reflexivity; congruence.
  - apply (add_samples_rejected _ _ _ _ _ _ Hm2).
    rewrite check_cases; simpl; rewrite ?Hs3, ?Hmin, ?Hmax; simpl;
      try reflexivity; congruence.
  - apply read_tensor_meta_lookup in Hm2 as [Hread _].
    unfold Tensor.shape, Tensor.meta, bindM. cbn [Tensor.key t].
    rewrite Hread. simpl. rewrite Hmin, Hmax. reflexivity.
  - apply read_tensor_meta_lookup in Hm2 as [Hread _].
    unfold Tensor.__len__, Tensor.meta, bindM. cbn [Tensor.key t].
    rewrite Hread. reflexivity.
Qed.

(** **** The length of a dataset *)

Lemma py_min_spec x xs :
  Dataset.py_min (x :: xs) 0 ∈ x :: xs /\ forall y, y ∈ x :: xs -> Dataset.py_min (x :: xs) 0 <= y.
Proof.
  unfold Dataset.py_min. revert x. induction xs as [|z xs IH]; intros x; simpl.
  - split; [constructor|]. intros y Hy. apply list_elem_of_singleton in Hy. lia.
  - destruct (IH (Z.min x z)) as [Hin Hle]. split.
    + apply elem_of_cons in Hin as [Hin|Hin].
      * rewrite Hin. destruct (Z.min_spec x z) as [[_ ->]|[_ ->]];
          [constructor | do 2 constructor].
      * do 2 constructor. exact Hin.
    + intros y Hy.
      assert (Hmin : foldl Z.min (Z.min x z) xs <= Z.min x z)
        by (apply Hle; constructor).
      apply elem_of_cons in Hy as [->|Hy]; [lia|].
      apply elem_of_cons in Hy as [->|Hy]; [lia|].
      apply Hle. constructor. exact Hy.
Qed.

Lemma lens_ok (ts : list Tensor.Tensor) (st : storage) (ns : list Z) :
  Forall2 (fun t n => Tensor.__len__ t st = (Ok n, st) /\ 0 <= n) ts ns ->
  Dataset.lens ts st = (Ok ns, st).
Proof.
  induction 1 as [|t n ts ns [Ht Hn] _ IH]; simpl; [reflexivity|].
  unfold bindM, lift, ret. rewrite Ht. unfold Dataset.py_len.
  destruct (Z.ltb_spec n 0); [lia|]. rewrite IH. reflexivity.
Qed.



(** After one tensor is extended, the dataset is as long as the shorter
    tensor: [image] grows from 2 to 5 samples, [label] stays at 2. *)
Example dataset_len_after_extend :
  let t name := {| Tensor.key := name; Tensor.index := Index_all |} in
  let ds := {| Dataset.mode := "a"; Dataset.index := Index_all;
               Dataset.path := "";
               Dataset.tensors := [("image", t "image"); ("label", t "label")]%string;
               Dataset.meta_tensors := ["image"; "label"]%string |} in
  let m := {| tm_dtype := "uint8"; tm_length := 0; tm_min_shape := [2%nat];
              tm_max_shape := [2%nat]; tm_chunk_size := 3 |} in
  let batch n := {| dtype := "uint8"; shape := [n; 2%nat];
                    data := repeat "001"%byte (n * 2) |} in
  let prog : M (Z * Z * Z) :=
    create_tensor (fun _ => Ok tt) "image" m ;;;
    create_tensor (fun _ => Ok tt) "label" m ;;;
    Tensor.extend (t "image") (batch 2%nat) ;;;
    Tensor.extend (t "label") (batch 2%nat) ;;;
    let* before := Dataset.__len__ ds in
    Tensor.extend (t "image") (batch 3%nat) ;;;
    let* image := Tensor.__len__ (t "image") in
    let* after := Dataset.__len__ ds in
    ret (before, image, after) in
  fst (prog ∅) = Ok (2, 5, 2).
Proof. vm_compute. reflexivity. Qed.

(** **** Splitting a buffer into chunks *)

Lemma split_chunks_concat cs : forall fuel buf,
  (0 < cs)%nat -> (length buf <= fuel)%nat ->
  concat (split_chunks fuel cs buf) = buf.
Proof.
  induction fuel as [|fuel IH]; intros buf Hcs Hlen.
  - destruct buf; [reflexivity | simpl in Hlen; lia].
  - destruct buf as [|x buf]; [reflexivity|].
    cbn [split_chunks concat]. rewrite IH; [apply take_drop | exact Hcs|].
    rewrite length_drop. simpl in *. lia.
Qed.

Lemma split_chunks_nil cs fuel buf :
  (length buf <= fuel)%nat -> split_chunks fuel cs buf = [] -> buf = [].
Proof.
  destruct fuel, buf; simpl; intros Hlen H; try reflexivity; try lia.
  discriminate.
Qed.

Lemma concat_snoc {A} (ls : list (list A)) (l : list A) :
  concat (ls ++ [l]) = concat ls ++ l.
Proof. rewrite concat_app. simpl. rewrite app_nil_r. reflexivity. Qed.

(** **** Reading the chunks of a list *)

Lemma nth_chunk_ok chunks i c : nth_chunk chunks i = Ok c <-> chunks !! i = Some c.
Proof.
  unfold nth_chunk. destruct (chunks !! i); split; intros H; congruence.
Qed.

Lemma read_full_chunks_agree (read read' : nat -> result (list byte)) count :
  forall first b,
  (forall i c, (first <= i < first + count)%nat ->
               read' i = Ok c -> read i = Ok c) ->
  read_full_chunks read' first count = Ok b ->
  read_full_chunks read first count = Ok b.
Proof.
  induction count as [|count IH]; intros first b Hag Hr; [exact Hr|].
  cbn [read_full_chunks] in *. unfold mbind, result_bind in *.
  destruct (read' first) as [c|] eqn:Hc; [|discriminate].
  rewrite (Hag first c) by (try lia; exact Hc).
  destruct (read_full_chunks read' (S first) count) as [rest|] eqn:Hrest;
    [|discriminate].
  rewrite (IH (S first) rest); [exact Hr| |exact Hrest].
  intros i c' Hi. apply Hag. lia.
Qed.

(** The full chunks [first .. first + count - 1] of a list. *)
Lemma read_full_chunks_list chunks count : forall first,
  (first + count <= length chunks)%nat ->
  read_full_chunks (nth_chunk chunks) first count =
  Ok (concat (take count (drop first chunks))).
Proof.
  induction count as [|count IH]; intros first Hlen; [reflexivity|].
  cbn [read_full_chunks]. unfold mbind, result_bind.
  destruct (lookup_lt_is_Some_2 chunks first) as [c Hc]; [lia|].
  unfold nth_chunk at 1. rewrite Hc, IH by lia.
  rewrite (drop_S chunks c first Hc). reflexivity.
Qed.

Lemma entry_bytes_agree (read read' : nat -> result (list byte)) e b :
  (forall i c, read' i = Ok c -> read i = Ok c) ->
  entry_bytes read' e = Ok b -> entry_bytes read e = Ok b.
Proof.
  intros Hag. unfold entry_bytes.
  destruct (end_chunk e <? start_chunk e); [auto|].
  destruct (start_chunk e <? 0); [auto|].
  unfold mbind, result_bind.
  destruct (Z.to_nat (start_chunk e) =? Z.to_nat (end_chunk e))%nat.
  - destruct (read' (Z.to_nat (start_chunk e))) as [c|] eqn:Hc; [|discriminate].
    rewrite (Hag _ _ Hc). auto.
  - destruct (read' (Z.to_nat (start_chunk e))) as [c|] eqn:Hc; [|discriminate].
    rewrite (Hag _ _ Hc).
    destruct (read_full_chunks read' _ _) as [mid|] eqn:Hmid; [|discriminate].
    rewrite (read_full_chunks_agree read read' _ _ mid); [|auto|exact Hmid].
    destruct (read' (Z.to_nat (end_chunk e))) as [d|] eqn:Hd; [|discriminate].
    rewrite (Hag _ _ Hd). auto.
Qed.

Lemma get_bytes_ok b offset len out :
  get_bytes b offset len = Ok out <->
  (offset + len <= length b)%nat /\ out = take len (drop offset b).
Proof.
  unfold get_bytes. destruct (Nat.leb_spec (offset + len) (length b)).
  - split; [intros [= <-]; auto | intros [_ ->]; reflexivity].
  - split; [discriminate | lia].
Qed.

Lemma get_bytes_more b more offset len out :
  get_bytes b offset len = Ok out -> get_bytes (b ++ more) offset len = Ok out.
Proof.
  intros [Hlen ->]%get_bytes_ok. apply get_bytes_ok.
  rewrite length_app. split; [lia|].
  rewrite drop_app_le by lia. rewrite take_app_le; [reflexivity|].
  rewrite length_drop. lia.
Qed.

(** The bytes of an entry stay what they are when the chunks are extended. *)
Lemma entry_bytes_stable chunks chunks' e b :
  chunks_extend chunks chunks' ->
  entry_bytes (nth_chunk chunks) e = Ok b ->
  entry_bytes (nth_chunk chunks') e = Ok b.
Proof.
  intros Hext. unfold entry_bytes.
  destruct (Z.ltb_spec (end_chunk e) (start_chunk e)) as [|Hse]; [auto|].
  destruct (Z.ltb_spec (start_chunk e) 0) as [|Hs0]; [auto|].
  set (first := Z.to_nat (start_chunk e)). set (final := Z.to_nat (end_chunk e)).
  assert (Hle : (first <= final)%nat) by (subst first final; lia).
  unfold mbind, result_bind.
  destruct (Nat.eqb_spec first final) as [Heq|Hne].
  - destruct (nth_chunk chunks first) as [c|] eqn:Hc; [|discriminate].
    apply nth_chunk_ok in Hc.
    destruct (Hext first c Hc) as (c' & Hc' & [more ->] & _).
    apply nth_chunk_ok in Hc'. rewrite Hc'. apply get_bytes_more.
  - destruct (nth_chunk chunks first) as [c|] eqn:Hc; [|discriminate].
    destruct (read_full_chunks (nth_chunk chunks) (S first) (final - first - 1))
      as [mid|] eqn:Hmid; [|discriminate].
    destruct (nth_chunk chunks final) as [d|] eqn:Hd; [|discriminate].
    destruct (get_bytes d 0 (end_byte e)) as [tl_|] eqn:Htl; [|discriminate].
    intros Hb. apply nth_chunk_ok in Hc, Hd.
    pose proof (lookup_lt_Some _ _ _ Hd) as Hld.
    assert (Hfirst : (S first < length chunks)%nat) by lia.
    destruct (Hext first c Hc) as (c' & Hc' & _ & Hsame).
    rewrite (Hsame Hfirst) in Hc'. apply nth_chunk_ok in Hc'. rewrite Hc'.
    rewrite (read_full_chunks_agree (nth_chunk chunks') (nth_chunk chunks)
               _ _ mid); [| |exact Hmid].
    + destruct (Hext final d Hd) as (d' & Hd' & [more ->] & _).
      apply nth_chunk_ok in Hd'. rewrite Hd'.
      rewrite (get_bytes_more _ _ _ _ _ Htl). exact Hb.
    + intros i ci Hi Hci. apply nth_chunk_ok in Hci.
      destruct (Hext i ci Hci) as (ci' & Hci' & _ & Hsamei).
      rewrite Hsamei in Hci' by lia. apply nth_chunk_ok. exact Hci'.
Qed.

(** **** Writing a buffer into the chunks of a list *)

Lemma read_full_chunks_run chunks (mid : list (list byte)) : forall p,
  (forall j c, mid !! j = Some c -> chunks !! (p + j)%nat = Some c) ->
  read_full_chunks (nth_chunk chunks) p (length mid) = Ok (concat mid).
Proof.
  induction mid as [|x mid IH]; intros p Hrun; [reflexivity|].
  cbn [length read_full_chunks concat]. unfold mbind, result_bind.
  pose proof (Hrun 0%nat x eq_refl) as Hx. rewrite Nat.add_0_r in Hx.
  apply nth_chunk_ok in Hx. rewrite Hx.
  rewrite (IH (S p)); [reflexivity|].
  intros j c Hj. replace (S p + j)%nat with (p + S j)%nat by lia.
  apply Hrun. exact Hj.
Qed.

(** An entry that covers the run of chunks [run], which starts at chunk [p],
    from byte [sb] of its first chunk to the end of its last chunk. *)
Lemma entry_bytes_run chunks (p : nat) (run : list (list byte)) sb sh :
  run <> [] ->
  (forall j c, run !! j = Some c -> chunks !! (p + j)%nat = Some c) ->
  (sb <= from_option length 0 (head run))%nat ->
  entry_bytes (nth_chunk chunks)
    {| start_chunk := Z.of_nat p;
       end_chunk := Z.of_nat p + Z.of_nat (length run) - 1;
       start_byte := sb;
       end_byte := from_option length 0%nat (last run);
       ie_shape := sh |} = Ok (drop sb (concat run)).
Proof.
  intros Hne Hrun Hsb. destruct run as [|x rest]; [congruence|]. clear Hne.
  cbn in Hsb.
  unfold entry_bytes. cbn [start_chunk end_chunk start_byte end_byte length].
  destruct (Z.ltb_spec (Z.of_nat p + Z.of_nat (S (length rest)) - 1) (Z.of_nat p));
    [lia|].
  destruct (Z.ltb_spec (Z.of_nat p) 0); [lia|].
  rewrite Nat2Z.id.
  replace (Z.to_nat (Z.of_nat p + Z.of_nat (S (length rest)) - 1))
    with (p + length rest)%nat by lia.
  pose proof (Hrun 0%nat x eq_refl) as Hx. rewrite Nat.add_0_r in Hx.
  apply nth_chunk_ok in Hx. unfold mbind, result_bind. rewrite Hx.
  destruct (last rest) as [d|] eqn:Hlast.
  - apply last_Some in Hlast as [mid ->].
    rewrite length_app in *. cbn [length] in *.
    destruct (Nat.eqb_spec p (p + (length mid + 1))); [lia|].
    replace (p + (length mid + 1) - p - 1)%nat with (length mid) by lia.
    rewrite (read_full_chunks_run chunks mid (S p)).
    2:{ intros j c Hj. replace (S p + j)%nat with (p + S j)%nat by lia.
        apply Hrun. cbn. apply lookup_app_l_Some. exact Hj. }
    assert (Hd : nth_chunk chunks (p + (length mid + 1)) = Ok d).
    { apply nth_chunk_ok.
      replace (p + (length mid + 1))%nat with (p + S (length mid))%nat by lia.
      apply Hrun. cbn. apply list_lookup_middle. reflexivity. }
    rewrite Hd.
    assert (Hlx : last (x :: mid ++ [d]) = Some d).
    { change (x :: mid ++ [d]) with ((x :: mid) ++ [d]). apply last_snoc. }
    rewrite Hlx. cbn [from_option].
    assert (Hget : get_bytes d 0 (length d) = Ok d).
    { apply get_bytes_ok. split; [lia|]. rewrite drop_0, firstn_all. reflexivity. }
    rewrite Hget. f_equal. cbn [concat]. rewrite concat_snoc.
    rewrite drop_app_le by exact Hsb. reflexivity.
  - apply last_None in Hlast as ->. cbn [length last from_option].
    rewrite Nat.add_0_r, Nat.eqb_refl.
    apply get_bytes_ok. split; [lia|]. cbn [concat]. rewrite app_nil_r.
    symmetry. apply take_ge. rewrite length_drop. lia.
Qed.

Lemma chunks_extend_app chunks new : chunks_extend chunks (chunks ++ new).
Proof.
  intros i c Hc. exists c. split; [apply lookup_app_l_Some; exact Hc|].
  split; [exists []; rewrite app_nil_r; reflexivity | auto].
Qed.

Lemma chunks_extend_last pre c more new :
  chunks_extend (pre ++ [c]) ((pre ++ [c ++ more]) ++ new).
Proof.
  intros i x Hx. pose proof (lookup_lt_Some _ _ _ Hx) as Hi.
  rewrite length_app in Hi. cbn in Hi.
  destruct (decide (i < length pre)%nat) as [Hlt|Hge].
  - rewrite lookup_app_l in Hx by exact Hlt.
    exists x. split.
    + apply lookup_app_l_Some, lookup_app_l_Some. exact Hx.
    + split; [exists []; rewrite app_nil_r; reflexivity | auto].
  - assert (i = length pre) by lia. subst i.
    rewrite lookup_app_r, Nat.sub_diag in Hx by lia. injection Hx as <-.
    exists (c ++ more). split.
    + apply lookup_app_l_Some. rewrite lookup_app_r, Nat.sub_diag by lia.
      reflexivity.
    + split; [eauto|]. rewrite length_app. cbn. lia.
Qed.

Lemma write_chunks_spec cs chunks buf sh chunks' e :
  (0 < cs)%nat ->
  write_chunks cs chunks buf sh = (chunks', e) ->
  chunks_extend chunks chunks' /\
  entry_bytes (nth_chunk chunks') e = Ok buf /\
  end_chunk e = Z.of_nat (length chunks') - 1 /\
  ie_shape e = sh.
Proof.
  intros Hcs. unfold write_chunks.
  assert (Hfresh :
    forall new, new = split_chunks (length buf) cs buf ->
    (chunks ++ new,
     {| start_chunk := Z.of_nat (length chunks) - 1 + 1;
        end_chunk := Z.of_nat (length chunks) - 1 + Z.of_nat (length new);
        start_byte := 0%nat;
        end_byte := from_option length 0%nat (last new);
        ie_shape := sh |}) = (chunks', e) ->
    chunks_extend chunks chunks' /\
    entry_bytes (nth_chunk chunks') e = Ok buf /\
    end_chunk e = Z.of_nat (length chunks') - 1 /\ ie_shape e = sh).
  { intros new Hnew [= <- <-]. split; [apply chunks_extend_app|].
    split; [|split; [cbn; rewrite length_app; lia | reflexivity]].
    destruct new as [|x new'] eqn:Hn.
    - symmetry in Hnew. apply split_chunks_nil in Hnew as ->; [|lia].
      unfold entry_bytes. cbn [start_chunk end_chunk length].
      destruct (Z.ltb_spec (Z.of_nat (length chunks) - 1 + Z.of_nat 0)
                  (Z.of_nat (length chunks) - 1 + 1)); [reflexivity | lia].
    - rewrite <- Hn in *.
      replace (Z.of_nat (length chunks) - 1 + 1)
        with (Z.of_nat (length chunks)) by lia.
      replace (Z.of_nat (length chunks) - 1 + Z.of_nat (length new))
        with (Z.of_nat (length chunks) + Z.of_nat (length new) - 1) by lia.
      rewrite (entry_bytes_run _ (length chunks) new 0 sh).
      + rewrite drop_0, Hnew, split_chunks_concat by (try exact Hcs; lia).
        reflexivity.
      + rewrite Hn. discriminate.
      + intros j c Hj. rewrite lookup_app_r by lia.
        replace (length chunks + j - length chunks)%nat with j by lia. exact Hj.
      + lia. }
  destruct (last chunks) as [c|] eqn:Hlast; [|apply Hfresh; reflexivity].
  destruct (Nat.ltb_spec (length c) cs) as [Hopen|Hfull];
    [|apply Hfresh; reflexivity].
  clear Hfresh. apply last_Some in Hlast as [pre ->].
  rewrite !ChunkNameFacts.set_last_snoc.
  rewrite !length_app. cbn [length].
  replace (Z.of_nat (length pre + 1) - 1) with (Z.of_nat (length pre)) by lia.
  destruct (Nat.leb_spec (length buf) (cs - length c)) as [Hfit|Hover].
  - intros [= <- <-]. split.
    { rewrite <- (app_nil_r (pre ++ [c ++ buf])). apply chunks_extend_last. }
    split; [|split; [cbn; rewrite length_app; cbn; lia | reflexivity]].
    pose proof (entry_bytes_run (pre ++ [c ++ buf]) (length pre) [c ++ buf]
                  (length c) sh) as Hrun.
    cbn [length last from_option head concat] in Hrun.
    rewrite length_app, app_nil_r in Hrun.
    replace (Z.of_nat (length pre) + Z.of_nat 1 - 1)
      with (Z.of_nat (length pre)) in Hrun by lia.
    rewrite Hrun.
    + rewrite drop_app_length. reflexivity.
    + discriminate.
    + intros [|j] x Hx; [|discriminate]. injection Hx as <-.
      rewrite Nat.add_0_r, lookup_app_r, Nat.sub_diag by lia. reflexivity.
    + lia.
  - set (new := split_chunks (length buf) cs (drop (cs - length c) buf)).
    intros [= <- <-]. split; [apply chunks_extend_last|].
    split; [|split; [cbn; rewrite !length_app; cbn; lia | reflexivity]].
    assert (Hconcat : concat new = drop (cs - length c) buf).
    { apply split_chunks_concat; [exact Hcs|]. rewrite length_drop. lia. }
    assert (Hnew : new <> []).
    { intros Hnil. rewrite Hnil in Hconcat. cbn in Hconcat.
      apply (f_equal length) in Hconcat. rewrite length_drop in Hconcat.
      cbn in Hconcat. lia. }
    pose proof (entry_bytes_run ((pre ++ [c ++ take (cs - length c) buf]) ++ new)
                  (length pre) ((c ++ take (cs - length c) buf) :: new)
                  (length c) sh) as Hrun.
    cbn [length head from_option concat] in Hrun.
    replace (Z.of_nat (length pre) + Z.of_nat (S (length new)) - 1)
      with (Z.of_nat (length pre) + Z.of_nat (length new)) in Hrun by lia.
    assert (Hl : last ((c ++ take (cs - length c) buf) :: new) = last new).
    { destruct new; [congruence | reflexivity]. }
    rewrite Hl in Hrun. rewrite Hrun.
    + rewrite Hconcat, <- app_assoc, drop_app_length, take_drop. reflexivity.
    + discriminate.
    + intros [|j] x Hx.
      * injection Hx as <-. rewrite Nat.add_0_r.
        apply lookup_app_l_Some. rewrite lookup_app_r, Nat.sub_diag by lia.
        reflexivity.
      * cbn in Hx. rewrite lookup_app_r by (rewrite length_app; cbn; lia).
        rewrite length_app. cbn [length].
        replace (length pre + S j - (length pre + 1))%nat with j by lia.
        exact Hx.
    + rewrite length_app. lia.
Qed.

(** **** [write_bytes] on the storage follows [write_chunks] *)

Lemma chunks_in_other key k v st chunks :
  (forall i, k <> chunk_key key i) ->
  chunks_in key st chunks -> chunks_in key (<[k := v]> st) chunks.
Proof.
  intros Hk Hin i c Hc. rewrite lookup_insert_ne by apply Hk. apply Hin, Hc.
Qed.

Lemma chunks_in_app_l key st pre new :
  chunks_in key st (pre ++ new) -> chunks_in key st pre.
Proof. intros Hin i c Hc. apply Hin, lookup_app_l_Some, Hc. Qed.

Lemma chunks_in_snoc key st pre c :
  chunks_in key st pre ->
  chunks_in key (<[chunk_key key (length pre) := OBytes c]> st) (pre ++ [c]).
Proof.
  intros Hin i x Hx. pose proof (lookup_lt_Some _ _ _ Hx) as Hi.
  rewrite length_app in Hi. cbn in Hi.
  destruct (decide (i = length pre)) as [->|Hne].
  - rewrite list_lookup_middle in Hx by reflexivity. injection Hx as <-.
    apply lookup_insert_eq.
  - rewrite lookup_app_l in Hx by lia.
    rewrite lookup_insert_ne by (intros H; apply chunk_key_inj in H; lia).
    apply Hin, Hx.
Qed.

Lemma store_chunks_in key new : forall pre st,
  chunks_in key st pre ->
  chunks_in key (store_chunks key (length pre) new st) (pre ++ new).
Proof.
  induction new as [|c new IH]; intros pre st Hin; cbn [store_chunks].
  - rewrite app_nil_r. exact Hin.
  - replace (pre ++ c :: new) with ((pre ++ [c]) ++ new)
      by (rewrite <- app_assoc; reflexivity).
    replace (S (length pre)) with (length (pre ++ [c]))
      by (rewrite length_app; cbn; lia).
    apply IH, chunks_in_snoc, Hin.
Qed.

Lemma open_last_chunk_spec key cs st chunks :
  chunks_in key st chunks ->
  last_chunk_index (IndexMap key st) = Z.of_nat (length chunks) - 1 ->
  open_last_chunk key cs (IndexMap key st) st =
    match last chunks with
    | Some c => if (length c <? cs)%nat then Some c else None
    | None => None
    end.
Proof.
  intros Hin Hidx. unfold open_last_chunk. rewrite Hidx.
  destruct (last chunks) as [c|] eqn:Hlast.
  - apply last_Some in Hlast as [pre ->].
    rewrite length_app. cbn [length].
    destruct (Z.ltb_spec (Z.of_nat (length pre + 1) - 1) 0); [lia|].
    replace (Z.to_nat (Z.of_nat (length pre + 1) - 1)) with (length pre) by lia.
    unfold read_chunk.
    rewrite (Hin (length pre) c) by (apply list_lookup_middle; reflexivity).
    reflexivity.
  - apply last_None in Hlast as ->. reflexivity.
Qed.

Lemma IndexMap_insert key entries st :
  IndexMap key (<[get_index_map_key key := OIndexMap entries]> st) = entries.
Proof. unfold IndexMap. rewrite lookup_insert_eq. reflexivity. Qed.

Lemma write_bytes_refines buf key cs sh st chunks chunks' e :
  chunks_in key st chunks ->
  last_chunk_index (IndexMap key st) = Z.of_nat (length chunks) - 1 ->
  write_chunks cs chunks buf sh = (chunks', e) ->
  exists st',
    write_bytes buf key cs sh st = (Ok tt, st') /\
    IndexMap key st' = IndexMap key st ++ [e] /\
    chunks_in key st' chunks' /\
    st' !! get_tensor_meta_key key = st !! get_tensor_meta_key key.
Proof.
  intros Hin Hidx Hw.
  destruct (write_bytes_result buf key cs sh st) as (st' & Hrun & Hmeta).
  exists st'. split; [exact Hrun|]. split; [|split; [|exact Hmeta]];
    revert Hrun Hw; unfold write_bytes, write_chunks;
    rewrite (open_last_chunk_spec key cs st chunks Hin Hidx), Hidx;
    (destruct (last chunks) as [c|] eqn:Hlast;
      [destruct (Nat.ltb_spec (length c) cs) as [Hopen|Hfull]|]);
    cbn [from_option];
    try (destruct (Nat.leb_spec (length buf) (cs - length c)) as [Hfit|Hover]);
    intros [= <-] [= <- <-]; try apply IndexMap_insert;
    apply chunks_in_other; try apply index_map_key_not_chunk.
  - apply last_Some in Hlast as [pre ->].
    rewrite ChunkNameFacts.set_last_snoc, length_app. cbn [length].
    replace (Z.to_nat (Z.of_nat (length pre + 1) - 1)) with (length pre) by lia.
    apply chunks_in_snoc, (chunks_in_app_l _ _ _ [c]), Hin.
  - apply last_Some in Hlast as [pre ->].
    rewrite ChunkNameFacts.set_last_snoc, length_app. cbn [length].
    replace (Z.to_nat (Z.of_nat (length pre + 1) - 1)) with (length pre) by lia.
    replace (Z.to_nat (Z.of_nat (length pre + 1) - 1 + 1))
      with (length (pre ++ [c ++ take (cs - length c) buf]))
      by (rewrite length_app; cbn; lia).
    apply store_chunks_in, chunks_in_snoc, (chunks_in_app_l _ _ _ [c]), Hin.
  - replace (Z.to_nat (Z.of_nat (length chunks) - 1 + 1))
      with (length chunks) by lia.
    apply store_chunks_in, Hin.
  - replace (Z.to_nat (Z.of_nat (length chunks) - 1 + 1))
      with (length chunks) by lia.
    apply store_chunks_in, Hin.
  - replace (Z.to_nat (Z.of_nat (length chunks) - 1 + 1))
      with (length chunks) by lia.
    apply store_chunks_in, Hin.
Qed.

(** **** Appending keeps the samples readable *)

Lemma last_chunk_index_snoc entries e :
  last_chunk_index (entries ++ [e]) = end_chunk e.
Proof. unfold last_chunk_index. rewrite last_snoc. reflexivity. Qed.

Lemma tensor_inv_write_bytes key st chunks samples a cs :
  (0 < cs)%nat ->
  tensor_inv key st chunks samples ->
  exists st' chunks',
    write_bytes (data a) key cs (shape a) st = (Ok tt, st') /\
    tensor_inv key st' chunks' (samples ++ [a]) /\
    st' !! get_tensor_meta_key key = st !! get_tensor_meta_key key.
Proof.
  intros Hcs (Hin & Hidx & Hall).
  destruct (write_chunks cs chunks (data a) (shape a)) as [chunks' e] eqn:Hw.
  destruct (write_chunks_spec _ _ _ _ _ _ Hcs Hw) as (Hext & He & Hend & Hsh).
  destruct (write_bytes_refines _ key _ _ st _ _ _ Hin Hidx Hw)
    as (st' & Hrun & Hmap & Hin' & Hmeta).
  exists st', chunks'. split; [exact Hrun|]. split; [|exact Hmeta].
  split; [exact Hin'|]. rewrite Hmap. split.
  - rewrite last_chunk_index_snoc. exact Hend.
  - apply Forall2_app.
    + eapply Forall2_impl; [exact Hall|]. intros e0 a0 [Hb Hs].
      split; [|exact Hs]. eapply entry_bytes_stable; eassumption.
    + constructor; [|constructor]. split; assumption.
Qed.

Lemma tensor_inv_other key k v st chunks samples :
  k <> get_index_map_key key ->
  (forall i, k <> chunk_key key i) ->
  tensor_inv key st chunks samples ->
  tensor_inv key (<[k := v]> st) chunks samples.
Proof.
  intros Hk Hc (Hin & Hidx & Hall).
  assert (Hmap : IndexMap key (<[k := v]> st) = IndexMap key st).
  { unfold IndexMap. rewrite lookup_insert_ne by exact Hk. reflexivity. }
  split; [apply chunks_in_other; assumption|]. rewrite Hmap. split; assumption.
Qed.

Lemma tensor_inv_write_meta key m st chunks samples :
  tensor_inv key st chunks samples ->
  tensor_inv key (<[get_tensor_meta_key key := OTensorMeta m]> st)
    chunks samples.
Proof.
  apply tensor_inv_other.
  - intros H. exact (meta_key_not_index_map _ _ H eq_refl).
  - intros i. apply meta_key_not_chunk.
Qed.

(** One [append] of an array of the dtype and of the shape of the tensor. *)
Lemma append_step key st chunks samples a m :
  tensor_inv key st chunks samples ->
  st !! get_tensor_meta_key key = Some (OTensorMeta m) ->
  tm_dtype m = dtype a ->
  tm_min_shape m = shape a -> tm_max_shape m = shape a ->
  (0 < tm_chunk_size m)%nat ->
  exists st' chunks',
    add_samples_to_tensor a key false st = (Ok tt, st') /\
    tensor_inv key st' chunks' (samples ++ [a]) /\
    st' !! get_tensor_meta_key key =
      Some (OTensorMeta (set_length m (tm_length m + 1))).
Proof.
  intros Hinv Hm Hdt Hmin Hmax Hcs.
  apply read_tensor_meta_lookup in Hm as [Hread Hex].
  assert (Hc : _check_array_and_tensor_are_compatible m (expand_dims0 a)
               = Ok tt).
  { rewrite check_cases; cbn [expand_dims0 dtype shape tail];
      [|congruence..].
    case_decide as Hd; [reflexivity|]. destruct Hd. split; assumption. }
  assert (Hat : array_at (expand_dims0 a) 0 =
                {| dtype := dtype a; shape := shape a; data := data a |}).
  { unfold array_at, expand_dims0. cbn [dtype shape data tail].
    rewrite Nat.div_1_r, Nat.mul_0_l, drop_0, firstn_all. reflexivity. }
  destruct (tensor_inv_write_bytes key st chunks samples a _ Hcs Hinv)
    as (st1 & chunks' & Hrun & Hinv' & Hmeta).
  unfold add_samples_to_tensor, bindM, reads, lift, normalize_and_batchify_shape.
  rewrite Hex. cbn [negb]. rewrite Hread, Hc.
  cbn [expand_dims0 shape seq for_each]. fold (expand_dims0 a).
  unfold bindM, row_wise_to_bytes. rewrite Hat. cbn [data shape].
  rewrite Hrun. cbn [ret write_tensor_meta writes].
  eexists _, chunks'. split; [reflexivity|].
  split; [apply tensor_inv_write_meta, Hinv' | apply lookup_insert_eq].
Qed.

Lemma appends_steps key arrays : forall st chunks samples m,
  tensor_inv key st chunks samples ->
  st !! get_tensor_meta_key key = Some (OTensorMeta m) ->
  (0 < tm_chunk_size m)%nat ->
  Forall (fun a => dtype a = tm_dtype m /\ shape a = tm_min_shape m /\
                   shape a = tm_max_shape m) arrays ->
  exists st' chunks',
    for_each arrays (fun a => add_samples_to_tensor a key false) st
      = (Ok tt, st') /\
    tensor_inv key st' chunks' (samples ++ arrays) /\
    st' !! get_tensor_meta_key key =
      Some (OTensorMeta
              (set_length m (tm_length m + Z.of_nat (length arrays)))).
Proof.
  induction arrays as [|a arrays IH]; intros st chunks samples m Hinv Hm Hcs Hall.
  - exists st, chunks. split; [reflexivity|]. rewrite app_nil_r.
    split; [exact Hinv|]. rewrite Hm. do 2 f_equal.
    destruct m. unfold set_length. cbn. f_equal. lia.
  - apply Forall_cons in Hall as [(Hdt & Hmin & Hmax) Hall].
    destruct (append_step key st chunks samples a m Hinv Hm)
      as (st1 & chunks1 & Hrun & Hinv1 & Hm1); [congruence..|exact Hcs|].
    destruct (IH st1 chunks1 (samples ++ [a]) _ Hinv1 Hm1 Hcs Hall)
      as (st2 & chunks2 & Hrun2 & Hinv2 & Hm2).
    exists st2, chunks2. cbn [for_each]. unfold bindM at 1. rewrite Hrun.
    split; [exact Hrun2|]. split.
    + rewrite <- app_assoc in Hinv2. exact Hinv2.
    + rewrite Hm2. do 2 f_equal. unfold set_length. cbn. f_equal. lia.
Qed.

(** **** Reading the samples back *)

Lemma read_chunk_in key st chunks i c :
  chunks_in key st chunks ->
  nth_chunk chunks i = Ok c -> read_chunk key i st = Ok c.
Proof.
  intros Hin. unfold nth_chunk, read_chunk.
  destruct (chunks !! i) as [c'|] eqn:Hc; [|discriminate].
  intros [= <-]. rewrite (Hin i c' Hc). reflexivity.
Qed.

Lemma frombuffer_of_array a :
  wf_array a -> frombuffer_reshape (data a) (dtype a) (shape a) = Ok a.
Proof.
  intros (sz & Hsz & Hlen). unfold frombuffer_reshape. rewrite Hsz.
  case_decide; [|contradiction]. destruct a. reflexivity.
Qed.

Lemma read_entries_ok key st dt chunks entries samples :
  chunks_in key st chunks ->
  Forall2 (fun e a => entry_bytes (nth_chunk chunks) e = Ok (data a) /\
                      ie_shape e = shape a) entries samples ->
  Forall (fun a => wf_array a /\ dtype a = dt) samples ->
  read_entries key st dt entries = Ok samples.
Proof.
  intros Hin Hall. induction Hall as [|e a entries samples [Hb Hs] Hall IH];
    intros Hwf; [reflexivity|].
  apply Forall_cons in Hwf as [[Hwf Hdt] Hrest].
  cbn [read_entries]. unfold sample_from_index_entry.
  rewrite (entry_bytes_agree (fun i => read_chunk key i st)
             (nth_chunk chunks) e (data a))
    by (try exact Hb; intros i c; apply read_chunk_in, Hin).
  unfold mbind, result_bind. rewrite Hs, <- Hdt, frombuffer_of_array by exact Hwf.
  rewrite Hdt, (IH Hrest). reflexivity.
Qed.

Lemma py_slice_all {A} (l : list A) : py_slice l (None, None) = l.
Proof.
  unfold py_slice. cbn. rewrite Nat.sub_0_r, drop_0. apply firstn_all.
Qed.

Lemma read_all_samples key st chunks samples m :
  tensor_inv key st chunks samples ->
  st !! get_tensor_meta_key key = Some (OTensorMeta m) ->
  Forall (fun a => wf_array a /\ dtype a = tm_dtype m) samples ->
  read_samples_from_tensor key Index_all st = (array_of_list samples, st).
Proof.
  intros (Hin & _ & Hall) Hm Hwf.
  apply read_tensor_meta_lookup in Hm as [Hread _].
  unfold read_samples_from_tensor, bindM, reads, lift. rewrite Hread.
  cbn [Index_all item to_slice id]. rewrite py_slice_all.
  rewrite (read_entries_ok key st _ chunks _ samples Hin Hall Hwf).
  reflexivity.
Qed.

Lemma stack_same (d : string) (S : list nat) arrays :
  arrays <> [] ->
  Forall (fun a => shape a = S /\ dtype a = d) arrays ->
  stack arrays = Ok {| dtype := d; shape := length arrays :: S;
                       data := concat (map data arrays) |}.
Proof.
  intros Hne Hall. destruct arrays as [|a arrays]; [congruence|].
  unfold stack.
  assert (Ha : shape a = S /\ dtype a = d)
    by (apply Forall_cons in Hall as [Ha _]; exact Ha).
  destruct Ha as [HS Hd].
  assert (Hf : forallb
                 (fun b => bool_decide (shape b = shape a /\ dtype b = dtype a))
                 (a :: arrays) = true).
  { apply forallb_forall. intros b Hb. apply bool_decide_eq_true.
    rewrite Forall_forall in Hall. apply list_elem_of_In in Hb.
    destruct (Hall b Hb). split; congruence. }
  rewrite Hf, HS, Hd. reflexivity.
Qed.

Lemma tensor_inv_created key m st0 :
  st0 !! get_index_map_key key = None ->
  tensor_inv key (<[get_tensor_meta_key key := OTensorMeta m]> st0) [] [].
Proof.
  intros Hfresh. apply tensor_inv_write_meta.
  split; [intros i c Hc; discriminate|].
  unfold IndexMap. rewrite Hfresh. split; [reflexivity | constructor].
Qed.

(** C1. On a tensor created with the fixed sample shape [sh] (lower and
    upper bound of the meta both [sh]) in a storage that holds nothing of the
    tensor yet, every non-empty sequence of [append] calls with arrays of the
    shape [sh] and of the declared dtype succeeds, and the full read
    [tensor.numpy()] that follows returns [np.stack] of the appended arrays:
    the array of the declared dtype and of shape [(n,) + sh] whose buffer is
    that of the appended arrays one after the other. *)
Theorem append_numpy_round_trip (validate : tensor_meta -> result unit)
    (key : string) (meta : tensor_meta) (sh : list nat)
    (arrays : list ndarray) (st0 : storage) :
  st0 !! get_tensor_meta_key key = None ->
  st0 !! get_index_map_key key = None ->
  validate (set_length meta 0) = Ok tt ->
  (0 < tm_chunk_size meta)%nat ->
  tm_min_shape meta = sh -> tm_max_shape meta = sh ->
  arrays <> [] ->
  Forall (fun a => wf_array a /\ dtype a = tm_dtype meta /\ shape a = sh)
    arrays ->
  exists st1 st2 t,
    create_tensor validate key meta st0 = (Ok tt, st1) /\
    Tensor.__init__ key None st1 = (Ok t, st1) /\
    for_each arrays (Tensor.append t) st1 = (Ok tt, st2) /\
    Tensor.numpy t st2 = (stack arrays, st2) /\
    stack arrays = Ok {| dtype := tm_dtype meta;
                         shape := length arrays :: sh;
                         data := concat (map data arrays) |}.
Proof.
  intros Hnew Hfresh Hval Hcs Hmin Hmax Hne Hall.
  set (m0 := set_length meta 0).
  set (st1 := <[get_tensor_meta_key key := OTensorMeta m0]> st0).
  assert (Hm1 : st1 !! get_tensor_meta_key key = Some (OTensorMeta m0))
    by apply lookup_insert_eq.
  assert (Hshapes : Forall (fun a => dtype a = tm_dtype m0 /\
                                     shape a = tm_min_shape m0 /\
                                     shape a = tm_max_shape m0) arrays).
  { eapply Forall_impl; [exact Hall|]. cbn. intros a (_ & Hd & Hs).
    repeat split; congruence. }
  destruct (appends_steps key arrays st1 [] [] m0
              (tensor_inv_created key m0 st0 Hfresh) Hm1 Hcs Hshapes)
    as (st2 & chunks & Hrun & Hinv & Hm2).
  exists st1, st2, {| Tensor.key := key; Tensor.index := Index_all |}.
  split; [|split; [|split; [exact Hrun|split]]].
  - unfold create_tensor, bindM, reads, lift, tensor_exists.
    rewrite Hnew, bool_decide_eq_false_2 by (intros [x Hx]; discriminate).
    rewrite Hval. reflexivity.
  - unfold Tensor.__init__, bindM, reads.
    apply read_tensor_meta_lookup in Hm1 as [_ ->]. reflexivity.
  - unfold Tensor.numpy. cbn [Tensor.key Tensor.index].
    rewrite (read_all_samples key st2 chunks arrays _ Hinv Hm2).
    + destruct arrays; [congruence | reflexivity].
    + eapply Forall_impl; [exact Hall|]. cbn. tauto.
  - apply stack_same; [exact Hne|].
    eapply Forall_impl; [exact Hall|]. cbn. tauto.
Qed.

Lemma append_numpy_round_trip_witness :
  let meta := {| tm_dtype := "uint8"; tm_length := 0;
                 tm_min_shape := [2]%nat; tm_max_shape := [2]%nat;
                 tm_chunk_size := 3 |} in
  let a0 := {| dtype := "uint8"; shape := [2]%nat;
               data := ["001"; "002"]%byte |} in
  let a1 := {| dtype := "uint8"; shape := [2]%nat;
               data := ["003"; "004"]%byte |} in
  exists st1 st2 t,
    create_tensor (fun _ => Ok tt) "image" meta ∅ = (Ok tt, st1) /\
    Tensor.__init__ "image" None st1 = (Ok t, st1) /\
    for_each [a0; a1] (Tensor.append t) st1 = (Ok tt, st2) /\
    Tensor.numpy t st2 = (stack [a0; a1], st2) /\
    stack [a0; a1] = Ok {| dtype := "uint8"; shape := [2; 2]%nat;
                           data := ["001"; "002"; "003"; "004"]%byte |}.
Proof.
  intros meta a0 a1.
  apply (append_numpy_round_trip (fun _ => Ok tt) "image" meta [2]%nat
           [a0; a1] ∅).
  - reflexivity.
  - reflexivity.
  - reflexivity.
  - simpl. lia.
  - reflexivity.
  - reflexivity.
  - discriminate.
  - repeat constructor; exists 1%nat; split; reflexivity.
Defined.

(** Without any append the read is [np.array([])], the empty [float64]
    vector: there is nothing to stack. *)
Lemma numpy_of_new_tensor (validate : tensor_meta -> result unit)
    (key : string) (meta : tensor_meta) (st0 st1 : storage) :
  st0 !! get_index_map_key key = None ->
  create_tensor validate key meta st0 = (Ok tt, st1) ->
  read_samples_from_tensor key Index_all st1 =
    (Ok {| dtype := "float64"; shape := [0%nat]; data := [] |}, st1).
Proof.
  intros Hfresh Hc. apply create_tensor_ok in Hc as ->.
  rewrite (read_all_samples key _ [] [] (set_length meta 0)).
  - reflexivity.
  - apply tensor_inv_created, Hfresh.
  - apply lookup_insert_eq.
  - constructor.
Qed.

(** **** Reading a range of samples *)

Lemma read_entries_slice key st chunks samples dt sl :
  tensor_inv key st chunks samples ->
  Forall (fun a => wf_array a /\ dtype a = dt) samples ->
  read_entries key st dt (py_slice (IndexMap key st) sl)
    = Ok (py_slice samples sl).
Proof.
  intros (Hin & _ & Hall) Hwf.
  apply (read_entries_ok key st dt chunks); [exact Hin| |].
  - unfold py_slice. rewrite (Forall2_length _ _ _ Hall).
    apply Forall2_take, Forall2_drop, Hall.
  - unfold py_slice. apply Forall_take, Forall_drop, Hwf.
Qed.

(** [tensor[start:stop].numpy()] is [np.array] of the samples of the range,
    and [tensor[i].numpy()] is the sample [i]. *)
Lemma read_sample_range key st chunks samples m start stop :
  tensor_inv key st chunks samples ->
  st !! get_tensor_meta_key key = Some (OTensorMeta m) ->
  Forall (fun a => wf_array a /\ dtype a = tm_dtype m) samples ->
  read_samples_from_tensor key {| item := ItemSlice start stop |} st
    = (array_of_list (py_slice samples (start, stop)), st).
Proof.
  intros Hinv Hm Hwf.
  apply read_tensor_meta_lookup in Hm as [Hread _].
  unfold read_samples_from_tensor, bindM, reads, lift. rewrite Hread.
  cbn [item to_slice id].
  rewrite (read_entries_slice key st chunks samples _ _ Hinv Hwf).
  reflexivity.
Qed.

Lemma read_one_sample key st chunks samples m i a :
  tensor_inv key st chunks samples ->
  st !! get_tensor_meta_key key = Some (OTensorMeta m) ->
  Forall (fun a => wf_array a /\ dtype a = tm_dtype m) samples ->
  samples !! i = Some a ->
  read_samples_from_tensor key {| item := ItemInt i |} st = (Ok a, st).
Proof.
  intros Hinv Hm Hwf Hi.
  apply read_tensor_meta_lookup in Hm as [Hread _].
  unfold read_samples_from_tensor, bindM, reads, lift. rewrite Hread.
  cbn [item to_slice id].
  rewrite (read_entries_slice key st chunks samples _ _ Hinv Hwf).
  unfold py_slice. cbn [fst snd from_option]. unfold id.
  replace (S i - i)%nat with 1%nat by lia.
  destruct (drop i samples) as [|b rest] eqn:Hd.
  - apply (f_equal length) in Hd. rewrite length_drop in Hd.
    apply lookup_lt_Some in Hi. cbn in Hd. lia.
  - assert (Hb : drop i samples !! 0%nat = Some a)
      by (rewrite lookup_drop, Nat.add_0_r; exact Hi).
    rewrite Hd in Hb. injection Hb as ->. reflexivity.
Qed.

Lemma read_past_the_end key st chunks samples m i :
  tensor_inv key st chunks samples ->
  st !! get_tensor_meta_key key = Some (OTensorMeta m) ->
  Forall (fun a => wf_array a /\ dtype a = tm_dtype m) samples ->
  samples !! i = None ->
  read_samples_from_tensor key {| item := ItemInt i |} st
    = (Raise (IndexError "list index out of range"), st).
Proof.
  intros Hinv Hm Hwf Hi.
  apply read_tensor_meta_lookup in Hm as [Hread _].
  unfold read_samples_from_tensor, bindM, reads, lift. rewrite Hread.
  cbn [item to_slice id].
  rewrite (read_entries_slice key st chunks samples _ _ Hinv Hwf).
  unfold py_slice. cbn [fst snd from_option]. unfold id.
  apply lookup_ge_None_1 in Hi. rewrite drop_ge by exact Hi.
  rewrite take_nil. reflexivity.
Qed.

(** **** Creating a tensor *)

(** X12. A successful [create_tensor] was run on a storage without the
    tensor, stores the meta with its length set to 0 whatever length the
    given meta carried, and makes the tensor exist: every later
    [create_tensor] on the same key raises [TensorAlreadyExistsError] before
    its meta is validated and leaves the storage as it is. *)
Theorem create_tensor_once (validate : tensor_meta -> result unit)
    (key : string) (meta : tensor_meta) (st0 st1 : storage) :
  create_tensor validate key meta st0 = (Ok tt, st1) ->
  tensor_exists key st0 = false /\
  tensor_exists key st1 = true /\
  read_tensor_meta key st1 = (Ok (set_length meta 0), st1) /\
  forall validate' meta',
    create_tensor validate' key meta' st1
      = (Raise (TensorAlreadyExistsError key), st1).
Proof.
  intros Hc. pose proof (create_tensor_ok _ _ _ _ _ Hc) as ->.
  assert (Hm : <[get_tensor_meta_key key := OTensorMeta (set_length meta 0)]>
                 st0 !! get_tensor_meta_key key
               = Some (OTensorMeta (set_length meta 0)))
    by apply lookup_insert_eq.
  apply read_tensor_meta_lookup in Hm as [Hread Hex].
  split; [|split; [exact Hex|split; [exact Hread|]]].
  - unfold create_tensor, bindM, reads, raise in Hc.
    destruct (tensor_exists key st0); [discriminate | reflexivity].
  - intros validate' meta'. unfold create_tensor, bindM, reads, raise.
    rewrite Hex. reflexivity.
Qed.

Lemma create_tensor_once_witness :
  let meta := {| tm_dtype := "uint8"; tm_length := 7;
                 tm_min_shape := [2]%nat; tm_max_shape := [2]%nat;
                 tm_chunk_size := 3 |} in
  exists st1,
    create_tensor (fun _ => Ok tt) "image" meta ∅ = (Ok tt, st1) /\
    read_tensor_meta "image" st1 = (Ok (set_length meta 0), st1) /\
    create_tensor (fun _ => Ok tt) "image" meta st1
      = (Raise (TensorAlreadyExistsError "image"), st1).
Proof.
  intros meta.
  set (st1 := <[get_tensor_meta_key "image" :=
                  OTensorMeta (set_length meta 0)]> (∅ : storage)).
  assert (Hc : create_tensor (fun _ => Ok tt) "image" meta ∅ = (Ok tt, st1))
    by reflexivity.
  exists st1. split; [exact Hc|].
  destruct (create_tensor_once (fun _ => Ok tt) "image" meta ∅ st1 Hc)
    as (_ & _ & Hread & Hagain).
  split; [exact Hread | apply Hagain].
Defined.

(** X13. An array whose samples have another number of dimensions than the
    tensor is refused before anything is written: when the dtype matches
    and the rank of the samples differs from the length of [min_shape],
    [add_samples_to_tensor] raises
    [TensorMetaMismatchError("min_shape", min_shape, rank)] and the storage
    is returned as it was. *)
Theorem append_rank_mismatch (array : ndarray) (key : string)
    (batched : bool) (st : storage) (m : tensor_meta) :
  st !! get_tensor_meta_key key = Some (OTensorMeta m) ->
  tm_dtype m = dtype array ->
  length (tm_min_shape m)
    <> length (tail (shape (normalize_and_batchify_shape array batched))) ->
  add_samples_to_tensor array key batched st =
    (Raise (TensorMetaMismatchError "min_shape" (PShape (tm_min_shape m))
              (PInt (Z.of_nat
                 (length
                    (tail (shape
                       (normalize_and_batchify_shape array batched))))))),
     st).
Proof.
  intros Hm Hdt Hrank. apply (add_samples_rejected _ _ _ _ m); [exact Hm|].
  unfold _check_array_and_tensor_are_compatible.
  assert (Hd : dtype (normalize_and_batchify_shape array batched) = dtype array)
    by (destruct batched; reflexivity).
  rewrite Hd, Hdt, String.eqb_refl. cbn [negb].
  destruct (Nat.eqb_spec (length (tm_min_shape m))
              (length (tail (shape
                 (normalize_and_batchify_shape array batched)))));
    [contradiction | reflexivity].
Qed.

Lemma append_rank_mismatch_witness :
  let m := {| tm_dtype := "uint8"; tm_length := 0;
              tm_min_shape := [2; 2]%nat; tm_max_shape := [2; 2]%nat;
              tm_chunk_size := 3 |} in
  let st := <[get_tensor_meta_key "image" := OTensorMeta m]> (∅ : storage) in
  let a := {| dtype := "uint8"; shape := [4]%nat;
              data := ["001"; "002"; "003"; "004"]%byte |} in
  add_samples_to_tensor a "image" false st =
    (Raise (TensorMetaMismatchError "min_shape" (PShape [2; 2]%nat) (PInt 1)),
     st).
Proof.
  intros m st a.
  assert (Hm : st !! get_tensor_meta_key "image" = Some (OTensorMeta m))
    by reflexivity.
  apply (append_rank_mismatch a "image" false st m Hm eq_refl).
  simpl. lia.
Defined.

(** **** Reading after appends *)

(** The storage after a tensor is created and arrays are appended to it. *)
Lemma appended_state (validate : tensor_meta -> result unit)
    (key : string) (meta : tensor_meta) (sh : list nat)
    (arrays : list ndarray) (st0 : storage) :
  st0 !! get_tensor_meta_key key = None ->
  st0 !! get_index_map_key key = None ->
  validate (set_length meta 0) = Ok tt ->
  (0 < tm_chunk_size meta)%nat ->
  tm_min_shape meta = sh -> tm_max_shape meta = sh ->
  Forall (fun a => wf_array a /\ dtype a = tm_dtype meta /\ shape a = sh)
    arrays ->
  exists st1 st2 chunks,
    create_tensor validate key meta st0 = (Ok tt, st1) /\
    for_each arrays (fun a => add_samples_to_tensor a key false) st1
      = (Ok tt, st2) /\
    tensor_inv key st2 chunks arrays /\
    st2 !! get_tensor_meta_key key =
      Some (OTensorMeta (set_length meta (Z.of_nat (length arrays)))).
Proof.
  intros Hnew Hfresh Hval Hcs Hmin Hmax Hall.
  set (m0 := set_length meta 0).
  set (st1 := <[get_tensor_meta_key key := OTensorMeta m0]> st0).
  assert (Hm1 : st1 !! get_tensor_meta_key key = Some (OTensorMeta m0))
    by apply lookup_insert_eq.
  assert (Hshapes : Forall (fun a => dtype a = tm_dtype m0 /\
                                     shape a = tm_min_shape m0 /\
                                     shape a = tm_max_shape m0) arrays).
  { eapply Forall_impl; [exact Hall|]. cbn. intros a (_ & Hd & Hs).
    repeat split; congruence. }
  destruct (appends_steps key arrays st1 [] [] m0
              (tensor_inv_created key m0 st0 Hfresh) Hm1 Hcs Hshapes)
    as (st2 & chunks & Hrun & Hinv & Hm2).
  exists st1, st2, chunks. split; [|split; [exact Hrun|split; [exact Hinv|]]].
  - unfold create_tensor, bindM, reads, lift, tensor_exists.
    rewrite Hnew, bool_decide_eq_false_2 by (intros [x Hx]; discriminate).
    rewrite Hval. reflexivity.
  - rewrite Hm2. reflexivity.
Qed.

(** X14. After a tensor is created and arrays of its dtype and shape are
    appended, reading with the integer index [i] returns the [i]-th
    appended array itself, without a batch axis, and an index past the last
    sample raises [IndexError]. *)
Theorem read_appended_sample (validate : tensor_meta -> result unit)
    (key : string) (meta : tensor_meta) (sh : list nat)
    (arrays : list ndarray) (st0 : storage) (i : nat) :
  st0 !! get_tensor_meta_key key = None ->
  st0 !! get_index_map_key key = None ->
  validate (set_length meta 0) = Ok tt ->
  (0 < tm_chunk_size meta)%nat ->
  tm_min_shape meta = sh -> tm_max_shape meta = sh ->
  Forall (fun a => wf_array a /\ dtype a = tm_dtype meta /\ shape a = sh)
    arrays ->
  exists st1 st2,
    create_tensor validate key meta st0 = (Ok tt, st1) /\
    for_each arrays (fun a => add_samples_to_tensor a key false) st1
      = (Ok tt, st2) /\
    read_samples_from_tensor key {| item := ItemInt i |} st2 =
      (match arrays !! i with
       | Some a => Ok a
       | None => Raise (IndexError "list index out of range")
       end, st2).
Proof.
  intros Hnew Hfresh Hval Hcs Hmin Hmax Hall.
  destruct (appended_state validate key meta sh arrays st0)
    as (st1 & st2 & chunks & Hc & Hrun & Hinv & Hm); try assumption.
  exists st1, st2. split; [exact Hc|]. split; [exact Hrun|].
  assert (Hwf : Forall (fun a => wf_array a /\
      dtype a = tm_dtype (set_length meta (Z.of_nat (length arrays)))) arrays).
  { eapply Forall_impl; [exact Hall|]. cbn. tauto. }
  destruct (arrays !! i) as [a|] eqn:Hi.
  - exact (read_one_sample key st2 chunks arrays _ i a Hinv Hm Hwf Hi).
  - exact (read_past_the_end key st2 chunks arrays _ i Hinv Hm Hwf Hi).
Qed.

Lemma read_appended_sample_witness :
  let meta := {| tm_dtype := "uint8"; tm_length := 0;
                 tm_min_shape := [2]%nat; tm_max_shape := [2]%nat;
                 tm_chunk_size := 3 |} in
  let a0 := {| dtype := "uint8"; shape := [2]%nat;
               data := ["001"; "002"]%byte |} in
  let a1 := {| dtype := "uint8"; shape := [2]%nat;
               data := ["003"; "004"]%byte |} in
  exists st1 st2,
    create_tensor (fun _ => Ok tt) "image" meta ∅ = (Ok tt, st1) /\
    for_each [a0; a1] (fun a => add_samples_to_tensor a "image" false) st1
      = (Ok tt, st2) /\
    read_samples_from_tensor "image" {| item := ItemInt 1 |} st2
      = (Ok a1, st2).
Proof.
  intros meta a0 a1.
  apply (read_appended_sample (fun _ => Ok tt) "image" meta [2]%nat
           [a0; a1] ∅ 1).
  - reflexivity.
  - reflexivity.
  - reflexivity.
  - simpl. lia.
  - reflexivity.
  - reflexivity.
  - repeat constructor; exists 1%nat; split; reflexivity.
Defined.

(** X15. After a tensor is created and arrays of its dtype and shape are
    appended, reading with the slice [start:stop] returns [np.array] of the
    appended arrays at the positions of the slice, in order; the slice is
    cut at the number of samples as Python does, and a slice that selects
    nothing gives the empty array. *)
Theorem read_appended_range (validate : tensor_meta -> result unit)
    (key : string) (meta : tensor_meta) (sh : list nat)
    (arrays : list ndarray) (st0 : storage) (start stop : option nat) :
  st0 !! get_tensor_meta_key key = None ->
  st0 !! get_index_map_key key = None ->
  validate (set_length meta 0) = Ok tt ->
  (0 < tm_chunk_size meta)%nat ->
  tm_min_shape meta = sh -> tm_max_shape meta = sh ->
  Forall (fun a => wf_array a /\ dtype a = tm_dtype meta /\ shape a = sh)
    arrays ->
  exists st1 st2,
    create_tensor validate key meta st0 = (Ok tt, st1) /\
    for_each arrays (fun a => add_samples_to_tensor a key false) st1
      = (Ok tt, st2) /\
    read_samples_from_tensor key {| item := ItemSlice start stop |} st2 =
      (array_of_list (py_slice arrays (start, stop)), st2).
Proof.
  intros Hnew Hfresh Hval Hcs Hmin Hmax Hall.
  destruct (appended_state validate key meta sh arrays st0)
    as (st1 & st2 & chunks & Hc & Hrun & Hinv & Hm); try assumption.
  exists st1, st2. split; [exact Hc|]. split; [exact Hrun|].
  apply (read_sample_range key st2 chunks arrays _ start stop Hinv Hm).
  eapply Forall_impl; [exact Hall|]. cbn. tauto.
Qed.

Lemma read_appended_range_witness :
  let meta := {| tm_dtype := "uint8"; tm_length := 0;
                 tm_min_shape := [2]%nat; tm_max_shape := [2]%nat;
                 tm_chunk_size := 3 |} in
  let a i := {| dtype := "uint8"; shape := [2]%nat;
                data := [i; i]%byte |} in
  exists st1 st2,
    create_tensor (fun _ => Ok tt) "image" meta ∅ = (Ok tt, st1) /\
    for_each [a "001"; a "002"; a "003"]%byte
      (fun a => add_samples_to_tensor a "image" false) st1 = (Ok tt, st2) /\
    read_samples_from_tensor "image"
      {| item := ItemSlice (Some 1%nat) (Some 9%nat) |} st2
      = (Ok {| dtype := "uint8"; shape := [2; 2]%nat;
               data := ["002"; "002"; "003"; "003"]%byte |}, st2).
Proof.
  intros meta a.
  apply (read_appended_range (fun _ => Ok tt) "image" meta [2]%nat
           [a "001"; a "002"; a "003"]%byte ∅ (Some 1%nat) (Some 9%nat)).
  - reflexivity.
  - reflexivity.
  - reflexivity.
  - simpl. lia.
  - reflexivity.
  - reflexivity.
  - repeat constructor; exists 1%nat; split; reflexivity.
Defined.

(** **** Extending with a batch *)

Lemma concat_rows (r : nat) (d : list byte) (n : nat) : forall k,
  concat (map (fun i => take r (drop (i * r) d)) (seq k n))
    = take (n * r) (drop (k * r) d).
Proof.
  induction n as [|n IH]; intros k; [reflexivity|].
  cbn [seq map concat]. rewrite IH.
  replace (S k * r)%nat with (k * r + r)%nat by lia.
  rewrite <- drop_drop, take_take_drop. reflexivity.
Qed.

(** The rows of a batch: [array[i]] for [i] in [range(array.shape[0])]. *)
Lemma batch_rows (batch : ndarray) (n : nat) (sh : list nat) (sz : nat) :
  shape batch = n :: sh -> (0 < n)%nat ->
  itemsize (dtype batch) = Some sz ->
  length (data batch) = (sz * prod (n :: sh))%nat ->
  let rows := map (array_at batch) (seq 0 n) in
  length rows = n /\
  Forall (fun a => wf_array a /\ dtype a = dtype batch /\ shape a = sh) rows /\
  concat (map data rows) = data batch.
Proof.
  intros Hsh Hn Hsz Hlen rows.
  set (r := (sz * prod sh)%nat).
  assert (Hlen' : length (data batch) = (r * n)%nat).
  { rewrite Hlen. cbn [prod foldr]. fold (prod sh). subst r. lia. }
  assert (Hat : forall i, array_at batch i =
            {| dtype := dtype batch; shape := sh;
               data := take r (drop (i * r) (data batch)) |}).
  { intros i. unfold array_at. rewrite Hsh. cbn [tail].
    rewrite Hlen', Nat.div_mul by lia. reflexivity. }
  split; [subst rows; rewrite length_map, length_seq; reflexivity|]. split.
  - subst rows. apply Forall_forall. intros a Ha.
    apply list_elem_of_fmap in Ha as (i & -> & Hi).
    apply elem_of_seq in Hi. rewrite Hat. cbn [dtype shape data].
    split; [|split; reflexivity].
    exists sz. cbn [dtype shape data]. split; [exact Hsz|].
    rewrite length_take, length_drop, Hlen'. fold r. nia.
  - subst rows. rewrite map_map.
    rewrite (map_ext _ (fun i => take r (drop (i * r) (data batch))))
      by (intros i; rewrite Hat; reflexivity).
    rewrite concat_rows. rewrite Nat.mul_0_l, drop_0.
    apply take_ge. lia.
Qed.

Lemma write_rows_steps (array : ndarray) key cs (Hcs : (0 < cs)%nat) ixs :
  forall st chunks samples,
  tensor_inv key st chunks samples ->
  exists st' chunks',
    for_each ixs (fun i =>
      write_bytes (row_wise_to_bytes (array_at array i)) key cs
        (shape (array_at array i))) st = (Ok tt, st') /\
    tensor_inv key st' chunks' (samples ++ map (array_at array) ixs) /\
    st' !! get_tensor_meta_key key = st !! get_tensor_meta_key key.
Proof.
  induction ixs as [|i ixs IH]; intros st chunks samples Hinv.
  - exists st, chunks. rewrite app_nil_r. auto.
  - destruct (tensor_inv_write_bytes key st chunks samples (array_at array i)
                cs Hcs Hinv) as (st1 & chunks1 & Hrun & Hinv1 & Hm1).
    destruct (IH st1 chunks1 _ Hinv1) as (st2 & chunks2 & Hrun2 & Hinv2 & Hm2).
    exists st2, chunks2. cbn [for_each]. unfold bindM at 1.
    unfold row_wise_to_bytes at 1. rewrite Hrun.
    split; [exact Hrun2|]. split; [|congruence].
    cbn [map]. rewrite <- app_assoc in Hinv2. exact Hinv2.
Qed.

(** One [extend] with a batch of the dtype and of the shape of the tensor. *)
Lemma extend_step key st chunks samples batch n m :
  tensor_inv key st chunks samples ->
  st !! get_tensor_meta_key key = Some (OTensorMeta m) ->
  tm_dtype m = dtype batch ->
  shape batch = n :: tm_min_shape m -> tm_max_shape m = tm_min_shape m ->
  (0 < tm_chunk_size m)%nat ->
  exists st' chunks',
    add_samples_to_tensor batch key true st = (Ok tt, st') /\
    tensor_inv key st' chunks'
      (samples ++ map (array_at batch) (seq 0 n)) /\
    st' !! get_tensor_meta_key key =
      Some (OTensorMeta (set_length m (tm_length m + Z.of_nat n))).
Proof.
  intros Hinv Hm Hdt Hsh Hmax Hcs.
  pose proof Hm as Hm'. apply read_tensor_meta_lookup in Hm' as [Hread Hex].
  assert (Hc : _check_array_and_tensor_are_compatible m batch = Ok tt).
  { rewrite check_cases; rewrite ?Hsh; cbn [tail]; [|congruence..].
    case_decide as Hd; [reflexivity|]. destruct Hd. split; congruence. }
  destruct (write_rows_steps batch key _ Hcs (seq 0 n) st chunks samples Hinv)
    as (st1 & chunks' & Hrun & Hinv' & Hmeta).
  unfold add_samples_to_tensor, bindM, reads, lift, normalize_and_batchify_shape.
  rewrite Hex. cbn [negb]. rewrite Hread, Hc, Hsh. rewrite Hrun.
  cbn [write_tensor_meta writes].
  eexists _, chunks'. split; [reflexivity|].
  split; [apply tensor_inv_write_meta, Hinv' | apply lookup_insert_eq].
Qed.

(** X16. On a tensor created with the fixed sample shape [sh],
    [add_samples_to_tensor(batch, batched=True)] with one batch of [n >= 1]
    samples of that shape and of the declared dtype succeeds, the read of
    all samples with [read_samples_from_tensor] that follows returns the
    batch itself, and the length in the tensor meta is [n]. *)
Theorem extend_numpy_round_trip (validate : tensor_meta -> result unit)
    (key : string) (meta : tensor_meta) (sh : list nat) (n : nat)
    (batch : ndarray) (st0 : storage) :
  st0 !! get_tensor_meta_key key = None ->
  st0 !! get_index_map_key key = None ->
  validate (set_length meta 0) = Ok tt ->
  (0 < tm_chunk_size meta)%nat ->
  tm_min_shape meta = sh -> tm_max_shape meta = sh ->
  wf_array batch -> dtype batch = tm_dtype meta ->
  shape batch = n :: sh -> (0 < n)%nat ->
  exists st1 st2 m,
    create_tensor validate key meta st0 = (Ok tt, st1) /\
    add_samples_to_tensor batch key true st1 = (Ok tt, st2) /\
    read_samples_from_tensor key Index_all st2 = (Ok batch, st2) /\
    read_tensor_meta key st2 = (Ok m, st2) /\ tm_length m = Z.of_nat n.
Proof.
  intros Hnew Hfresh Hval Hcs Hmin Hmax (sz & Hsz & Hlen) Hdt Hsh Hn.
  set (m0 := set_length meta 0).
  set (st1 := <[get_tensor_meta_key key := OTensorMeta m0]> st0).
  assert (Hm1 : st1 !! get_tensor_meta_key key = Some (OTensorMeta m0))
    by apply lookup_insert_eq.
  destruct (extend_step key st1 [] [] batch n m0
              (tensor_inv_created key m0 st0 Hfresh) Hm1)
    as (st2 & chunks & Hrun & Hinv & Hm2);
    [cbn; congruence | cbn; congruence | cbn; congruence | exact Hcs|].
  rewrite Hsh in Hlen.
  destruct (batch_rows batch n sh sz Hsh Hn Hsz Hlen) as (Hrows & Hall & Hcat).
  cbn [app] in Hinv.
  exists st1, st2, (set_length m0 (tm_length m0 + Z.of_nat n)).
  split; [|split; [exact Hrun|split; [|split]]].
  - unfold create_tensor, bindM, reads, lift, tensor_exists.
    rewrite Hnew, bool_decide_eq_false_2 by (intros [x Hx]; discriminate).
    rewrite Hval. reflexivity.
  - rewrite (read_all_samples key st2 chunks _ _ Hinv Hm2).
    2:{ eapply Forall_impl; [exact Hall|]. cbn. intros a (? & ? & ?).
        split; [assumption | congruence]. }
    assert (Hstack : stack (map (array_at batch) (seq 0 n)) =
              Ok {| dtype := dtype batch;
                    shape := length (map (array_at batch) (seq 0 n)) :: sh;
                    data := concat (map data
                              (map (array_at batch) (seq 0 n))) |}).
    { apply stack_same.
      - intros Hnil. rewrite Hnil in Hrows. cbn in Hrows. lia.
      - eapply Forall_impl; [exact Hall|]. cbn. tauto. }
    unfold array_of_list.
    destruct (map (array_at batch) (seq 0 n)) eqn:Erows;
      [cbn in Hrows; lia|].
    rewrite Hstack, Hrows, Hcat, <- Hsh. destruct batch. reflexivity.
  - apply read_tensor_meta_lookup in Hm2 as [-> _]. reflexivity.
  - cbn. lia.
Qed.

Lemma extend_numpy_round_trip_witness :
  let meta := {| tm_dtype := "uint8"; tm_length := 0;
                 tm_min_shape := [2]%nat; tm_max_shape := [2]%nat;
                 tm_chunk_size := 3 |} in
  let batch := {| dtype := "uint8"; shape := [3; 2]%nat;
                  data := ["001"; "002"; "003"; "004"; "005"; "006"]%byte |} in
  exists st1 st2 m,
    create_tensor (fun _ => Ok tt) "image" meta ∅ = (Ok tt, st1) /\
    add_samples_to_tensor batch "image" true st1 = (Ok tt, st2) /\
    read_samples_from_tensor "image" Index_all st2 = (Ok batch, st2) /\
    read_tensor_meta "image" st2 = (Ok m, st2) /\ tm_length m = Z.of_nat 3.
Proof.
  intros meta batch.
  apply (extend_numpy_round_trip (fun _ => Ok tt) "image" meta [2]%nat 3
           batch ∅).
  - reflexivity.
  - reflexivity.
  - reflexivity.
  - simpl. lia.
  - reflexivity.
  - reflexivity.
  - exists 1%nat. split; reflexivity.
  - reflexivity.
  - reflexivity.
  - lia.
Defined.

(** X17. The length of a tensor counts the samples added. An
    [add_samples_to_tensor] call that the compatibility check accepts
    returns normally and adds [array.shape[0]] to the length that the tensor
    meta records (one for an array without batch axis); a call that the
    check refuses raises the exception of the check and leaves the storage,
    and with it the length, as it was. *)
Theorem len_counts_added_samples (array : ndarray) (key : string)
    (batched : bool) (st : storage) (m : tensor_meta) (n : nat)
    (sample_shape : list nat) :
  st !! get_tensor_meta_key key = Some (OTensorMeta m) ->
  shape (normalize_and_batchify_shape array batched) = n :: sample_shape ->
  match _check_array_and_tensor_are_compatible m
          (normalize_and_batchify_shape array batched) with
  | Ok _ =>
      exists st' m',
        add_samples_to_tensor array key batched st = (Ok tt, st') /\
        read_tensor_meta key st' = (Ok m', st') /\
        tm_length m' = tm_length m + Z.of_nat n
  | Raise e =>
      add_samples_to_tensor array key batched st = (Raise e, st) /\
      read_tensor_meta key st = (Ok m, st)
  end.
Proof.
  intros Hm Hsh.
  destruct (_check_array_and_tensor_are_compatible m
              (normalize_and_batchify_shape array batched)) as [[]|e] eqn:Hc.
  - destruct (add_samples_accepted array key batched st m n sample_shape
                Hm Hc Hsh) as (st' & Hrun & Hm').
    exists st', (set_length m (tm_length m + Z.of_nat n)).
    split; [exact Hrun|].
    apply read_tensor_meta_lookup in Hm' as [-> _]. split; reflexivity.
  - split; [apply (add_samples_rejected _ _ _ _ m); assumption|].
    apply read_tensor_meta_lookup in Hm as [-> _]. reflexivity.
Qed.

Lemma len_counts_added_samples_witness :
  let m := {| tm_dtype := "uint8"; tm_length := 4;
              tm_min_shape := [2]%nat; tm_max_shape := [2]%nat;
              tm_chunk_size := 3 |} in
  let st := <[get_tensor_meta_key "image" := OTensorMeta m]> (∅ : storage) in
  let batch := {| dtype := "uint8"; shape := [3; 2]%nat;
                  data := ["001"; "002"; "003"; "004"; "005"; "006"]%byte |} in
  let other := {| dtype := "int8"; shape := [3; 2]%nat;
                  data := ["001"; "002"; "003"; "004"; "005"; "006"]%byte |} in
  (exists st' m',
     add_samples_to_tensor batch "image" true st = (Ok tt, st') /\
     read_tensor_meta "image" st' = (Ok m', st') /\ tm_length m' = 4 + 3) /\
  add_samples_to_tensor other "image" true st =
    (Raise (TensorMetaMismatchError "dtype" (PStr "uint8") (PStr "int8")), st).
Proof.
  intros m st batch other.
  assert (Hm : st !! get_tensor_meta_key "image" = Some (OTensorMeta m))
    by reflexivity.
  split.
  - exact (len_counts_added_samples batch "image" true st m 3 [2]%nat Hm
             eq_refl).
  - exact (proj1 (len_counts_added_samples other "image" true st m 3 [2]%nat
                    Hm eq_refl)).
Defined.

(** **** Opening a dataset *)

Lemma load_tensors_spec (names : list string) (st : storage) :
  Dataset.load_tensors names st =
    match List.find (fun n => negb (tensor_exists n st)) names with
    | Some n => (Raise (TensorDoesNotExistError n), st)
    | None =>
        (Ok (map (fun n => (n, {| Tensor.key := n;
                                  Tensor.index := Index_all |})) names), st)
    end.
Proof.
  induction names as [|n names IH]; [reflexivity|].
  cbn [Dataset.load_tensors List.find map].
  unfold bindM at 1. unfold Tensor.__init__, bindM, reads, raise, ret.
  destruct (tensor_exists n st); cbn [negb]; [|reflexivity].
  fold (@bindM (list (string * Tensor.Tensor))). unfold bindM.
  rewrite IH.
  destruct (List.find (fun n0 => negb (tensor_exists n0 st)) names);
    reflexivity.
Qed.

(** X19. Opening a dataset on a storage that holds a dataset meta reads,
    and writes nothing: the dataset gets one tensor per name of the meta,
    in the order of the meta, so [keys()] is that list; when a listed
    tensor has no tensor meta in the storage, the constructor raises
    [TensorDoesNotExistError] for the first such name. *)
Theorem dataset_open (path mode : string) (index : Index) (st : storage)
    (names : list string) :
  st !! Dataset.get_dataset_meta_key = Some (ODatasetMeta names) ->
  NoDup names ->
  match List.find (fun n => negb (tensor_exists n st)) names with
  | Some n =>
      Dataset.__init__ path mode index st
        = (Raise (TensorDoesNotExistError n), st)
  | None =>
      exists ds,
        Dataset.__init__ path mode index st = (Ok ds, st) /\
        Dataset.keys ds = names /\
        Dataset.meta_tensors ds = names /\
        Forall (fun nt => Tensor.key (snd nt) = fst nt /\
                          Tensor.index (snd nt) = Index_all)
          (Dataset.tensors ds)
  end.
Proof.
  intros Hmeta _.
  assert (Hinit : Dataset.__init__ path mode index st =
            match Dataset.load_tensors names st with
            | (Ok tensors, st') =>
                (Ok {| Dataset.mode := mode; Dataset.index := index;
                       Dataset.path := path; Dataset.tensors := tensors;
                       Dataset.meta_tensors := names |}, st')
            | (Raise e, st') => (Raise e, st')
            end).
  { unfold Dataset.__init__, bindM, reads, Dataset.dataset_exists,
      Dataset.read_dataset_meta.
    rewrite Hmeta, bool_decide_eq_true_2 by eauto. rewrite Hmeta.
    destruct (Dataset.load_tensors names st) as [[]]; reflexivity. }
  rewrite Hinit, load_tensors_spec.
  destruct (List.find (fun n => negb (tensor_exists n st)) names);
    [reflexivity|].
  eexists. split; [reflexivity|]. unfold Dataset.keys. cbn.
  split; [|split; [reflexivity|]].
  - rewrite map_map. cbn. apply map_id.
  - apply Forall_forall. intros nt Hnt.
    apply list_elem_of_fmap in Hnt as (n & -> & _). split; reflexivity.
Qed.

Lemma dataset_open_witness :
  let m := {| tm_dtype := "uint8"; tm_length := 7; tm_min_shape := [];
              tm_max_shape := []; tm_chunk_size := 16 |} in
  let st : storage :=
    <[Dataset.get_dataset_meta_key := ODatasetMeta ["image"; "label"]%string]>
      (<[get_tensor_meta_key "image" := OTensorMeta m]> ∅) in
  Dataset.__init__ "" "a" Index_all st
    = (Raise (TensorDoesNotExistError "label"), st).
Proof.
  intros m st.
  assert (Hmeta : st !! Dataset.get_dataset_meta_key
                  = Some (ODatasetMeta ["image"; "label"]%string))
    by reflexivity.
  assert (Hnd : NoDup ["image"; "label"]%string).
  { repeat constructor; set_solver. }
  exact (dataset_open "" "a" Index_all st _ Hmeta Hnd).
Defined.

End TensorFacts.

Module CacheFacts.
Import Cache.

(** **** A cache layer behaves as a dict *)

#[global] Instance MemoryProvider_lawful {V} : Lawful V (gmap string V).
Proof.
  refine {| ok := fun _ => True |}.
  - intros key s _. repeat split.
  - intros key v s _. repeat split.
  - intros s _. repeat split.
Defined.

Lemma lru_remove_keys key (lru : list (string * Z)) :
  map fst (lru_remove key lru) = filter (fun k => k <> key) (map fst lru).
Proof.
  unfold lru_remove. induction lru as [|[k z] lru IH]; [reflexivity|].
  simpl. rewrite !filter_cons. simpl.
  destruct (decide (k <> key)); simpl; rewrite IH; reflexivity.
Qed.

Lemma move_to_end_keys key (lru : list (string * Z)) :
  map fst (move_to_end key lru) =
  filter (fun k => k <> key) (map fst lru) ++
  filter (fun k => k = key) (map fst lru).
Proof.
  unfold move_to_end. rewrite map_app, lru_remove_keys. f_equal.
  induction lru as [|[k z] lru IH]; [reflexivity|].
  simpl. rewrite !filter_cons. simpl.
  destruct (decide (k = key)); simpl; rewrite IH; reflexivity.
Qed.

Lemma move_to_end_elem key lru k :
  k ∈ map fst (move_to_end key lru) <-> k ∈ map fst lru.
Proof.
  rewrite move_to_end_keys, elem_of_app, !list_elem_of_filter.
  destruct (decide (k = key)); tauto.
Qed.

Lemma move_to_end_NoDup key lru :
  NoDup (map fst lru) -> NoDup (map fst (move_to_end key lru)).
Proof.
  intros Hnd. rewrite move_to_end_keys. apply NoDup_app. repeat split.
  - apply NoDup_filter. exact Hnd.
  - intros x Hx1 Hx2. apply list_elem_of_filter in Hx1 as [Hne _].
    apply list_elem_of_filter in Hx2 as [Heq _]. tauto.
  - apply NoDup_filter. exact Hnd.
Qed.

Section layer_view.
Context {V N : Type} `{!Sized V} `{!StorageProvider V N}.

Lemma view_layer_lookup (c : CacheLayer V N) (j : string) :
  (forall k, k ∈ lru_keys c -> is_Some (cache_storage c !! k)) ->
  view c !! j =
    if decide (j ∈ lru_keys c) then cache_storage c !! j
    else view (next_storage c) !! j.
Proof.
  intros Hin. cbn [view CacheProvider]. unfold cached_part.
  fold (lru_keys c). case_decide as Hj.
  - destruct (Hin j Hj) as [v Hv]. rewrite Hv.
    apply lookup_union_Some_l. apply map_lookup_filter_Some. split; assumption.
  - apply lookup_union_r. apply map_lookup_filter_None. right.
    intros x _. exact Hj.
Qed.

Lemma layer_ok_weaken (ok_next : N -> Prop) stale (c : CacheLayer V N) :
  layer_ok ok_next c -> layer_okw ok_next stale c.
Proof.
  intros (H1 & H2 & H3 & H4 & H5). repeat split; auto.
Qed.

End layer_view.

Section layer_lawful.
Context {V N : Type} `{!Sized V} `{!StorageProvider V N} `{!Lawful V N}.

Local Abbreviation okw := (layer_okw (ok (S := N))).

Lemma keeps_refl stale c : okw stale c -> keeps stale c c.
Proof. intros Hc. split; [exact Hc|]. repeat split; auto. Qed.

Lemma keeps_trans stale c1 c2 c3 :
  keeps stale c1 c2 -> keeps stale c2 c3 -> keeps stale c1 c3.
Proof.
  intros (_ & Hv1 & Hk1 & Hn1 & Hm1) (Hok & Hv2 & Hk2 & Hn2 & Hm2).
  split; [exact Hok|]. repeat split.
  - congruence.
  - auto.
  - intros k Hk. rewrite Hn2; [apply Hn1; exact Hk|]. intros Hin. apply Hk, Hk1, Hin.
  - congruence.
Qed.

Lemma evict_oldest_keeps stale (c : CacheLayer V N) :
  okw stale c -> keeps stale c (evict_oldest c).
Proof.
  intros Hc. pose proof Hc as (Hnext & Hnd & Hin & Hdirty & Hclean).
  unfold evict_oldest. destruct (lru_sizes c) as [|[k z] lru] eqn:Hlru.
  { apply keeps_refl. exact Hc. }
  assert (Hkeys : lru_keys c = k :: map fst lru)
    by (unfold lru_keys; rewrite Hlru; reflexivity).
  rewrite Hkeys in Hnd. apply NoDup_cons in Hnd as [Hk Hnd].
  destruct (Hin k) as [v Hv]; [rewrite Hkeys; constructor|].
  rewrite Hv.
  set (next' := if decide (k ∈ dirty_keys c)
                then sp_set k v (next_storage c) else next_storage c).
  assert (Hnext' : ok next' /\
            forall j, view next' !! j =
                      if decide (j = k) then Some v
                      else view (next_storage c) !! j).
  { subst next'. destruct (decide (k ∈ dirty_keys c)) as [Hd|Hd].
    - destruct (set_law k v (next_storage c) Hnext) as [Hok Hview].
      split; [exact Hok|]. intros j. rewrite Hview.
      destruct (decide (j = k)) as [->|Hne];
        [apply lookup_insert_eq | apply lookup_insert_ne; congruence].
    - split; [exact Hnext|]. intros j.
      destruct (decide (j = k)) as [->|Hne]; [|reflexivity].
      rewrite Hclean, Hv; [reflexivity | rewrite Hkeys; constructor | exact Hd]. }
  destruct Hnext' as [Hok' Hview'].
  match goal with
  | |- keeps _ _ ?c' => set (c1 := c');
      assert (Hin1 : forall j, j ∈ lru_keys c1 ->
                               is_Some (cache_storage c1 !! j))
  end.
  { intros j Hj. cbn in Hj. cbn [cache_storage c1].
    rewrite lookup_delete_ne by (intros ->; exact (Hk Hj)).
    apply Hin. rewrite Hkeys. constructor. exact Hj. }
  assert (Hokw1 : okw stale c1).
  { split; [exact Hok'|]. split; [exact Hnd|]. split; [exact Hin1|]. split.
    - intros d Hd. cbn in Hd. apply elem_of_difference in Hd as [Hd Hne].
      destruct (Hdirty d Hd) as [Hd'|Hd']; [|right; exact Hd'].
      left. rewrite Hkeys in Hd'. apply elem_of_cons in Hd' as [->|Hd'];
        [exfalso; apply Hne, elem_of_singleton; reflexivity | exact Hd'].
    - intros j Hj Hjd. cbn in Hj, Hjd. cbn [next_storage cache_storage c1].
      assert (j <> k) by (intros ->; exact (Hk Hj)).
      rewrite Hview'. destruct (decide (j = k)); [tauto|].
      rewrite lookup_delete_ne by congruence.
      apply Hclean; [rewrite Hkeys; constructor; exact Hj|].
      intros Hd. apply Hjd. apply elem_of_difference. split; [exact Hd|].
      intros Hs. apply elem_of_singleton in Hs. tauto. }
  split; [exact Hokw1|]. split; [|split; [|split]].
  - apply map_eq. intros j.
    rewrite (view_layer_lookup c1 j Hin1), (view_layer_lookup c j Hin).
    rewrite Hkeys. change (lru_keys c1) with (map fst lru).
    cbn [cache_storage next_storage c1]. rewrite Hview'.
    destruct (decide (j ∈ map fst lru)) as [Hj|Hj],
             (decide (j ∈ k :: map fst lru)) as [Hj'|Hj'],
             (decide (j = k)) as [->|Hne];
      solve
        [ exfalso; exact (Hk Hj)
        | apply lookup_delete_ne; congruence
        | exfalso; apply Hj'; constructor; exact Hj
        | symmetry; exact Hv
        | exfalso; apply elem_of_cons in Hj' as [?|?]; tauto
        | exfalso; apply Hj'; constructor
        | reflexivity ].
  - intros j Hj. cbn in Hj. rewrite Hkeys. constructor. exact Hj.
  - intros j Hj. cbn [next_storage c1]. rewrite Hview'.
    rewrite decide_False; [reflexivity|]. intros ->. apply Hj.
    rewrite Hkeys. constructor.
  - reflexivity.
Qed.

Lemma ensure_capacity_loop_keeps stale need fuel : forall c : CacheLayer V N,
  okw stale c -> keeps stale c (ensure_capacity_loop fuel need c).
Proof.
  induction fuel as [|fuel IH]; intros c Hc; simpl; [apply keeps_refl; exact Hc|].
  destruct (_ && _); [|apply keeps_refl; exact Hc].
  pose proof (evict_oldest_keeps stale c Hc) as Hk.
  eapply keeps_trans; [exact Hk|]. apply IH. apply Hk.
Qed.

Lemma ensure_capacity_keeps stale need (c : CacheLayer V N) :
  okw stale c -> keeps stale c (_ensure_capacity need c).
Proof. apply ensure_capacity_loop_keeps. Qed.

Lemma insert_mru_ok key value (dirty : bool) (c : CacheLayer V N) :
  okw key c -> key ∉ lru_keys c ->
  (dirty = false -> view (next_storage c) !! key = Some value) ->
  layer_ok ok (insert_mru key value dirty c) /\
  forall j, view (insert_mru key value dirty c) !! j =
            if decide (j = key) then Some value else view c !! j.
Proof.
  intros (Hnext & Hnd & Hin & Hdirty & Hclean) Hkey Hval.
  set (c' := insert_mru key value dirty c).
  assert (Hkeys : lru_keys c' = lru_keys c ++ [key]).
  { unfold lru_keys, c', insert_mru. cbn [lru_sizes].
    rewrite map_app. reflexivity. }
  assert (Hin' : forall j, j ∈ lru_keys c' -> is_Some (cache_storage c' !! j)).
  { intros j Hj. rewrite Hkeys in Hj. cbn [cache_storage c' insert_mru].
    destruct (decide (j = key)) as [->|Hne];
      [rewrite lookup_insert_eq; eauto|].
    rewrite lookup_insert_ne by congruence. apply Hin.
    apply elem_of_app in Hj as [Hj|Hj]; [exact Hj|].
    apply list_elem_of_singleton in Hj. tauto. }
  split.
  - split; [exact Hnext|]. split; [|split; [exact Hin'|split]].
    + rewrite Hkeys. apply NoDup_app. repeat split; [exact Hnd| |apply NoDup_singleton].
      intros x Hx Hx'. apply list_elem_of_singleton in Hx' as ->. tauto.
    + intros d Hd. rewrite Hkeys. apply elem_of_app.
      assert (Hd' : d ∈ dirty_keys c \/ d = key).
      { cbn [dirty_keys c' insert_mru] in Hd. destruct dirty; [|left; exact Hd].
        apply elem_of_union in Hd as [Hd|Hd]; [left; exact Hd|].
        apply elem_of_singleton in Hd. right; exact Hd. }
      destruct Hd' as [Hd'| ->]; [|right; constructor].
      destruct (Hdirty d Hd') as [?| ->]; [left; assumption | right; constructor].
    + intros j Hj Hjd. rewrite Hkeys in Hj.
      cbn [next_storage cache_storage c' insert_mru].
      destruct (decide (j = key)) as [->|Hne].
      * rewrite lookup_insert_eq. destruct dirty; [|apply Hval; reflexivity].
        exfalso. apply Hjd. cbn [dirty_keys c' insert_mru].
        apply elem_of_union. right. apply elem_of_singleton. reflexivity.
      * rewrite lookup_insert_ne by congruence.
        apply Hclean.
        -- apply elem_of_app in Hj as [Hj|Hj]; [exact Hj|].
           apply list_elem_of_singleton in Hj. tauto.
        -- intros Hd. apply Hjd. cbn [dirty_keys c' insert_mru].
           destruct dirty; [|exact Hd]. apply elem_of_union. left; exact Hd.
  - intros j. rewrite (view_layer_lookup c' j Hin'), (view_layer_lookup c j Hin).
    rewrite Hkeys. cbn [next_storage cache_storage c' insert_mru].
    destruct (decide (j = key)) as [->|Hne].
    + rewrite decide_True by (apply elem_of_app; right; constructor).
      apply lookup_insert_eq.
    + destruct (decide (j ∈ lru_keys c)) as [Hj|Hj].
      * rewrite decide_True by (apply elem_of_app; left; exact Hj).
        apply lookup_insert_ne. congruence.
      * rewrite decide_False; [reflexivity|].
        intros H'. apply elem_of_app in H' as [?|H']; [tauto|].
        apply list_elem_of_singleton in H'. tauto.
Qed.

Lemma uncache_okw key (c : CacheLayer V N) :
  layer_ok ok c ->
  let c1 := if cached c key
            then with_lru (lru_remove key (lru_sizes c)) c else c in
  okw key c1 /\ (key ∉ lru_keys c1) /\
  max_cache_size c1 = max_cache_size c /\
  forall j, j <> key -> view c1 !! j = view c !! j.
Proof.
  intros Hc c1. pose proof Hc as (Hnext & Hnd & Hin & Hdirty & Hclean).
  unfold cached in c1. subst c1. case_bool_decide as Hk.
  - set (c1 := with_lru _ c).
    assert (Hkeys : forall j, j ∈ lru_keys c1 <-> j <> key /\ j ∈ lru_keys c).
    { intros j. unfold lru_keys, c1, with_lru. cbn [lru_sizes].
      rewrite lru_remove_keys, list_elem_of_filter. reflexivity. }
    assert (Hin1 : forall j, j ∈ lru_keys c1 -> is_Some (cache_storage c1 !! j)).
    { intros j Hj. apply Hin, Hkeys, Hj. }
    split; [|split; [|split]].
    + split; [exact Hnext|]. split; [|split; [exact Hin1|split]].
      * unfold lru_keys, c1, with_lru. cbn [lru_sizes].
        rewrite lru_remove_keys. apply NoDup_filter. exact Hnd.
      * intros d Hd. destruct (decide (d = key)) as [->|Hne]; [right; reflexivity|].
        left. apply Hkeys. split; [exact Hne|]. apply Hdirty. exact Hd.
      * intros j Hj Hjd. apply Hkeys in Hj as [_ Hj]. apply Hclean; assumption.
    + intros Hj. apply Hkeys in Hj. tauto.
    + reflexivity.
    + intros j Hne.
      rewrite (view_layer_lookup c1 j Hin1), (view_layer_lookup c j Hin).
      destruct (decide (j ∈ lru_keys c1)) as [Hj|Hj],
               (decide (j ∈ lru_keys c)) as [Hj'|Hj']; try reflexivity.
      * apply Hkeys in Hj. tauto.
      * exfalso. apply Hj, Hkeys. tauto.
  - split; [apply layer_ok_weaken; exact Hc|]. split; [exact Hk|].
    split; reflexivity.
Qed.

Lemma cache_set_law key value (c : CacheLayer V N) :
  layer_ok ok c ->
  layer_ok ok (cache_set key value c) /\
  view (cache_set key value c) = <[key := value]> (view c).
Proof.
  intros Hc. unfold cache_set.
  destruct (uncache_okw key c Hc) as (H1 & Hk1 & _ & Hv1).
  set (c1 := if cached c key then _ else c) in *.
  destruct (ensure_capacity_keeps key (size value) c1 H1)
    as (H2 & Hv2 & Hk2 & _ & _).
  set (c2 := _ensure_capacity (size value) c1) in *.
  destruct (insert_mru_ok key value true c2 H2) as [Hok Hview].
  { intros Hin. apply Hk1, Hk2, Hin. }
  { discriminate. }
  split; [exact Hok|]. apply map_eq. intros j. rewrite Hview.
  destruct (decide (j = key)) as [->|Hne].
  - symmetry. apply lookup_insert_eq.
  - rewrite lookup_insert_ne by congruence. rewrite Hv2. apply Hv1. exact Hne.
Qed.

Lemma with_next_ok (c : CacheLayer V N) (next' : N) :
  layer_ok ok c -> ok next' -> view next' = view (next_storage c) ->
  layer_ok ok (with_next next' c) /\ view (with_next next' c) = view c.
Proof.
  intros (Hnext & Hnd & Hin & Hdirty & Hclean) Hok Hview.
  split.
  - repeat split; try assumption. intros k Hk Hkd.
    cbn [next_storage with_next]. rewrite Hview. apply Hclean; assumption.
  - cbn [view CacheProvider]. cbn [next_storage with_next]. rewrite Hview.
    reflexivity.
Qed.

Lemma cache_get_law key (c : CacheLayer V N) :
  layer_ok ok c ->
  layer_ok ok (snd (cache_get key c)) /\
  view (snd (cache_get key c)) = view c /\
  fst (cache_get key c) = lookup_result (view c) key.
Proof.
  intros Hc. pose proof Hc as (Hnext & Hnd & Hin & Hdirty & Hclean).
  unfold cache_get, cached. fold (lru_keys c). case_bool_decide as Hk.
  - (* hit *)
    destruct (Hin key Hk) as [v Hv].
    cbn [cache_storage with_lru]. rewrite Hv. cbn [fst snd].
    set (c' := with_lru _ c).
    assert (Hkeys : forall j, j ∈ lru_keys c' <-> j ∈ lru_keys c).
    { intros j. apply move_to_end_elem. }
    assert (Hin' : forall j, j ∈ lru_keys c' -> is_Some (cache_storage c' !! j)).
    { intros j Hj. apply Hin, Hkeys, Hj. }
    split; [|split].
    + split; [exact Hnext|]. split; [|split; [exact Hin'|split]].
      * apply move_to_end_NoDup. exact Hnd.
      * intros d Hd. apply Hkeys, Hdirty, Hd.
      * intros j Hj Hjd. apply Hkeys in Hj. apply Hclean; assumption.
    + apply map_eq. intros j.
      rewrite (view_layer_lookup c' j Hin'), (view_layer_lookup c j Hin).
      destruct (decide (j ∈ lru_keys c')) as [Hj|Hj],
               (decide (j ∈ lru_keys c)) as [Hj'|Hj']; try reflexivity.
      * apply Hkeys in Hj. tauto.
      * apply Hkeys in Hj'. tauto.
    + unfold lookup_result. rewrite (view_layer_lookup c key Hin).
      rewrite decide_True by exact Hk. rewrite Hv. reflexivity.
  - (* miss *)
    destruct (get_law key (next_storage c) Hnext) as (Hok' & Hview' & Hres).
    assert (Hlook : view c !! key = view (next_storage c) !! key).
    { rewrite (view_layer_lookup c key Hin). apply decide_False. exact Hk. }
    destruct (sp_get key (next_storage c)) as [[value|e] next'] eqn:Hget;
      cbn [fst snd] in *.
    + destruct (with_next_ok c next' Hc Hok' Hview') as [Hc1 Hv1].
      set (c1 := with_next next' c) in *.
      assert (Hval : view (next_storage c) !! key = Some value).
      { unfold lookup_result in Hres.
        destruct (view (next_storage c) !! key); congruence. }
      destruct (ensure_capacity_keeps key (size value) c1
                  (layer_ok_weaken ok key c1 Hc1))
        as (H2 & Hv2 & Hk2 & Hn2 & _).
      set (c2 := _ensure_capacity (size value) c1) in *.
      destruct (insert_mru_ok key value false c2 H2) as [Hok3 Hview3].
      { intros Hin2. apply Hk, (Hk2 key Hin2). }
      { intros _. rewrite Hn2 by exact Hk.
        cbn [next_storage c1 with_next]. rewrite Hview'. exact Hval. }
      split; [exact Hok3|]. split.
      * apply map_eq. intros j. rewrite Hview3, Hv2, Hv1.
        destruct (decide (j = key)) as [->|]; [|reflexivity].
        rewrite Hlook. symmetry. exact Hval.
      * unfold lookup_result. rewrite Hlook. exact Hres.
    + destruct (with_next_ok c next' Hc Hok' Hview') as [Hc1 Hv1].
      split; [exact Hc1|]. split; [exact Hv1|].
      unfold lookup_result. rewrite Hlook. exact Hres.
Qed.

(** After the writes of a flush, the layer below holds the cached value of
    every key written and its old value for the others. *)
Lemma write_back_view (c : CacheLayer V N) (keys : list string) :
  ok (next_storage c) ->
  ok (write_back keys c) /\
  forall j, view (write_back keys c) !! j =
    match (if decide (j ∈ keys) then cache_storage c !! j else None) with
    | Some v => Some v
    | None => view (next_storage c) !! j
    end.
Proof.
  unfold write_back. generalize (next_storage c) as next.
  induction keys as [|k keys IH]; intros next Hnext; simpl.
  - split; [exact Hnext|]. intros j. reflexivity.
  - set (next1 := match cache_storage c !! k with
                  | Some v => sp_set k v next | None => next end).
    assert (H1 : ok next1 /\ forall j, view next1 !! j =
              match (if decide (j = k) then cache_storage c !! j else None) with
              | Some v => Some v
              | None => view next !! j
              end).
    { subst next1. destruct (cache_storage c !! k) as [v|] eqn:Hv.
      - destruct (set_law k v next Hnext) as [Hok Hview].
        split; [exact Hok|]. intros j. rewrite Hview.
        destruct (decide (j = k)) as [->|Hne].
        + rewrite Hv. apply lookup_insert_eq.
        + apply lookup_insert_ne. congruence.
      - split; [exact Hnext|]. intros j.
        destruct (decide (j = k)) as [->|]; [rewrite Hv|]; reflexivity. }
    destruct H1 as [Hok1 Hview1].
    destruct (IH next1 Hok1) as [Hok2 Hview2].
    split; [exact Hok2|]. intros j. rewrite Hview2, Hview1.
    destruct (decide (j ∈ keys)) as [Hj|Hj],
             (decide (j ∈ k :: keys)) as [Hj'|Hj'],
             (decide (j = k)) as [->|Hne];
      try reflexivity;
      try (exfalso; apply Hj'; first [constructor; assumption | constructor]).
    + destruct (cache_storage c !! k); reflexivity.
    + apply elem_of_cons in Hj' as [?|?]; tauto.
Qed.

Lemma cache_flush_law (c : CacheLayer V N) :
  layer_ok ok c ->
  layer_ok ok (cache_flush c) /\ view (cache_flush c) = view c /\
  backing (cache_flush c) = view c.
Proof.
  intros Hc. pose proof Hc as (Hnext & Hnd & Hin & Hdirty & Hclean).
  destruct (write_back_view c (elements (dirty_keys c)) Hnext) as [Hok1 Hview1].
  set (next1 := write_back (elements (dirty_keys c)) c) in *.
  destruct (flush_law next1 Hok1) as (Hok2 & Hview2 & Hback2).
  assert (Hnext1 : view next1 = view c).
  { apply map_eq. intros j. rewrite Hview1, (view_layer_lookup c j Hin).
    destruct (decide (j ∈ elements (dirty_keys c))) as [Hj|Hj].
    - apply elem_of_elements in Hj. pose proof (Hdirty j Hj) as Hjk.
      rewrite decide_True by exact Hjk.
      destruct (Hin j Hjk) as [v ->]. reflexivity.
    - destruct (decide (j ∈ lru_keys c)) as [Hjk|Hjk]; [|reflexivity].
      apply Hclean; [exact Hjk|]. intros Hd. apply Hj, elem_of_elements, Hd. }
  unfold cache_flush. fold next1.
  set (c' := {| cache_storage := cache_storage c |}).
  assert (Hin' : forall j, j ∈ lru_keys c' -> is_Some (cache_storage c' !! j))
    by exact Hin.
  split; [|split].
  - split; [exact Hok2|]. split; [exact Hnd|]. split; [exact Hin|]. split.
    + intros d Hd. cbn in Hd. apply elem_of_empty in Hd. tauto.
    + intros j Hj _. cbn [next_storage cache_storage c'].
      rewrite Hview2, Hnext1, (view_layer_lookup c j Hin).
      apply decide_True. exact Hj.
  - apply map_eq. intros j.
    rewrite (view_layer_lookup c' j Hin'), (view_layer_lookup c j Hin).
    change (lru_keys c') with (lru_keys c).
    destruct (decide (j ∈ lru_keys c)) as [Hj|Hj]; [reflexivity|].
    cbn [next_storage c']. rewrite Hview2, Hnext1.
    rewrite (view_layer_lookup c j Hin). apply decide_False. exact Hj.
  - cbn [backing CacheProvider next_storage c']. rewrite Hback2. exact Hnext1.
Qed.

#[global] Instance CacheLayer_lawful : Lawful V (CacheLayer V N).
Proof.
  refine {| ok := layer_ok (ok (S := N)) |}.
  - exact cache_get_law.
  - exact cache_set_law.
  - exact cache_flush_law.
Defined.

End layer_lawful.

(** **** Capacity *)

Section capacity.
Context {V N : Type} `{!Sized V} `{!StorageProvider V N}.

Lemma ensure_capacity_fits (need : Z) (self : CacheLayer V N) :
  cache_used self + need <= max_cache_size self ->
  _ensure_capacity need self = self.
Proof.
  intros Hfit. unfold _ensure_capacity.
  destruct (length (lru_sizes self)); simpl; [reflexivity|].
  replace (max_cache_size self <? cache_used self + need) with false
    by (symmetry; apply Z.ltb_ge; exact Hfit).
  reflexivity.
Qed.

Lemma ensure_capacity_evicts (need : Z) (self : CacheLayer V N) k z lru :
  lru_sizes self = (k, z) :: lru ->
  max_cache_size self < cache_used self + need ->
  _ensure_capacity need self = _ensure_capacity need (evict_oldest self).
Proof.
  intros Hlru Hover. unfold _ensure_capacity. rewrite Hlru.
  cbn [length ensure_capacity_loop].
  replace (max_cache_size self <? cache_used self + need) with true
    by (symmetry; apply Z.ltb_lt; exact Hover).
  rewrite Hlru. cbn [andb negb].
  rewrite bool_decide_eq_false_2 by discriminate. cbn [negb].
  unfold evict_oldest at 2. rewrite Hlru. reflexivity.
Qed.

Lemma evict_oldest_dirty (self : CacheLayer V N) k z lru v :
  lru_sizes self = (k, z) :: lru ->
  k ∈ dirty_keys self -> cache_storage self !! k = Some v ->
  evict_oldest self =
    {| cache_storage := delete k (cache_storage self);
       next_storage := sp_set k v (next_storage self);
       max_cache_size := max_cache_size self;
       lru_sizes := lru;
       dirty_keys := dirty_keys self ∖ {[k]} |}.
Proof.
  intros Hlru Hd Hv. unfold evict_oldest. rewrite Hlru, Hv.
  destruct (decide (k ∈ dirty_keys self)); [reflexivity | tauto].
Qed.

Lemma evict_oldest_clean (self : CacheLayer V N) k z lru :
  lru_sizes self = (k, z) :: lru -> k ∉ dirty_keys self ->
  evict_oldest self =
    {| cache_storage := delete k (cache_storage self);
       next_storage := next_storage self;
       max_cache_size := max_cache_size self;
       lru_sizes := lru;
       dirty_keys := dirty_keys self ∖ {[k]} |}.
Proof.
  intros Hlru Hd. unfold evict_oldest. rewrite Hlru.
  destruct (decide (k ∈ dirty_keys self)); [tauto | reflexivity].
Qed.

Lemma cache_set_uncached (key : string) (value : V) (self : CacheLayer V N) :
  key ∉ map fst (lru_sizes self) ->
  cache_set key value self =
    insert_mru key value true (_ensure_capacity (size value) self).
Proof.
  intros Hk. unfold cache_set, cached.
  rewrite bool_decide_eq_false_2 by exact Hk. reflexivity.
Qed.
End capacity.

(** **** Histories *)

#[global] Instance sum_lawful {V A B} `{!StorageProvider V A}
    `{!StorageProvider V B} `{!Lawful V A} `{!Lawful V B} : Lawful V (A + B).
Proof.
  refine {| ok := fun s => match s with inl a => ok a | inr b => ok b end |}.
  - intros key [a|b] Hs; cbn [sp_get sum_provider view backing].
    + destruct (get_law key a Hs) as (H1 & H2 & H3).
      destruct (sp_get key a) as [r a']. exact (conj H1 (conj H2 H3)).
    + destruct (get_law key b Hs) as (H1 & H2 & H3).
      destruct (sp_get key b) as [r b']. exact (conj H1 (conj H2 H3)).
  - intros key v [a|b] Hs; [apply (set_law key v a Hs) | apply (set_law key v b Hs)].
  - intros [a|b] Hs; [apply (flush_law a Hs) | apply (flush_law b Hs)].
Defined.

Section histories.
Context {V S : Type} `{!StorageProvider V S} `{!Lawful V S}.

Lemma run_call_law (s : S) (c : call V) :
  ok s -> ok (run_call s c) /\ view (run_call s c) = dict_call (view s) c.
Proof.
  intros Hs. destruct c as [key|key value|]; simpl.
  - destruct (get_law key s Hs) as (H1 & H2 & _). auto.
  - apply set_law. exact Hs.
  - destruct (flush_law s Hs) as (H1 & H2 & _). auto.
Qed.

Lemma run_calls_law (cs : list (call V)) : forall s : S,
  ok s ->
  ok (run_calls cs s) /\ view (run_calls cs s) = foldl dict_call (view s) cs.
Proof.
  unfold run_calls. induction cs as [|c cs IH]; intros s Hs; simpl; [auto|].
  destruct (run_call_law s c Hs) as [H1 H2].
  destruct (IH _ H1) as [H3 H4]. split; [exact H3|]. rewrite H4, H2. reflexivity.
Qed.

End histories.

Section fresh_layer.
Context {V N : Type} `{!Sized V} `{!StorageProvider V N} `{!Lawful V N}.

Lemma new_layer_ok (next : N) (max : Z) :
  ok next ->
  ok (new_layer next max) /\ view (new_layer next max) = view next /\
  backing (new_layer next max) = backing next.
Proof.
  intros Hn. split; [|split; [|reflexivity]].
  - split; [exact Hn|]. split; [constructor|].
    repeat split; intros k Hk; try (apply not_elem_of_nil in Hk; tauto).
    apply elem_of_empty in Hk. tauto.
  - cbn [view CacheProvider]. unfold cached_part, new_layer. cbn.
    rewrite map_filter_empty. apply (left_id_L ∅ (∪)).
Qed.

Lemma cache_used_remove key (lru : list (string * Z)) :
  Forall (fun kz => 0 <= snd kz) lru ->
  Forall (fun kz => 0 <= snd kz) (lru_remove key lru) /\
  foldr Z.add 0 (map snd (lru_remove key lru)) <= foldr Z.add 0 (map snd lru).
Proof.
  unfold lru_remove. induction 1 as [|[k z] lru Hz _ [IH1 IH2]]; simpl.
  - split; [constructor | lia].
  - rewrite filter_cons. simpl in *. destruct (decide (k <> key)); simpl.
    + split; [constructor; assumption | lia].
    + split; [assumption | lia].
Qed.

(** A write that fits in what is left of the budget reaches no layer below. *)
Lemma cache_set_fits key value (c : CacheLayer V N) :
  sizes_nonneg c -> 0 <= size value ->
  cache_used c + size value <= max_cache_size c ->
  next_storage (cache_set key value c) = next_storage c /\
  sizes_nonneg (cache_set key value c) /\
  max_cache_size (cache_set key value c) = max_cache_size c /\
  cache_used (cache_set key value c) <= cache_used c + size value.
Proof.
  intros Hnn Hv Hfit. unfold cache_set.
  set (c1 := if cached c key then _ else c).
  assert (H1 : next_storage c1 = next_storage c /\ sizes_nonneg c1 /\
               max_cache_size c1 = max_cache_size c /\
               cache_used c1 <= cache_used c).
  { subst c1. destruct (cached c key); [|repeat split; auto; lia].
    destruct (cache_used_remove key (lru_sizes c) Hnn) as [Ha Hb].
    repeat split; assumption. }
  destruct H1 as (Hn1 & Hnn1 & Hm1 & Hu1).
  rewrite ensure_capacity_fits by lia.
  unfold insert_mru. cbn [next_storage max_cache_size].
  split; [exact Hn1|]. split; [|split; [exact Hm1|]].
  - unfold sizes_nonneg. cbn [lru_sizes]. apply Forall_app. split; [exact Hnn1|].
    repeat constructor. exact Hv.
  - unfold cache_used in *. cbn [lru_sizes].
    rewrite map_app, foldr_app. simpl.
    assert (Hsum : forall (l : list Z) a, foldr Z.add a l = foldr Z.add 0 l + a).
    { induction l as [|x l IH]; intros a; simpl; [lia|]. rewrite IH. lia. }
    rewrite Hsum. lia.
Qed.

End fresh_layer.


(** **** A chain of two caches: what reaches the store before a flush *)

Lemma sum_app (l1 l2 : list Z) :
  foldr Z.add 0 (l1 ++ l2) = foldr Z.add 0 l1 + foldr Z.add 0 l2.
Proof. induction l1 as [|x l1 IH]; simpl; [reflexivity | rewrite IH; lia]. Qed.

Lemma sum_move_to_end key (lru : list (string * Z)) :
  foldr Z.add 0 (map snd (move_to_end key lru)) = foldr Z.add 0 (map snd lru).
Proof.
  unfold move_to_end, lru_remove. rewrite map_app, sum_app.
  induction lru as [|[k z] lru IH]; [reflexivity|].
  rewrite !filter_cons. cbn [fst snd map foldr].
  destruct (decide (k <> key)), (decide (k = key)); cbn [map foldr snd];
    try tauto; lia.
Qed.

Lemma nonneg_move_to_end key (lru : list (string * Z)) :
  Forall (fun kz => 0 <= snd kz) lru ->
  Forall (fun kz => 0 <= snd kz) (move_to_end key lru).
Proof.
  intros H. unfold move_to_end, lru_remove.
  rewrite Forall_forall in H.
  apply Forall_app. split; apply Forall_forall; intros x Hx;
    apply list_elem_of_filter in Hx as [_ Hx]; apply H, Hx.
Qed.

Section one_layer.
Context {V N : Type} `{!Sized V} `{!StorageProvider V N}.

Lemma cache_used_insert_mru key value dirty (c : CacheLayer V N) :
  cache_used (insert_mru key value dirty c) = cache_used c + size value.
Proof.
  unfold cache_used, insert_mru. cbn [lru_sizes].
  rewrite map_app, sum_app. simpl. lia.
Qed.

(** The eviction rounds of a layer without dirty keys leave the layer below
    alone. *)
Lemma ensure_loop_clean need fuel : forall c : CacheLayer V N,
  dirty_keys c = ∅ -> sizes_nonneg c ->
  let c' := ensure_capacity_loop fuel need c in
  next_storage c' = next_storage c /\ dirty_keys c' = ∅ /\
  sizes_nonneg c' /\ cache_used c' <= cache_used c /\
  max_cache_size c' = max_cache_size c.
Proof.
  induction fuel as [|fuel IH]; intros c Hd Hnn; cbn [ensure_capacity_loop].
  { repeat split; auto. lia. }
  destruct (_ && _); [|repeat split; auto; lia].
  assert (H1 : next_storage (evict_oldest c) = next_storage c /\
               dirty_keys (evict_oldest c) = ∅ /\
               sizes_nonneg (evict_oldest c) /\
               cache_used (evict_oldest c) <= cache_used c /\
               max_cache_size (evict_oldest c) = max_cache_size c).
  { unfold evict_oldest. destruct (lru_sizes c) as [|[k z] lru] eqn:Hlru.
    { repeat split; auto. lia. }
    rewrite decide_False by (rewrite Hd; apply not_elem_of_empty).
    cbn [next_storage dirty_keys max_cache_size].
    unfold sizes_nonneg, cache_used in *. rewrite Hlru in *.
    cbn [lru_sizes map foldr snd]. apply Forall_cons in Hnn as [Hz Hnn].
    cbn [snd] in Hz.
    repeat split; try assumption; [|lia].
    rewrite Hd. apply set_eq. intros x. set_solver. }
  destruct H1 as (Hn1 & Hd1 & Hnn1 & Hu1 & Hm1).
  destruct (IH (evict_oldest c) Hd1 Hnn1) as (Hn2 & Hd2 & Hnn2 & Hu2 & Hm2).
  repeat split; try assumption; try congruence. lia.
Qed.

End one_layer.

Section chain.
Context {V : Type} `{!Sized V}.
Hypothesis size_nonneg : forall v : V, 0 <= size v.

Local Abbreviation dict := (gmap string V).
Local Abbreviation lower := (CacheLayer V dict).
Local Abbreviation upper := (CacheLayer V lower).

(** A write to the lower cache that finds room, or finds the cache without
    dirty keys, leaves the store below alone. *)
Lemma lower_set key value (l : lower) :
  sizes_nonneg l ->
  dirty_keys l = ∅ \/ cache_used l + size value <= max_cache_size l ->
  next_storage (cache_set key value l) = next_storage l /\
  sizes_nonneg (cache_set key value l) /\
  max_cache_size (cache_set key value l) = max_cache_size l /\
  cache_used (cache_set key value l) <= cache_used l + size value.
Proof.
  intros Hnn [Hd|Hfit].
  2:{ destruct (cache_set_fits key value l Hnn (size_nonneg value) Hfit)
        as (H1 & H2 & H3 & H4). auto. }
  unfold cache_set.
  set (l1 := if cached l key then _ else l).
  assert (H1 : next_storage l1 = next_storage l /\ sizes_nonneg l1 /\
               max_cache_size l1 = max_cache_size l /\
               cache_used l1 <= cache_used l /\ dirty_keys l1 = ∅).
  { subst l1. destruct (cached l key); [|repeat split; auto; lia].
    destruct (cache_used_remove key (lru_sizes l) Hnn) as [Ha Hb].
    repeat split; assumption. }
  destruct H1 as (Hn1 & Hnn1 & Hm1 & Hu1 & Hd1).
  destruct (ensure_loop_clean (size value) (length (lru_sizes l1)) l1 Hd1 Hnn1)
    as (Hn2 & Hd2 & Hnn2 & Hu2 & Hm2).
  fold (_ensure_capacity (size value) l1) in *.
  set (l2 := _ensure_capacity (size value) l1) in *.
  rewrite cache_used_insert_mru. unfold insert_mru.
  cbn [next_storage max_cache_size].
  split; [congruence|]. split; [|split; [congruence | lia]].
  unfold sizes_nonneg. cbn [lru_sizes]. apply Forall_app. split; [exact Hnn2|].
  repeat constructor. apply size_nonneg.
Qed.

(** The same for a read through the lower cache. *)
Lemma lower_get key (l : lower) :
  sizes_nonneg l ->
  match fst (cache_get key l) with
  | Ok v => dirty_keys l = ∅ \/ cache_used l + size v <= max_cache_size l
  | Raise _ => True
  end ->
  let l' := snd (cache_get key l) in
  next_storage l' = next_storage l /\ sizes_nonneg l' /\
  max_cache_size l' = max_cache_size l /\ dirty_keys l' = dirty_keys l /\
  cache_used l' <= cache_used l +
                   match fst (cache_get key l) with
                   | Ok v => size v
                   | Raise _ => 0
                   end.
Proof.
  intros Hnn. unfold cache_get. destruct (cached l key).
  - (* hit *)
    intros _.
    assert (Hu : cache_used (with_lru (move_to_end key (lru_sizes l)) l)
                 = cache_used l).
    { unfold cache_used. cbn [with_lru lru_sizes]. apply sum_move_to_end. }
    assert (Hnn' : sizes_nonneg (with_lru (move_to_end key (lru_sizes l)) l)).
    { unfold sizes_nonneg. cbn [with_lru lru_sizes].
      apply nonneg_move_to_end. exact Hnn. }
    cbn [with_lru cache_storage].
    destruct (cache_storage l !! key) as [v|]; cbn [fst snd];
      repeat split; try assumption; try reflexivity.
    + rewrite Hu. pose proof (size_nonneg v). lia.
    + rewrite Hu. lia.
  - (* miss *)
    cbn [sp_get MemoryProvider].
    destruct (next_storage l !! key) as [v|] eqn:Hv; cbn [fst snd].
    2:{ intros _. repeat split; try assumption; try reflexivity.
        unfold cache_used. cbn [with_next lru_sizes]. lia. }
    intros Hroom.
    set (l1 := with_next (next_storage l) l).
    assert (H1 : next_storage l1 = next_storage l /\ sizes_nonneg l1 /\
                 max_cache_size l1 = max_cache_size l /\
                 cache_used l1 = cache_used l /\
                 dirty_keys l1 = dirty_keys l).
    { repeat split. exact Hnn. }
    destruct H1 as (Hn1 & Hnn1 & Hm1 & Hu1 & Hd1).
    assert (H2 : let l2 := _ensure_capacity (size v) l1 in
                 next_storage l2 = next_storage l1 /\ sizes_nonneg l2 /\
                 max_cache_size l2 = max_cache_size l1 /\
                 cache_used l2 <= cache_used l1 /\
                 dirty_keys l2 = dirty_keys l1).
    { destruct Hroom as [Hd|Hfit].
      - destruct (ensure_loop_clean (size v) (length (lru_sizes l1)) l1)
          as (Ha & Hb & Hc & He & Hf); [congruence | exact Hnn1|].
        cbv zeta. unfold _ensure_capacity.
        repeat split; try assumption. congruence.
      - cbv zeta. rewrite ensure_capacity_fits by lia.
        repeat split; try assumption. lia. }
    cbv zeta in H2. destruct H2 as (Hn2 & Hnn2 & Hm2 & Hu2 & Hd2).
    set (l2 := _ensure_capacity (size v) l1) in *.
    rewrite cache_used_insert_mru. unfold insert_mru.
    cbn [next_storage max_cache_size dirty_keys].
    split; [congruence|]. split; [|split; [congruence|split; [congruence|lia]]].
    unfold sizes_nonneg. cbn [lru_sizes]. apply Forall_app. split; [exact Hnn2|].
    repeat constructor. apply size_nonneg.
Qed.

End chain.

(** The entries of a layer, through the calls. *)
Section entries.
Context {V N : Type} `{!Sized V} `{!StorageProvider V N}.
Hypothesis size_nonneg : forall v : V, 0 <= size v.

Lemma entries_nonneg u (c : CacheLayer V N) : entries_ok u c -> sizes_nonneg c.
Proof.
  intros [_ He]. apply Forall_forall. intros [k z] Hkz.
  destruct (He k z Hkz) as (v & _ & -> & _). apply size_nonneg.
Qed.

Lemma entries_ok_head u (c : CacheLayer V N) k z lru :
  entries_ok u c -> lru_sizes c = (k, z) :: lru ->
  exists v, cache_storage c !! k = Some v /\ z = size v /\ size v <= u /\
            (k ∉ map fst lru) /\ NoDup (map fst lru).
Proof.
  intros [Hnd He] Hlru. unfold lru_keys in Hnd. rewrite Hlru in Hnd, He.
  cbn [map fst] in Hnd. apply NoDup_cons in Hnd as [Hk Hnd].
  destruct (He k z) as (v & Hv & Hz & Hu); [constructor|].
  exists v. auto.
Qed.

Lemma entries_ok_evict u (c : CacheLayer V N) :
  entries_ok u c -> entries_ok u (evict_oldest c).
Proof.
  intros Hc. unfold evict_oldest.
  destruct (lru_sizes c) as [|[k z] lru] eqn:Hlru; [exact Hc|].
  destruct (entries_ok_head u c k z lru Hc Hlru) as (v & _ & _ & _ & Hk & Hnd).
  destruct Hc as [_ He]. split; [exact Hnd|].
  cbn [lru_sizes cache_storage]. intros k' z' Hin.
  assert (k' <> k).
  { intros ->. apply Hk. apply list_elem_of_fmap. exists (k, z'). auto. }
  rewrite lookup_delete_ne by congruence.
  apply He. rewrite Hlru. constructor. exact Hin.
Qed.

Lemma entries_ok_remove u key (c : CacheLayer V N) :
  entries_ok u c ->
  entries_ok u (with_lru (lru_remove key (lru_sizes c)) c) /\
  key ∉ lru_keys (with_lru (lru_remove key (lru_sizes c)) c).
Proof.
  intros [Hnd He]. unfold entries_ok, lru_keys in *.
  cbn [with_lru lru_sizes]. rewrite lru_remove_keys. split; [split|].
  - apply NoDup_filter. exact Hnd.
  - cbn [cache_storage]. intros k z Hin. apply He.
    unfold lru_remove in Hin. apply list_elem_of_filter in Hin. tauto.
  - intros Hin. apply list_elem_of_filter in Hin. tauto.
Qed.

Lemma entries_ok_move u key (c : CacheLayer V N) :
  entries_ok u c -> entries_ok u (with_lru (move_to_end key (lru_sizes c)) c).
Proof.
  intros [Hnd He]. split.
  - unfold lru_keys. cbn [with_lru lru_sizes]. apply move_to_end_NoDup, Hnd.
  - cbn [with_lru lru_sizes cache_storage]. intros k z Hin. apply He.
    unfold move_to_end, lru_remove in Hin.
    apply elem_of_app in Hin as [Hin|Hin];
      apply list_elem_of_filter in Hin; tauto.
Qed.

Lemma entries_ok_insert u key value dirty (c : CacheLayer V N) :
  entries_ok u c -> key ∉ lru_keys c -> size value <= u ->
  entries_ok u (insert_mru key value dirty c).
Proof.
  intros [Hnd He] Hk Hu. split.
  - unfold lru_keys, insert_mru. cbn [lru_sizes]. rewrite map_app.
    apply NoDup_app. repeat split; [exact Hnd| |apply NoDup_singleton].
    intros x Hx Hx'. apply list_elem_of_singleton in Hx' as ->. tauto.
  - unfold insert_mru. cbn [lru_sizes cache_storage]. intros k z Hin.
    apply elem_of_app in Hin as [Hin|Hin].
    + assert (k <> key).
      { intros ->. apply Hk. apply list_elem_of_fmap. exists (key, z). auto. }
      rewrite lookup_insert_ne by congruence. apply He, Hin.
    + apply list_elem_of_singleton in Hin. injection Hin as -> ->.
      rewrite lookup_insert_eq. eauto.
Qed.

End entries.

Section chain_calls.
Context {V : Type} `{!Sized V}.
Hypothesis size_nonneg : forall v : V, 0 <= size v.

Local Abbreviation dict := (gmap string V).
Local Abbreviation lower := (CacheLayer V dict).
Local Abbreviation upper := (CacheLayer V lower).

(** The eviction rounds of the upper cache: each dirty key that leaves it
    finds room in the lower one. *)
Lemma upper_ensure_loop u base need C fuel : forall c : upper,
  0 <= need ->
  entries_ok u c -> sizes_nonneg (next_storage c) ->
  next_storage (next_storage c) = base ->
  cache_used (next_storage c) + cache_used c <= C ->
  (dirty_keys (next_storage c) = ∅ \/
   cache_used (next_storage c) + max_cache_size c <= C + need + u) ->
  C + need + u <= max_cache_size c + max_cache_size (next_storage c) ->
  let c' := ensure_capacity_loop fuel need c in
  entries_ok u c' /\ sizes_nonneg (next_storage c') /\
  next_storage (next_storage c') = base /\
  cache_used (next_storage c') + cache_used c' <= C /\
  (dirty_keys (next_storage c') = ∅ \/
   cache_used (next_storage c') + max_cache_size c' <= C + need + u) /\
  max_cache_size c' = max_cache_size c /\
  max_cache_size (next_storage c') = max_cache_size (next_storage c) /\
  (forall k, k ∈ lru_keys c' -> k ∈ lru_keys c).
Proof.
  induction fuel as [|fuel IH]; intros c Hneed He Hnn Hbase Hsum Hfull Hcap;
    cbn [ensure_capacity_loop].
  { repeat split; auto; apply He. }
  destruct ((max_cache_size c <? cache_used c + need)
            && negb (bool_decide (lru_sizes c = []))) eqn:Hcond;
    [|repeat split; auto; apply He].
  apply andb_true_iff in Hcond as [Hover Hne]. apply Z.ltb_lt in Hover.
  destruct (lru_sizes c) as [|[k z] lru] eqn:Hlru;
    [rewrite bool_decide_eq_true_2 in Hne by reflexivity; discriminate|].
  destruct (entries_ok_head u c k z lru He Hlru)
    as (v & Hv & Hz & Hu & Hk & Hnd).
  pose proof (size_nonneg v) as Hv0.
  assert (HM : cache_used c = z + foldr Z.add 0 (map snd lru)).
  { unfold cache_used. rewrite Hlru. reflexivity. }
  set (c1 := evict_oldest c).
  assert (H1 : entries_ok u c1 /\ sizes_nonneg (next_storage c1) /\
               next_storage (next_storage c1) = base /\
               cache_used (next_storage c1) + cache_used c1 <= C /\
               (dirty_keys (next_storage c1) = ∅ \/
                cache_used (next_storage c1) + max_cache_size c1
                  <= C + need + u) /\
               max_cache_size c1 = max_cache_size c /\
               max_cache_size (next_storage c1)
                 = max_cache_size (next_storage c) /\
               (forall j, j ∈ lru_keys c1 -> j ∈ lru_keys c)).
  { split; [apply entries_ok_evict, He|].
    subst c1. unfold evict_oldest. rewrite Hlru, Hv.
    unfold lru_keys, cache_used in *.
    cbn [next_storage lru_sizes max_cache_size]. rewrite Hlru. cbn [map fst].
    assert (Hsub : forall j, j ∈ map fst lru -> j ∈ k :: map fst lru)
      by (intros j Hj; constructor; exact Hj).
    destruct (decide (k ∈ dirty_keys c)) as [Hd|Hd].
    - cbn [sp_set CacheProvider].
      destruct (lower_set size_nonneg k v (next_storage c) Hnn)
        as (Hb1 & Hnn1 & Hm1 & Hu1); [right; unfold cache_used; lia|].
      unfold cache_used in Hu1.
      split; [exact Hnn1|]. split; [congruence|]. split; [lia|].
      split; [right; lia|]. split; [reflexivity|]. split; [exact Hm1 | exact Hsub].
    - split; [exact Hnn|]. split; [exact Hbase|]. split; [lia|].
      split; [exact Hfull|]. split; [reflexivity|]. split; [reflexivity | exact Hsub]. }
  destruct H1 as (He1 & Hnn1 & Hb1 & Hs1 & Hf1 & Hm1 & Hl1 & Hk1).
  destruct (IH c1 Hneed He1 Hnn1 Hb1 Hs1) as (A1 & A2 & A3 & A4 & A5 & A6 & A7 & A8).
  { exact Hf1. }
  { rewrite Hm1, Hl1. exact Hcap. }
  split; [exact A1|]. split; [exact A2|]. split; [exact A3|].
  split; [exact A4|]. split; [exact A5|].
  split; [congruence|]. split; [congruence|].
  intros j Hj. apply Hk1, A8, Hj.
Qed.

(** A write to the chain. *)
Lemma upper_set u base C key value (c : upper) :
  chain_inv u C base c -> size value <= u ->
  C + size value + u <= max_cache_size c + max_cache_size (next_storage c) ->
  chain_inv u (C + size value) base (cache_set key value c) /\
  max_cache_size (cache_set key value c) = max_cache_size c /\
  max_cache_size (next_storage (cache_set key value c))
    = max_cache_size (next_storage c).
Proof.
  intros (He & Hnn & Hbase & Hsum & Hfull) Hu Hcap.
  pose proof (size_nonneg value) as Hv0.
  unfold cache_set.
  set (c1 := if cached c key then _ else c).
  assert (H1 : entries_ok u c1 /\ (key ∉ lru_keys c1) /\
               next_storage c1 = next_storage c /\
               cache_used c1 <= cache_used c /\
               max_cache_size c1 = max_cache_size c).
  { subst c1. unfold cached. fold (lru_keys c). case_bool_decide as Hk.
    - destruct (entries_ok_remove u key c He) as [Ha Hb].
      destruct (cache_used_remove key (lru_sizes c)
                  (entries_nonneg size_nonneg u c He)) as [_ Hle].
      repeat split; try assumption; apply Ha.
    - repeat split; try assumption; try lia; apply He. }
  destruct H1 as (He1 & Hk1 & Hn1 & Hu1 & Hm1).
  destruct (upper_ensure_loop u base (size value) C (length (lru_sizes c1)) c1)
    as (A1 & A2 & A3 & A4 & A5 & A6 & A7 & A8);
    try (rewrite ?Hn1, ?Hm1; first [assumption | lia]).
  { rewrite Hn1, Hm1. destruct Hfull as [Hd|Hf]; [left; exact Hd | right; lia]. }
  fold (_ensure_capacity (size value) c1) in *.
  set (c2 := _ensure_capacity (size value) c1) in *.
  split; [|split; [cbn [insert_mru max_cache_size]; congruence|
                   cbn [insert_mru next_storage]; congruence]].
  split; [apply entries_ok_insert; auto|].
  rewrite cache_used_insert_mru. cbn [insert_mru next_storage max_cache_size].
  split; [exact A2|]. split; [exact A3|]. split; [lia|].
  destruct A5 as [Hd|Hf]; [left; exact Hd | right; lia].
Qed.

(** A read through the chain. *)
Lemma upper_get u base C key (c : upper) :
  chain_inv u C base c ->
  let cost := match fst (cache_get key c) with
              | Ok v => 2 * size v
              | Raise _ => 0
              end in
  match fst (cache_get key c) with
  | Ok v => size v <= u
  | Raise _ => True
  end ->
  C + cost + u <= max_cache_size c + max_cache_size (next_storage c) ->
  chain_inv u (C + cost) base (snd (cache_get key c)) /\
  max_cache_size (snd (cache_get key c)) = max_cache_size c /\
  max_cache_size (next_storage (snd (cache_get key c)))
    = max_cache_size (next_storage c).
Proof.
  intros (He & Hnn & Hbase & Hsum & Hfull). unfold cache_get, cached.
  fold (lru_keys c). case_bool_decide as Hk.
  - (* the upper cache holds the key *)
    cbn [with_lru cache_storage].
    assert (Hc : forall cost, 0 <= cost ->
              chain_inv u (C + cost) base
                (with_lru (move_to_end key (lru_sizes c)) c)).
    { intros cost Hcost. split; [apply entries_ok_move, He|].
      unfold cache_used. cbn [with_lru next_storage lru_sizes max_cache_size].
      rewrite sum_move_to_end.
      fold (cache_used c). fold (cache_used (next_storage c)).
      split; [exact Hnn|]. split; [exact Hbase|]. split; [lia|].
      destruct Hfull as [Hd|Hf]; [left; exact Hd | right; lia]. }
    destruct (cache_storage c !! key) as [v|]; cbn [fst snd]; intros _ _.
    + split; [|split; reflexivity]. apply Hc. pose proof (size_nonneg v). lia.
    + split; [|split; reflexivity]. apply Hc. lia.
  - (* it asks the lower cache *)
    cbn [sp_get CacheProvider].
    pose proof (lower_get size_nonneg key (next_storage c) Hnn) as Hlow.
    destruct (cache_get key (next_storage c)) as [[value|e] l'] eqn:Hget;
      cbn [fst snd] in *.
    + intros Hu Hcap. pose proof (size_nonneg value) as Hv0.
      destruct Hlow as (Hb1 & Hnn1 & Hm1 & Hd1 & Hu1).
      { destruct Hfull as [Hd|Hf]; [left; exact Hd | right; lia]. }
      set (c1 := with_next l' c).
      destruct (upper_ensure_loop u base (size value) (C + size value)
                  (length (lru_sizes c1)) c1)
        as (A1 & A2 & A3 & A4 & A5 & A6 & A7 & A8);
        try (cbn [c1 with_next next_storage max_cache_size];
             first [assumption | congruence | lia]).
      { unfold cache_used in *. cbn [c1 with_next next_storage lru_sizes]. lia. }
      { cbn [c1 with_next next_storage max_cache_size].
        destruct Hfull as [Hd|Hf]; [left; congruence | right; lia]. }
      fold (_ensure_capacity (size value) c1) in *.
      set (c2 := _ensure_capacity (size value) c1) in *.
      change (next_storage c1) with l' in A7.
      split; [|split; [cbn [insert_mru max_cache_size]; exact A6|
                       cbn [insert_mru next_storage]; congruence]].
      split; [apply entries_ok_insert; auto|].
      rewrite cache_used_insert_mru.
      cbn [insert_mru next_storage max_cache_size].
      split; [exact A2|]. split; [exact A3|]. split; [lia|].
      destruct A5 as [Hd|Hf]; [left; exact Hd | right].
      change (max_cache_size c1) with (max_cache_size c) in A6. lia.
    + intros _ Hcap. destruct Hlow as (Hb1 & Hnn1 & Hm1 & Hd1 & Hu1); [exact I|].
      split; [|split; [reflexivity | exact Hm1]].
      split; [exact He|].
      unfold cache_used in *. cbn [with_next next_storage lru_sizes max_cache_size].
      split; [exact Hnn1|]. split; [congruence|]. split; [lia|].
      destruct Hfull as [Hd|Hf]; [left; congruence | right; lia].
Qed.

Lemma call_cost_nonneg (m : dict) (c : call V) : 0 <= call_cost m c.
Proof.
  destruct c as [key|key value|]; cbn; [|apply size_nonneg | lia].
  destruct (m !! key) as [v|]; [|lia]. pose proof (size_nonneg v). lia.
Qed.

Lemma calls_cost_nonneg (cs : list (call V)) : forall m : dict,
  0 <= calls_cost m cs.
Proof.
  induction cs as [|c cs IH]; intros m; cbn [calls_cost]; [lia|].
  pose proof (call_cost_nonneg m c). pose proof (IH (dict_call m c)). lia.
Qed.

(** One call on the chain. *)
Lemma chain_call u base C (c : upper) (cl : call V) :
  ok c -> chain_inv u C base c -> is_flush cl = false ->
  call_within u (view c) cl ->
  C + call_cost (view c) cl + u
    <= max_cache_size c + max_cache_size (next_storage c) ->
  chain_inv u (C + call_cost (view c) cl) base (run_call c cl) /\
  max_cache_size (run_call c cl) = max_cache_size c /\
  max_cache_size (next_storage (run_call c cl))
    = max_cache_size (next_storage c).
Proof.
  intros Hok Hinv Hfl Hin Hcap. destruct cl as [key|key value|];
    [| |discriminate]; cbn [run_call call_cost call_within] in *.
  - destruct (get_law key c Hok) as (_ & _ & Hres).
    cbn [sp_get CacheProvider] in *.
    pose proof (upper_get u base C key c Hinv) as Hget.
    cbv zeta in Hget. rewrite Hres in Hget. unfold lookup_result in Hget.
    destruct (view c !! key) as [v|]; apply Hget; assumption.
  - cbn [sp_set CacheProvider]. apply upper_set; assumption.
Qed.

(** A history of calls on the chain. *)
Lemma chain_calls u base (cs : list (call V)) : forall (c : upper) C,
  ok c -> chain_inv u C base c ->
  Forall (fun cl => is_flush cl = false) cs ->
  calls_within u (view c) cs ->
  C + calls_cost (view c) cs + u
    <= max_cache_size c + max_cache_size (next_storage c) ->
  chain_inv u (C + calls_cost (view c) cs) base (run_calls cs c).
Proof.
  unfold run_calls.
  induction cs as [|cl cs IH]; intros c C Hok Hinv Hfl Hin Hcap;
    cbn [calls_cost calls_within foldl] in *.
  { rewrite Z.add_0_r. exact Hinv. }
  apply Forall_cons in Hfl as [Hfl1 Hfl]. destruct Hin as [Hin1 Hin].
  destruct (run_call_law c cl Hok) as [Hok1 Hview1].
  pose proof (calls_cost_nonneg cs (dict_call (view c) cl)) as Hrest.
  destruct (chain_call u base C c cl Hok Hinv Hfl1 Hin1) as (Hinv1 & Hm1 & Hl1);
    [lia|].
  rewrite Z.add_assoc. rewrite <- Hview1.
  apply IH; try assumption.
  - rewrite Hview1. exact Hin.
  - rewrite Hview1, Hm1, Hl1. lia.
Qed.

(** What the chain of a new dataset holds back: as long as the caches have
    room for the calls, one value to spare, the store under them stays as it
    was. *)
Lemma chain_holds_back (base : dict) (mem local u : Z) (cs : list (call V)) :
  Forall (fun cl => is_flush cl = false) cs ->
  calls_within u base cs ->
  calls_cost base cs + u <= mem + local ->
  backing (run_calls cs (generate_chain base mem local)) = base.
Proof.
  intros Hfl Hin Hcap.
  set (c := generate_chain base mem local).
  assert (Hok : ok c /\ view c = base).
  { unfold c, generate_chain.
    assert (Hbase : ok base) by exact I.
    destruct (new_layer_ok base local Hbase) as (H1 & H2 & _).
    destruct (new_layer_ok (new_layer base local) mem H1) as (H4 & H5 & _).
    split; [exact H4 | rewrite H5; exact H2]. }
  destruct Hok as [Hok Hview].
  assert (Hinv : chain_inv u 0 base c).
  { split; [split; [constructor | intros k z Hkz; inversion Hkz]|].
    split; [constructor|]. split; [reflexivity|].
    split; [cbn; lia | left; reflexivity]. }
  destruct (chain_calls u base cs c 0 Hok Hinv Hfl) as (_ & _ & Hb & _).
  - rewrite Hview. exact Hin.
  - rewrite Hview. cbn. lia.
  - exact Hb.
Qed.

End chain_calls.

(** **** The eviction scenario *)

(** The cache that holds the dirty keys [F1] then [F2], 16 units each, under
    a budget of 32 units, with nothing below it. *)
Lemma third_set_state (u : Z) (F1 F2 F3 : string) (v1 v2 v3 : list byte) :
  0 < u -> F1 <> F2 -> F1 <> F3 -> F2 <> F3 ->
  bytes_len v3 = 16 * u ->
  cache_set F3 v3
    {| cache_storage := <[F2 := v2]> (<[F1 := v1]> ∅);
       next_storage := (∅ : gmap string (list byte));
       max_cache_size := 32 * u;
       lru_sizes := [(F1, 16 * u); (F2, 16 * u)];
       dirty_keys := {[F1; F2]} |} =
    {| cache_storage := <[F3 := v3]> (<[F2 := v2]> ∅);
       next_storage := <[F1 := v1]> ∅;
       max_cache_size := 32 * u;
       lru_sizes := [(F2, 16 * u); (F3, 16 * u)];
       dirty_keys := {[F3; F2]} |}.
Proof.
  intros Hu H12 H13 H23 Hv3.
  rewrite cache_set_uncached by (simpl; set_solver).
  change (size v3) with (bytes_len v3). rewrite Hv3.
  rewrite (ensure_capacity_evicts _ _ F1 (16 * u) [(F2, 16 * u)])
    by (try reflexivity; unfold cache_used; simpl; lia).
  rewrite (evict_oldest_dirty _ F1 (16 * u) [(F2, 16 * u)] v1);
    [|reflexivity | simpl; set_solver
     |simpl; rewrite lookup_insert_ne by (apply not_eq_sym; exact H12);
      apply lookup_insert_eq].
  rewrite ensure_capacity_fits by (unfold cache_used; simpl; lia).
  unfold insert_mru. simpl.
  change (size v3) with (bytes_len v3). rewrite Hv3.
  rewrite delete_insert_ne by exact H12.
  rewrite delete_insert_eq, delete_empty.
  f_equal. set_solver.
Qed.

(** C3. A cache layer with a budget of 32 units holds the dirty keys [F1]
    then [F2], 16 units each, [F1] the oldest; nothing is below it yet.
    Setting a third key [F3] of 16 units evicts exactly [F1], whose cached
    bytes are first written to [next_storage]: afterwards the dirty keys are
    [{F3, F2}], the cache holds exactly [F2] and [F3], [next_storage] holds
    exactly [F1], and [cache_used] is 32 units. With [u = MB] this is the
    scenario of the 32 MB cache and the three 16 MB chunks. *)
Theorem set_evicts_oldest_dirty (u : Z) (F1 F2 F3 : string)
    (v1 v2 v3 : list byte) :
  0 < u -> F1 <> F2 -> F1 <> F3 -> F2 <> F3 ->
  bytes_len v1 = 16 * u -> bytes_len v2 = 16 * u -> bytes_len v3 = 16 * u ->
  let cache : CacheLayer (list byte) (gmap string (list byte)) :=
    {| cache_storage := <[F2 := v2]> (<[F1 := v1]> ∅);
       next_storage := ∅;
       max_cache_size := 32 * u;
       lru_sizes := [(F1, 16 * u); (F2, 16 * u)];
       dirty_keys := {[F1; F2]} |} in
  let cache' := cache_set F3 v3 cache in
  dirty_keys cache' = {[F3; F2]} /\
  cache_storage cache' = <[F3 := v3]> (<[F2 := v2]> ∅) /\
  map fst (lru_sizes cache') = [F2; F3] /\
  next_storage cache' = <[F1 := v1]> ∅ /\
  cache_used cache' = 32 * u.
Proof.
  intros Hu H12 H13 H23 Hv1 Hv2 Hv3 cache cache'.
  subst cache' cache. rewrite third_set_state by assumption.
  repeat split. unfold cache_used. simpl. lia.
Qed.

Lemma set_evicts_oldest_dirty_witness :
  let v := repeat "000"%byte 16 in
  let cache : CacheLayer (list byte) (gmap string (list byte)) :=
    {| cache_storage := <["F2" := v]> (<["F1" := v]> ∅);
       next_storage := ∅;
       max_cache_size := 32 * 1;
       lru_sizes := [("F1", 16 * 1); ("F2", 16 * 1)]%string;
       dirty_keys := {["F1"; "F2"]}%string |} in
  bytes_len v = 16 * 1 /\
  next_storage (cache_set "F3" v cache) = <["F1" := v]> ∅.
Proof.
  intros v cache. split; [reflexivity|].
  exact (proj1 (proj2 (proj2 (proj2
    (set_evicts_oldest_dirty 1 "F1" "F2" "F3" v v v
       eq_refl ltac:(discriminate) ltac:(discriminate) ltac:(discriminate)
       eq_refl eq_refl eq_refl))))).
Defined.

(** The state the scenario starts from is the one that setting [F1] and then
    [F2] on an empty cache builds. *)
Lemma two_sets_fill_the_cache (u : Z) (F1 F2 : string) (v1 v2 : list byte) :
  0 < u -> F1 <> F2 -> bytes_len v1 = 16 * u -> bytes_len v2 = 16 * u ->
  cache_set F2 v2
    (cache_set F1 v1 (new_layer (∅ : gmap string (list byte)) (32 * u)))
  = {| cache_storage := <[F2 := v2]> (<[F1 := v1]> ∅);
       next_storage := ∅;
       max_cache_size := 32 * u;
       lru_sizes := [(F1, 16 * u); (F2, 16 * u)];
       dirty_keys := {[F1; F2]} |}.
Proof.
  intros Hu H12 Hv1 Hv2.
  rewrite (cache_set_uncached F1) by (simpl; set_solver).
  change (size v1) with (bytes_len v1). rewrite Hv1.
  rewrite ensure_capacity_fits by (unfold cache_used; simpl; lia).
  rewrite cache_set_uncached by (simpl; set_solver).
  change (size v2) with (bytes_len v2). rewrite Hv2.
  rewrite ensure_capacity_fits
    by (unfold cache_used; simpl; change (size v1) with (bytes_len v1); lia).
  unfold insert_mru, new_layer. simpl.
  change (size v1) with (bytes_len v1). change (size v2) with (bytes_len v2).
  rewrite Hv1, Hv2. f_equal. set_solver.
Qed.

End CacheFacts.

Module DatasetFacts.
Import Numpy TensorCore Cache CacheFacts Calls.

Section flush.
Context `{!Sized obj}.

Lemma generate_chain_ok (base : gmap string obj) (mem local : Z) :
  ok (generate_chain base mem local) /\
  view (generate_chain base mem local) = base /\
  backing (generate_chain base mem local) = base.
Proof.
  unfold generate_chain.
  assert (Hbase : ok base) by exact I.
  destruct (new_layer_ok base local Hbase) as (H1 & H2 & H3).
  destruct (new_layer_ok (new_layer base local) mem H1) as (H4 & H5 & H6).
  split; [exact H4|]. split; [rewrite H5; exact H2 | rewrite H6; exact H3].
Qed.

Lemma get_cache_chain_ok from_path MB path storage mem local :
  let s := Dataset._get_cache_chain from_path MB path storage mem local in
  ok s /\ view s = backing s.
Proof.
  unfold Dataset._get_cache_chain.
  destruct storage as [[[|] m]|]; cbn [Dataset.is_memory_provider Dataset.content].
  - split; [exact I | reflexivity].
  - destruct (generate_chain_ok
                (Dataset.content (if bool_decide (m = ∅) then from_path path
                   else {| Dataset.is_memory_provider := false;
                           Dataset.content := m |}))
                (mem * MB) (local * MB)) as (H1 & H2 & H3).
    split; [exact H1|]. cbn [view backing sum_provider]. congruence.
  - destruct (generate_chain_ok (Dataset.content (from_path path))
                (mem * MB) (local * MB)) as (H1 & H2 & H3).
    split; [exact H1|]. cbn [view backing sum_provider]. congruence.
Qed.

(** Whatever the writer did, after [flush()] the backing store holds what
    the writer sees, which is what its writes make of the store it opened. *)
Lemma flush_publishes from_path MB path storage mem local
    (cs : list (call obj)) :
  let writer0 := Dataset._get_cache_chain from_path MB path storage mem local in
  let writer := run_calls cs writer0 in
  view writer = foldl dict_call (backing writer0) cs /\
  backing (Dataset.flush writer) = view writer.
Proof.
  intros writer0 writer.
  destruct (get_cache_chain_ok from_path MB path storage mem local) as [H0 Hv0].
  fold writer0 in H0, Hv0.
  destruct (run_calls_law cs writer0 H0) as [H1 Hv1]. fold writer in H1, Hv1.
  split; [rewrite Hv1, Hv0; reflexivity|].
  apply (flush_law writer H1).
Qed.

Lemma opened_len_empty : Dataset.opened_len ∅ = Ok 0.
Proof. reflexivity. Qed.


End flush.

Lemma obj_len_nonneg (o : obj) : 0 <= obj_len o.
Proof. destruct o; unfold obj_len, bytes_len; lia. Qed.



End DatasetFacts.

Module ChunkReadFacts.
Import Numpy TensorCore ChunkRead.

Lemma py_range_from (a : Z) (n : nat) :
  py_range a (a + Z.of_nat n) = map (fun i => a + Z.of_nat i) (seq 0 n).
Proof.
  unfold py_range. replace (a + Z.of_nat n - a) with (Z.of_nat n) by lia.
  rewrite Nat2Z.id. reflexivity.
Qed.

Lemma py_range_cons (a : Z) (n : nat) :
  py_range a (a + Z.of_nat (S n))
    = a :: py_range (a + 1) (a + 1 + Z.of_nat n).
Proof.
  rewrite !py_range_from. cbn [seq map]. rewrite Z.add_0_r. f_equal.
  rewrite <- seq_shift, map_map. apply map_ext. intros i. lia.
Qed.

Section read.
Variable key : string.
Variable decompressor : list byte -> result (list byte).
Variable st : storage.

Lemma read_chunks_ok chunks pieces :
  Forall2 (fun c d => decompressor c = Ok d) chunks pieces ->
  forall first b,
  chunks_at key st first chunks ->
  read_chunks key decompressor st
    (py_range first (first + Z.of_nat (length chunks))) b
    = Ok (b ++ concat pieces).
Proof.
  induction 1 as [|c d chunks pieces Hd _ IH]; intros first b Hat.
  - rewrite py_range_from. cbn. rewrite app_nil_r. reflexivity.
  - cbn [length]. rewrite py_range_cons. cbn [read_chunks].
    unfold read_from_storage, getitem, mbind, result_bind.
    pose proof (Hat 0%nat c eq_refl) as H0. rewrite Z.add_0_r in H0.
    rewrite H0, Hd. rewrite IH.
    + cbn [concat]. rewrite app_assoc. reflexivity.
    + intros i x Hx. replace (first + 1 + Z.of_nat i)
        with (first + Z.of_nat (S i)) by lia.
      apply Hat. exact Hx.
Qed.

Lemma np_frombuffer_reshape (a : ndarray) :
  wf_array a ->
  (a' ← np_frombuffer (data a) (dtype a); np_reshape a' (shape a)) = Ok a.
Proof.
  intros (sz & Hsz & Hlen). unfold np_frombuffer. rewrite Hsz.
  assert (Hpos : (0 < sz)%nat).
  { unfold itemsize in Hsz. repeat case_decide; try discriminate;
      injection Hsz as <-; lia. }
  rewrite Hlen, (Nat.mul_comm sz), Nat.Div0.mod_mul, Nat.div_mul by lia.
  cbn [Nat.eqb mbind result_bind]. unfold mbind, result_bind, np_reshape.
  cbn [shape dtype data prod foldr]. rewrite Nat.mul_1_r, Nat.eqb_refl.
  destruct a. reflexivity.
Qed.

Lemma read_sample_ok dt index_map s index e a :
  index_map !! index = Some e ->
  sample_stored key decompressor st dt e a ->
  read_sample key decompressor st dt index_map s (Z.of_nat index) =
    Ok {| samples := samples s ++ [a];
          all_same_shape :=
            all_same_shape s && adjacent_same (last_shape s) [shape a];
          last_shape := Some (shape a) |}.
Proof.
  intros He (Hwf & Hdt & Hsh & chunks & pieces & Hat & Hend & Hdec & Hcat).
  unfold read_sample, list_getitem. rewrite Nat2Z.id, He.
  unfold mbind at 1, result_bind at 1.
  replace (end_chunk e + 1)
    with (start_chunk e + Z.of_nat (length chunks)) by lia.
  rewrite (read_chunks_ok chunks pieces Hdec _ [] Hat). cbn [app].
  unfold mbind at 1, result_bind at 1. rewrite Hcat, <- Hdt, Hsh.
  pose proof (np_frombuffer_reshape a Hwf) as Hnp.
  unfold mbind, result_bind in Hnp |- *.
  destruct (np_frombuffer (data a) (dtype a)) as [a'|]; [|discriminate].
  rewrite Hnp. do 2 f_equal. cbn [adjacent_same].
  destruct (last_shape s) as [l|]; [|rewrite andb_true_r; reflexivity].
  rewrite andb_true_r. case_decide; case_bool_decide; try tauto.
  - rewrite andb_true_r. reflexivity.
  - rewrite andb_false_r. reflexivity.
Qed.

Lemma read_loop_ok dt index_map (rest : list ndarray) : forall k s,
  (forall i a, rest !! i = Some a ->
     exists e, index_map !! (k + i)%nat = Some e /\
               sample_stored key decompressor st dt e a) ->
  read_loop key decompressor st dt index_map
    (map Z.of_nat (seq k (length rest))) s =
    Ok {| samples := samples s ++ rest;
          all_same_shape :=
            all_same_shape s &&
            adjacent_same (last_shape s) (map shape rest);
          last_shape :=
            match last rest with
            | Some a => Some (shape a)
            | None => last_shape s
            end |}.
Proof.
  induction rest as [|a rest IH]; intros k s Hall.
  - cbn. rewrite app_nil_r, andb_true_r. destruct s. reflexivity.
  - cbn [length seq map read_loop].
    destruct (Hall 0%nat a eq_refl) as (e & He & Hst).
    rewrite Nat.add_0_r in He.
    rewrite (read_sample_ok dt index_map s k e a He Hst).
    unfold mbind, result_bind. rewrite IH.
    + cbn [samples all_same_shape last_shape adjacent_same map].
      rewrite <- app_assoc. cbn [app]. f_equal. f_equal.
      * rewrite andb_true_r, andb_assoc. reflexivity.
      * destruct rest as [|a1 rest']; [reflexivity|].
        rewrite !last_cons. destruct (last rest'); reflexivity.
    + intros i a0 Ha0. replace (S k + i)%nat with (k + S i)%nat by lia.
      apply Hall. exact Ha0.
Qed.

End read.

Lemma adjacent_same_all (sh : list nat) (shapes : list (list nat)) :
  adjacent_same (Some sh) shapes
    = forallb (fun s => bool_decide (s = sh)) shapes.
Proof.
  revert sh. induction shapes as [|s shapes IH]; intros sh; [reflexivity|].
  cbn [adjacent_same forallb]. rewrite IH.
  case_bool_decide as H1; case_bool_decide as H2; try congruence.
  - subst. reflexivity.
  - reflexivity.
Qed.

(** X20. The reader of the older chunk format returns the samples that the
    storage holds: for each of the first [length] entries of the index map,
    the decompressed bytes of the chunks [c<start_chunk>], ...,
    [c<end_chunk>] (both included), seen as an array of the dtype of the
    meta and of the shape of the entry. The samples come back as one
    stacked array when they all have the same shape (the empty vector of
    the dtype when [length] is 0), and as a list otherwise. *)
Theorem read_returns_samples (key : string)
    (decompressor : list byte -> result (list byte)) (st : storage)
    (index_map : list index_entry) (meta : tensor_meta)
    (arrays : list ndarray) :
  st !! path_join key "index_map" = Some (OIndexMap index_map) ->
  st !! path_join key "meta.json" = Some (OTensorMeta meta) ->
  tm_length meta = Z.of_nat (length arrays) ->
  Forall2 (sample_stored key decompressor st (tm_dtype meta))
    (take (length arrays) index_map) arrays ->
  read key decompressor st = Ok (stacked_or_list (tm_dtype meta) arrays).
Proof.
  intros Him Hmeta Hlen Hall.
  unfold read, getitem. rewrite Him. cbn [mbind result_bind loads_index_map].
  unfold mbind at 1, result_bind at 1. rewrite Hmeta.
  cbn [loads_meta]. unfold mbind at 1, result_bind at 1.
  unfold mbind at 1, result_bind at 1.
  rewrite Hlen. change 0 with (Z.of_nat 0) at 1.
  replace (Z.of_nat (length arrays)) with (0 + Z.of_nat (length arrays))
    by lia.
  change (Z.of_nat 0) with 0. rewrite py_range_from.
  rewrite (map_ext (fun i => 0 + Z.of_nat i) Z.of_nat) by (intros; lia).
  rewrite (read_loop_ok key decompressor st (tm_dtype meta) index_map arrays).
  2:{ intros i a Ha.
      destruct (Forall2_lookup_r _ _ _ _ _ Hall Ha) as (e & He & Hst).
      exists e. split; [|exact Hst].
      apply lookup_take_Some in He as [He _]. exact He. }
  cbn [mbind result_bind samples all_same_shape last_shape app andb].
  unfold mbind, result_bind. cbn [samples all_same_shape app].
  destruct arrays as [|a rest]; [reflexivity|].
  cbn [map adjacent_same andb stacked_or_list].
  rewrite adjacent_same_all.
  assert (Hmap : forallb (fun s => bool_decide (s = shape a)) (map shape rest)
                 = forallb (fun b => bool_decide (shape b = shape a)) rest).
  { clear. induction rest as [|b rest IH]; [reflexivity|].
    cbn [map forallb]. rewrite IH. reflexivity. }
  rewrite Hmap.
  destruct (forallb (fun b => bool_decide (shape b = shape a)) rest) eqn:Hf;
    [|reflexivity].
  assert (Hsame : Forall (fun b => shape b = shape a /\
                                   dtype b = tm_dtype meta) (a :: rest)).
  { apply Forall_forall. intros b Hb.
    destruct (list_elem_of_lookup_1 _ _ Hb) as [i Hi].
    destruct (Forall2_lookup_r _ _ _ _ _ Hall Hi) as (e & _ & _ & Hd & _).
    split; [|exact Hd].
    apply elem_of_cons in Hb as [->|Hb]; [reflexivity|].
    rewrite forallb_forall in Hf. apply list_elem_of_In, Hf in Hb.
    apply bool_decide_eq_true in Hb. exact Hb. }
  unfold np_array. cbn [fmap result_fmap].
  rewrite (TensorFacts.stack_same (tm_dtype meta) (shape a) (a :: rest))
    by (try discriminate; exact Hsame).
  reflexivity.
Qed.

Lemma read_returns_samples_witness :
  let e1 := {| start_chunk := 0; end_chunk := 1; start_byte := 0%nat;
               end_byte := 0%nat; ie_shape := [2; 2]%nat |} in
  let e2 := {| start_chunk := 2; end_chunk := 2; start_byte := 0%nat;
               end_byte := 0%nat; ie_shape := [4]%nat |} in
  let meta := {| tm_dtype := "uint8"; tm_length := 2; tm_min_shape := [];
                 tm_max_shape := []; tm_chunk_size := 3 |} in
  let st : storage :=
    <[ "t/index_map" := OIndexMap [e1; e2] ]>
    (<[ "t/meta.json" := OTensorMeta meta ]>
    (<[ "t/c0" := OBytes ["001"; "002"; "003"]%byte ]>
    (<[ "t/c1" := OBytes ["004"]%byte ]>
    (<[ "t/c2" := OBytes ["005"; "006"; "007"; "008"]%byte ]> ∅))))%string in
  let a1 := {| dtype := "uint8"; shape := [2; 2]%nat;
               data := ["001"; "002"; "003"; "004"]%byte |} in
  let a2 := {| dtype := "uint8"; shape := [4]%nat;
               data := ["005"; "006"; "007"; "008"]%byte |} in
  read "t" Ok st = Ok (inr [a1; a2]).
Proof.
  intros e1 e2 meta st a1 a2.
  apply (read_returns_samples "t" Ok st [e1; e2] meta [a1; a2]).
  - reflexivity.
  - reflexivity.
  - reflexivity.
  - constructor; [|constructor; [|constructor]].
    + split; [exists 1%nat; split; reflexivity|].
      split; [reflexivity|]. split; [reflexivity|].
      exists [["001"; "002"; "003"]; ["004"]]%byte,
             [["001"; "002"; "003"]; ["004"]]%byte.
      split; [|split; [reflexivity|split; [repeat constructor | reflexivity]]].
      intros [|[|i]] c Hc; try discriminate; injection Hc as <-; reflexivity.
    + split; [exists 1%nat; split; reflexivity|].
      split; [reflexivity|]. split; [reflexivity|].
      exists [["005"; "006"; "007"; "008"]]%byte,
             [["005"; "006"; "007"; "008"]]%byte.
      split; [|split; [reflexivity|split; [repeat constructor | reflexivity]]].
      intros [|i] c Hc; try discriminate; injection Hc as <-; reflexivity.
Defined.

End ChunkReadFacts.
